(** * ShapeShifter path commands: a shallow embedding of
      [src/app/scripts/svgcommands.ts] and the properties of its
      morphability, interpolation, transformation, rendering, reversal
      and seam-shifting code, and of the Android color routines that
      follow it.

    JavaScript numbers are IEEE 754 binary64 values, so are Rocq's
    primitive floats: [lerp] and the [===] tests on numbers are the
    kernel's own float operations.  Objects mutated in place are modelled
    by state passing (the receiver after the call is part of the result);
    [interpolate] is also given on a store of command objects, to speak
    about aliasing between [this], [start] and [end]. *)

From Stdlib Require Import PrimFloat FloatOps FloatAxioms SpecFloat Ascii.
From stdpp Require Import base option list gmap strings.

Local Open Scope nat_scope.
Local Open Scope list_scope.

(** ** Numbers and points *)

Definition number : Type := float.
Bind Scope float_scope with number.

(** [a === b] on two numbers: false on NaN, true on [0] and [-0]. *)
Definition strict_eq (a b : number) : bool := PrimFloat.eqb a b.

(** <<function lerp(a, b, t) { return a + (b - a) * t; }>> *)
Definition lerp (a b t : number) : number :=
  PrimFloat.add a (PrimFloat.mul (PrimFloat.sub b a) t).

Record Point : Type := mkPoint { x : number; y : number }.

(** A slot of a point array: [None] is JavaScript's [undefined] (the start
    of the first move of a path), the only falsy value such a slot holds. *)
Definition slot : Type := option Point.

(** ** Arrays

    Reading past the end of an array yields [undefined]; writing past the
    end extends the array, leaving holes that read as [undefined]. *)

Definition array_get {A : Type} (undef : A) (i : nat) (l : list A) : A :=
  nth i l undef.

Definition array_set {A : Type} (undef : A) (i : nat) (v : A) (l : list A)
  : list A :=
  if decide (i < length l) then <[i := v]> l
  else l ++ replicate (i - length l) undef ++ [v].

(** A point array: holes and [undefined] are both [None]. *)
Definition points_get (i : nat) (l : list slot) : slot := array_get None i l.
Definition points_set (i : nat) (v : slot) (l : list slot) : list slot :=
  array_set None i v l.

(** An argument array of an arc is a [number[]], kept as a list of
    numbers.  Within the array, reads and writes are those of the source.
    Past its end the source reads [undefined], and a write there leaves
    holes before the index it writes; the list keeps NaN at both.  The
    model then agrees with the source on the length of the array and on
    every arithmetic use of the value read ([undefined] in a sum or a
    product gives NaN, [undefined === 0] is false), not on the value
    itself where it is stored or compared, nor on [forEach], which skips
    holes.  This concerns arcs built with fewer than nine numbers only:
    every statement below about a value of [args] says that the indices
    it names are in range, and the one statement about such an arc is
    about the length of [args]. *)
Definition args_get (i : nat) (l : list number) : number :=
  array_get PrimFloat.nan i l.
Definition args_set (i : nat) (v : number) (l : list number) : list number :=
  array_set PrimFloat.nan i v l.

(** ** Completion of a method call

    A call either returns a value or throws a [TypeError] (a property read
    on [undefined]); in both cases the receiver is left in some state. *)

Inductive outcome (R S : Type) : Type :=
| Returns (r : R) (s : S)
| Throws (s : S).
Arguments Returns {R S} r s.
Arguments Throws {R S} s.

Definition final_state {R S : Type} (o : outcome R S) : S :=
  match o with
  | Returns _ s => s
  | Throws s => s
  end.

(** <<array.forEach((c, i) => c.method(...))>> on an array of objects that
    the method mutates in place.  When the method throws at some element
    the elements after it are never visited. *)
Fixpoint forEach_from {A R : Type} (body : nat -> A -> outcome R A)
    (i : nat) (l : list A) : outcome unit (list A) :=
  match l with
  | [] => Returns tt []
  | c :: l' =>
      match body i c with
      | Returns _ c' =>
          match forEach_from body (S i) l' with
          | Returns _ r => Returns tt (c' :: r)
          | Throws r => Throws (c' :: r)
          end
      | Throws c' => Throws (c' :: l')
      end
  end.

(** ** Draw commands *)

(** The concrete classes: [this.constructor] of a command. *)
Inductive Variant : Type :=
| Move | Line | QuadraticCurve | BezierCurve | ClosePath | EllipticalArc.

#[global] Instance Variant_eq_dec : EqDecision Variant.
Proof. solve_decision. Defined.

(** The five classes that keep their geometry in the inherited point
    array only. *)
Inductive PointsClass : Type :=
| CMove | CLine | CQuadraticCurve | CBezierCurve | CClosePath.

(** A command object: its class, its [points_] array and, for an arc, its
    own [args] array.  Both arrays are created by the constructor call
    (rest parameters), so no two commands share one. *)
Inductive DrawCommand : Type :=
| PointsCmd (k : PointsClass) (points_ : list slot)
| ArcCmd (points_ : list slot) (args_ : list number).

Definition ctor (c : DrawCommand) : Variant :=
  match c with
  | PointsCmd CMove _ => Move
  | PointsCmd CLine _ => Line
  | PointsCmd CQuadraticCurve _ => QuadraticCurve
  | PointsCmd CBezierCurve _ => BezierCurve
  | PointsCmd CClosePath _ => ClosePath
  | ArcCmd _ _ => EllipticalArc
  end.

(** [svgChar_] is read-only and fixed by the class's constructor. *)
Definition svgChar (c : DrawCommand) : ascii :=
  match ctor c with
  | Move => "M"
  | Line => "L"
  | QuadraticCurve => "Q"
  | BezierCurve => "C"
  | ClosePath => "Z"
  | EllipticalArc => "A"
  end%char.

Definition points (c : DrawCommand) : list slot :=
  match c with
  | PointsCmd _ ps => ps
  | ArcCmd ps _ => ps
  end.

(** [command.args]: [undefined] on every command but an arc. *)
Definition args (c : DrawCommand) : option (list number) :=
  match c with
  | PointsCmd _ _ => None
  | ArcCmd _ a => Some a
  end.

(** <<get start() { return this.points_[0]; }>> *)
Definition cmd_start (c : DrawCommand) : slot := points_get 0 (points c).

(** <<get end() { return this.points_[this.points_.length - 1]; }>>
    (index [-1] of an empty array is [undefined]). *)
Definition cmd_end (c : DrawCommand) : slot :=
  match points c with
  | [] => None
  | ps => points_get (length ps - 1) ps
  end.

(** *** Constructors *)

Definition MoveCommand (s e : slot) : DrawCommand := PointsCmd CMove [s; e].
Definition LineCommand (s e : slot) : DrawCommand := PointsCmd CLine [s; e].
Definition QuadraticCurveCommand (s cp e : slot) : DrawCommand :=
  PointsCmd CQuadraticCurve [s; cp; e].
Definition BezierCurveCommand (s cp1 cp2 e : slot) : DrawCommand :=
  PointsCmd CBezierCurve [s; cp1; cp2; e].
Definition ClosePathCommand (s e : slot) : DrawCommand :=
  PointsCmd CClosePath [s; e].

(** <<super('A', new Point(args[0], args[1]), new Point(args[7], args[8]));
    this.args = args;>> *)
Definition EllipticalArcCommand (a : list number) : DrawCommand :=
  ArcCmd [Some (mkPoint (args_get 0 a) (args_get 1 a));
          Some (mkPoint (args_get 7 a) (args_get 8 a))]
         a.

(** *** isMorphableWith *)

(** <<this.constructor === command.constructor
      && this.points.length === command.points.length>> *)
Definition DrawCommand_isMorphableWith_base (this command : DrawCommand)
  : bool :=
  bool_decide (ctor this = ctor command)
  && bool_decide (length (points this) = length (points command)).

(** Method lookup on the receiver's class: the arc overrides the method
    with <<return true;>>. *)
Definition DrawCommand_isMorphableWith (this command : DrawCommand) : bool :=
  match this with
  | ArcCmd _ _ => true
  | PointsCmd _ _ => DrawCommand_isMorphableWith_base this command
  end.

(** *** interpolate *)

(** One round of the loop of [DrawCommand.interpolate]. *)
Definition interpolate_point (sps eps : list slot) (fraction : number)
    (i : nat) (ps : list slot) : list slot :=
  match points_get i sps, points_get i eps with
  | Some startPoint, Some endPoint =>
      points_set i
        (Some (mkPoint (lerp (x startPoint) (x endPoint) fraction)
                       (lerp (y startPoint) (y endPoint) fraction)))
        ps
  | _, _ => ps
  end.

(** <<for (let i = 0; i < start.points.length; i++) { ... }>> *)
Definition interpolate_points (sps eps : list slot) (fraction : number)
    (ps : list slot) : list slot :=
  foldl (fun ps i => interpolate_point sps eps fraction i ps)
        ps (seq 0 (length sps)).

(** The callback of [this.args.forEach] in the arc's [interpolate], as the
    value it stores at index [i]. *)
Definition interpolate_arg (sa ea : list number) (fraction : number)
    (i : nat) : number :=
  if bool_decide (i = 5) || bool_decide (i = 6)
  then (if strict_eq fraction 0%float then args_get i sa else args_get i ea)
  else lerp (args_get i sa) (args_get i ea) fraction.

(** <<this.args.forEach((_, i) => { this.args[i] = ... })>>: every index of
    [this.args] is visited once, in order, and written in place. *)
Fixpoint interpolate_args_from (sa ea : list number) (fraction : number)
    (i : nat) (a : list number) : list number :=
  match a with
  | [] => []
  | _ :: a' =>
      interpolate_arg sa ea fraction i
        :: interpolate_args_from sa ea fraction (S i) a'
  end.

(** The inherited method tests morphability first.  The arc's override has
    no test: reading [args[i]] on a [start] or [end] that has no [args]
    throws in the first round, before anything is written. *)
Definition DrawCommand_interpolate (this start end_ : DrawCommand)
    (fraction : number) : outcome bool DrawCommand :=
  match this with
  | PointsCmd k ps =>
      if negb (DrawCommand_isMorphableWith this start)
         || negb (DrawCommand_isMorphableWith this end_)
      then Returns false this
      else Returns true
             (PointsCmd k
                (interpolate_points (points start) (points end_) fraction ps))
  | ArcCmd ps [] => Returns true this
  | ArcCmd ps a =>
      match args start, args end_ with
      | Some sa, Some ea =>
          Returns true (ArcCmd ps (interpolate_args_from sa ea fraction 0 a))
      | _, _ => Throws this
      end
  end.

(** *** transform

    [MathUtil.transform] and [SvgUtil.transformArc] live in modules that
    are not part of this file; they are parameters here. *)

Record ArcParams : Type := mkArcParams {
  rx : number; ry : number; xAxisRotation : number;
  largeArcFlag : number; sweepFlag : number;
  endX : number; endY : number
}.

Section Transform.
Variable Matrix : Type.
Variable MathUtil_transform : Point -> list Matrix -> Point.
Variable SvgUtil_transformArc : ArcParams -> list Matrix -> ArcParams.

(** <<if (this.points[i]) this.points[i] = MathUtil.transform(...)>> for
    every index of the array. *)
Definition transform_points (transforms : list Matrix) (ps : list slot)
  : list slot :=
  map (fun s => match s with
                | Some p => Some (MathUtil_transform p transforms)
                | None => None
                end) ps.

Definition transform_args (transforms : list Matrix) (a : list number)
  : list number :=
  let start :=
    MathUtil_transform (mkPoint (args_get 0 a) (args_get 1 a)) transforms in
  let a := args_set 0 (x start) a in
  let a := args_set 1 (y start) a in
  let arc :=
    SvgUtil_transformArc
      (mkArcParams (args_get 2 a) (args_get 3 a) (args_get 4 a)
                   (args_get 5 a) (args_get 6 a)
                   (args_get 7 a) (args_get 8 a))
      transforms in
  let a := args_set 2 (rx arc) a in
  let a := args_set 3 (ry arc) a in
  let a := args_set 4 (xAxisRotation arc) a in
  let a := args_set 5 (largeArcFlag arc) a in
  let a := args_set 6 (sweepFlag arc) a in
  let a := args_set 7 (endX arc) a in
  args_set 8 (endY arc) a.

Definition DrawCommand_transform (transforms : list Matrix)
    (this : DrawCommand) : DrawCommand :=
  match this with
  | PointsCmd k ps => PointsCmd k (transform_points transforms ps)
  | ArcCmd ps a => ArcCmd ps (transform_args transforms a)
  end.
End Transform.

(** *** reverse *)

(** The arc's override: swap the end points kept in [args], flip the sweep
    flag. *)
Definition reverse_args (a : list number) : list number :=
  let endX := args_get 0 a in
  let endY := args_get 1 a in
  let a := args_set 0 (args_get 7 a) a in
  let a := args_set 1 (args_get 8 a) a in
  let a := args_set 6 (if strict_eq (args_get 6 a) 0%float
                       then 1%float else 0%float) a in
  let a := args_set 7 endX a in
  args_set 8 endY a.

(** <<if (this.start) { this.points.reverse(); }>> for the inherited
    method. *)
Definition DrawCommand_reverse (this : DrawCommand) : DrawCommand :=
  match this with
  | PointsCmd k ps =>
      match cmd_start this with
      | Some _ => PointsCmd k (rev ps)
      | None => this
      end
  | ArcCmd ps a => ArcCmd ps (reverse_args a)
  end.

(** ** Sub-paths *)

(** The value of an expression that may read a property of [undefined]. *)
Inductive result (A : Type) : Type :=
| Value (a : A)
| TypeError.
Arguments Value {A} a.
Arguments TypeError {A}.

Record SubPathCommand : Type := mkSubPath { commands : list DrawCommand }.

(** <<a.length === b.length && a.every((c, i) => p(c, b[i]))>>: the
    elements are compared position by position.  The last case is never
    reached behind the length test. *)
Fixpoint every2 {A B : Type} (p : A -> B -> bool) (l : list A) (m : list B)
  : bool :=
  match l, m with
  | [], _ => true
  | c :: l', d :: m' => p c d && every2 p l' m'
  | _ :: _, [] => false
  end.

Definition SubPath_isMorphableWith (this command : SubPathCommand) : bool :=
  bool_decide (length (commands this) = length (commands command))
  && every2 DrawCommand_isMorphableWith (commands this) (commands command).

(** <<this.commands.forEach((c, i) =>
      this.commands[i].interpolate(start.commands[i], end.commands[i],
                                   fraction));>> *)
Definition SubPath_interpolate (this start end_ : SubPathCommand)
    (fraction : number) : outcome bool SubPathCommand :=
  if negb (SubPath_isMorphableWith this start)
     || negb (SubPath_isMorphableWith this end_)
  then Returns false this
  else
    match
      forEach_from
        (fun i c =>
           match commands start !! i, commands end_ !! i with
           | Some s, Some e => DrawCommand_interpolate c s e fraction
           | _, _ => Throws c
           end)
        0 (commands this)
    with
    | Returns _ cs => Returns true (mkSubPath cs)
    | Throws cs => Throws (mkSubPath cs)
    end.

Section SubPathTransform.
Variable Matrix : Type.
Variable MathUtil_transform : Point -> list Matrix -> Point.
Variable SvgUtil_transformArc : ArcParams -> list Matrix -> ArcParams.

Definition SubPath_transform (transforms : list Matrix)
    (this : SubPathCommand) : SubPathCommand :=
  mkSubPath
    (map (DrawCommand_transform Matrix MathUtil_transform
            SvgUtil_transformArc transforms)
         (commands this)).
End SubPathTransform.

(** <<get start() { return this.commands[0].end; }>> *)
Definition SubPath_start (this : SubPathCommand) : result slot :=
  match commands this with
  | [] => TypeError
  | c :: _ => Value (cmd_end c)
  end.

(** <<get end() { return this.commands[this.commands.length - 1].end; }>> *)
Definition SubPath_end (this : SubPathCommand) : result slot :=
  match last (commands this) with
  | None => TypeError
  | Some c => Value (cmd_end c)
  end.

(** <<return this.start.x === this.end.x && this.start.y === this.end.y;>> *)
Definition isClosed (this : SubPathCommand) : result bool :=
  match SubPath_start this with
  | Value (Some s) =>
      match SubPath_end this with
      | Value (Some e) => Value (strict_eq (x s) (x e) && strict_eq (y s) (y e))
      | _ => TypeError
      end
  | _ => TypeError
  end.

(** <<for (let i = cmds.length - 1; i >= 1; i--) {
      cmds[i].reverse(); newCmds.push(cmds[i]); }>>
    ([i] is below [cmds.length] throughout). *)
Fixpoint reverse_loop (cmds : list DrawCommand) (i : nat)
    (newCmds : list DrawCommand) : list DrawCommand :=
  match i with
  | 0 => newCmds
  | S i' =>
      match cmds !! i with
      | Some c => reverse_loop cmds i' (newCmds ++ [DrawCommand_reverse c])
      | None => newCmds
      end
  end.

(** The demotion of a leading close-path and the promotion of the last
    command, on the new array. *)
Definition reverse_fix_close (newCmds : list DrawCommand)
  : list DrawCommand :=
  match newCmds !! 1 with
  | Some secondCmd =>
      if bool_decide (ctor secondCmd = ClosePath) then
        let newCmds :=
          <[1 := LineCommand (cmd_start secondCmd) (cmd_end secondCmd)]>
            newCmds in
        match newCmds !! (length newCmds - 1) with
        | Some lastCmd =>
            <[length newCmds - 1 :=
                ClosePathCommand (cmd_start lastCmd) (cmd_end lastCmd)]>
              newCmds
        | None => newCmds
        end
      else newCmds
  | None => newCmds
  end.

Definition SubPath_reverse (this : SubPathCommand)
  : outcome unit SubPathCommand :=
  match commands this with
  | [] => Throws this
  | [firstMoveCommand] =>
      Returns tt (mkSubPath [DrawCommand_reverse firstMoveCommand])
  | firstMoveCommand :: _ =>
      let cmds := commands this in
      match last cmds with
      | Some l =>
          let newCmds :=
            reverse_loop cmds (length cmds - 1)
              [MoveCommand (cmd_start firstMoveCommand) (cmd_end l)] in
          Returns tt (mkSubPath (reverse_fix_close newCmds))
      | None => Throws this
      end
  end.

(** <<cmds.unshift(cmds.pop());>> *)
Definition rotate_last_to_front {A : Type} (cmds : list A) : list A :=
  match last cmds with
  | Some l => l :: removelast cmds
  | None => cmds
  end.

(** The body of [shiftBack] behind its guard ([cmds] has two commands at
    least there, so every index read below exists). *)
Definition shiftBack_body (cmds : list DrawCommand) : list DrawCommand :=
  match cmds with
  | [] => cmds
  | c0 :: _ =>
      let moveStartPoint := cmd_start c0 in
      let cmds := rotate_last_to_front cmds in
      match cmds !! 0 with
      | None => cmds
      | Some front =>
          let cmds :=
            if bool_decide (ctor front = ClosePath) then
              match cmds !! (length cmds - 1) with
              | Some lastCmd =>
                  let cmds :=
                    <[length cmds - 1 :=
                        ClosePathCommand (cmd_start lastCmd)
                          (cmd_end lastCmd)]> cmds in
                  <[1 := LineCommand (cmd_start front) (cmd_end front)]> cmds
              | None => cmds
              end
            else <[1 := front]> cmds in
          match cmds !! 1 with
          | Some second =>
              <[0 := MoveCommand moveStartPoint (cmd_start second)]> cmds
          | None => cmds
          end
      end
  end.

(** <<if (this.commands.length === 1 || !this.isClosed()) { return; }>>
    then the body.  [isClosed] throws on an empty sub-path and on one whose
    first or last command has no end point. *)
Definition shiftBack (this : SubPathCommand) : outcome unit SubPathCommand :=
  if bool_decide (length (commands this) = 1) then Returns tt this
  else
    match isClosed this with
    | TypeError => Throws this
    | Value false => Returns tt this
    | Value true => Returns tt (mkSubPath (shiftBack_body (commands this)))
    end.

(** [n] calls of [shiftBack] in a row. *)
Fixpoint shiftBack_times (n : nat) (this : SubPathCommand)
  : outcome unit SubPathCommand :=
  match n with
  | 0 => Returns tt this
  | S n' =>
      match shiftBack this with
      | Returns _ s => shiftBack_times n' s
      | Throws s => Throws s
      end
  end.

(** <<for (let i = 0; i < this.commands.length - 2; i++) this.shiftBack();>>
    behind the same guard.  [shiftBack] keeps the number of commands
    ([shiftBack_length] below), so the bound is the one at loop entry. *)
Definition shiftForward (this : SubPathCommand)
  : outcome unit SubPathCommand :=
  if bool_decide (length (commands this) = 1) then Returns tt this
  else
    match isClosed this with
    | TypeError => Throws this
    | Value false => Returns tt this
    | Value true => shiftBack_times (length (commands this) - 2) this
    end.

(** ** Paths *)

Record PathCommand : Type := mkPath { subpaths : list SubPathCommand }.

Definition Path_isMorphableWith (this command : PathCommand) : bool :=
  bool_decide (length (subpaths this) = length (subpaths command))
  && every2 SubPath_isMorphableWith (subpaths this) (subpaths command).

Definition Path_interpolate (this start end_ : PathCommand)
    (fraction : number) : outcome bool PathCommand :=
  if negb (Path_isMorphableWith this start)
     || negb (Path_isMorphableWith this end_)
  then Returns false this
  else
    match
      forEach_from
        (fun i c =>
           match subpaths start !! i, subpaths end_ !! i with
           | Some s, Some e => SubPath_interpolate c s e fraction
           | _, _ => Throws c
           end)
        0 (subpaths this)
    with
    | Returns _ cs => Returns true (mkPath cs)
    | Throws cs => Throws (mkPath cs)
    end.

(** ** Commands in a store

    Here the commands are objects in a store and [this], [start] and [end]
    are references, which may be the same object.  Every round of the two
    loops of [interpolate] reads the store as the rounds before it left
    it. *)

Definition loc : Type := positive.

Definition store_points (h : gmap loc DrawCommand) (l : loc) : list slot :=
  match h !! l with
  | Some c => points c
  | None => []
  end.

Definition store_args (h : gmap loc DrawCommand) (l : loc)
  : option (list number) :=
  match h !! l with
  | Some c => args c
  | None => None
  end.

(** <<this.points[i] = v>> and <<this.args[i] = v>> on the object. *)
Definition write_point (i : nat) (v : slot) (c : DrawCommand) : DrawCommand :=
  match c with
  | PointsCmd k ps => PointsCmd k (points_set i v ps)
  | ArcCmd ps a => ArcCmd (points_set i v ps) a
  end.

Definition write_arg (i : nat) (v : number) (c : DrawCommand) : DrawCommand :=
  match c with
  | PointsCmd k ps => c
  | ArcCmd ps a => ArcCmd ps (args_set i v a)
  end.

(** One round of the loop of the inherited [interpolate]. *)
Definition store_interpolate_round (this start end_ : loc) (fraction : number)
    (h : gmap loc DrawCommand) (i : nat) : gmap loc DrawCommand :=
  match points_get i (store_points h start),
        points_get i (store_points h end_) with
  | Some startPoint, Some endPoint =>
      alter
        (write_point i
           (Some (mkPoint (lerp (x startPoint) (x endPoint) fraction)
                          (lerp (y startPoint) (y endPoint) fraction))))
        this h
  | _, _ => h
  end.

(** One call of the callback of the arc's [interpolate]. *)
Definition store_arc_round (this start end_ : loc) (fraction : number)
    (h : gmap loc DrawCommand) (i : nat) : result (gmap loc DrawCommand) :=
  if bool_decide (i = 5) || bool_decide (i = 6) then
    match store_args h (if strict_eq fraction 0%float then start else end_)
    with
    | Some xs => Value (alter (write_arg i (args_get i xs)) this h)
    | None => TypeError
    end
  else
    match store_args h start, store_args h end_ with
    | Some sa, Some ea =>
        Value (alter
                 (write_arg i (lerp (args_get i sa) (args_get i ea) fraction))
                 this h)
    | _, _ => TypeError
    end.

Fixpoint store_forEach
    (round : gmap loc DrawCommand -> nat -> result (gmap loc DrawCommand))
    (idx : list nat) (h : gmap loc DrawCommand)
  : outcome unit (gmap loc DrawCommand) :=
  match idx with
  | [] => Returns tt h
  | i :: idx' =>
      match round h i with
      | Value h' => store_forEach round idx' h'
      | TypeError => Throws h
      end
  end.

(** [this.interpolate(start, end, fraction)] on references; [None] when
    one of them is not in the store. *)
Definition store_interpolate (h : gmap loc DrawCommand)
    (this start end_ : loc) (fraction : number)
  : option (outcome bool (gmap loc DrawCommand)) :=
  match h !! this, h !! start, h !! end_ with
  | Some t, Some s, Some e =>
      Some
        match t with
        | PointsCmd _ _ =>
            if negb (DrawCommand_isMorphableWith t s)
               || negb (DrawCommand_isMorphableWith t e)
            then Returns false h
            else Returns true
                   (foldl (store_interpolate_round this start end_ fraction)
                      h (seq 0 (length (points s))))
        | ArcCmd _ a =>
            match
              store_forEach (store_arc_round this start end_ fraction)
                (seq 0 (length a)) h
            with
            | Returns _ h' => Returns true h'
            | Throws h' => Throws h'
            end
        end
  | _, _, _ => None
  end.

(** ** Transforming a whole path *)

Section PathTransform.
Variable Matrix : Type.
Variable MathUtil_transform : Point -> list Matrix -> Point.
Variable SvgUtil_transformArc : ArcParams -> list Matrix -> ArcParams.

(** <<this.commands_.forEach(c => c.transform(transforms));>> *)
Definition Path_transform (transforms : list Matrix) (this : PathCommand)
  : PathCommand :=
  mkPath
    (map (SubPath_transform Matrix MathUtil_transform SvgUtil_transformArc
            transforms)
         (subpaths this)).
End PathTransform.

(** ** Rendering

    The canvas context is known by the calls it receives.
    [SvgUtil.executeArc] is not part of this file: what it does to the
    context with the arguments of an arc is kept as one opaque call. *)

Inductive CanvasCall : Type :=
| beginPath
| moveTo (px py : number)
| lineTo (px py : number)
| quadraticCurveTo (cpx cpy px py : number)
| bezierCurveTo (cp1x cp1y cp2x cp2y px py : number)
| closePath
| executeArc (a : list number).

(** [execute] of one command: the arguments of the call are read first,
    and reading [.x] on a missing point throws before anything is
    drawn. *)
Definition DrawCommand_execute (this : DrawCommand)
  : result (list CanvasCall) :=
  match this with
  | PointsCmd CMove ps =>
      match cmd_end this with
      | Some e => Value [moveTo (x e) (y e)]
      | None => TypeError
      end
  | PointsCmd CLine ps =>
      match cmd_end this with
      | Some e => Value [lineTo (x e) (y e)]
      | None => TypeError
      end
  | PointsCmd CQuadraticCurve ps =>
      match points_get 1 ps, points_get 2 ps with
      | Some c, Some e => Value [quadraticCurveTo (x c) (y c) (x e) (y e)]
      | _, _ => TypeError
      end
  | PointsCmd CBezierCurve ps =>
      match points_get 1 ps, points_get 2 ps, points_get 3 ps with
      | Some c1, Some c2, Some e =>
          Value [bezierCurveTo (x c1) (y c1) (x c2) (y c2) (x e) (y e)]
      | _, _, _ => TypeError
      end
  | PointsCmd CClosePath ps => Value [closePath]
  | ArcCmd ps a => Value [executeArc a]
  end.

(** <<this.commands.forEach(c => c.execute(ctx));>>: the state is the
    list of the calls made so far. *)
Fixpoint execute_commands (cmds : list DrawCommand)
  : outcome unit (list CanvasCall) :=
  match cmds with
  | [] => Returns tt []
  | c :: cmds' =>
      match DrawCommand_execute c with
      | TypeError => Throws []
      | Value calls =>
          match execute_commands cmds' with
          | Returns _ t => Returns tt (calls ++ t)
          | Throws t => Throws (calls ++ t)
          end
      end
  end.

Definition SubPath_execute (this : SubPathCommand)
  : outcome unit (list CanvasCall) :=
  execute_commands (commands this).

Fixpoint execute_subpaths (sps : list SubPathCommand)
  : outcome unit (list CanvasCall) :=
  match sps with
  | [] => Returns tt []
  | sp :: sps' =>
      match SubPath_execute sp with
      | Throws t => Throws t
      | Returns _ t =>
          match execute_subpaths sps' with
          | Returns _ t' => Returns tt (t ++ t')
          | Throws t' => Throws (t ++ t')
          end
      end
  end.

(** <<ctx.beginPath(); this.commands_.forEach(c => c.execute(ctx));>> *)
Definition Path_execute (this : PathCommand)
  : outcome unit (list CanvasCall) :=
  match execute_subpaths (subpaths this) with
  | Returns _ t => Returns tt (beginPath :: t)
  | Throws t => Throws (beginPath :: t)
  end.

(** * Colors

    The second module of the file reads and writes Android colors
    ([#rgb], [#argb], [#rrggbb], [#aarrggbb]).  A string is the sequence
    of its UTF-16 code units; a number is a binary64 float, as before. *)

Definition code_unit : Type := N.
Definition jsstring : Type := list code_unit.

(** A string literal of the source (ASCII). *)
Definition js (s : string) : jsstring :=
  map N_of_ascii (String.list_ascii_of_string s).

(** ** What the language provides

    The code units of WhiteSpace and LineTerminator: what [\s] matches
    in a regular expression and what [parseInt] skips. *)
Definition white_space : list code_unit :=
  [0x9; 0xA; 0xB; 0xC; 0xD; 0x20; 0xA0; 0x1680;
   0x2000; 0x2001; 0x2002; 0x2003; 0x2004; 0x2005; 0x2006; 0x2007;
   0x2008; 0x2009; 0x200A; 0x2028; 0x2029; 0x202F; 0x205F; 0x3000;
   0xFEFF]%N.

Definition is_white_space (c : code_unit) : bool :=
  bool_decide (c ∈ white_space).

Fixpoint skip_white_space (s : jsstring) : jsstring :=
  match s with
  | c :: s' => if is_white_space c then skip_white_space s' else s
  | [] => []
  end.

(** The string up to the leftmost index from which only white space
    follows: what is left when the match of [\s*$] is removed. *)
Fixpoint cut_trailing_white_space (s : jsstring) : jsstring :=
  match s with
  | c :: s' =>
      if forallb is_white_space s then []
      else c :: cut_trailing_white_space s'
  | [] => []
  end.

(** <<val.replace(/^\s*#?|\s*$/g, '')>>.  At index 0 the first
    alternative matches, greedily: the white space there, then one [#] if
    there is one.  Behind that match only the second alternative can
    match, at the leftmost index from which white space runs to the end
    (and once more, emptily, at the end). *)
Definition replace_ends (val : jsstring) : jsstring :=
  let rest := skip_white_space val in
  let rest :=
    match rest with
    | c :: rest' => if (c =? 35)%N then rest' else rest
    | [] => []
    end in
  cut_trailing_white_space rest.

(** <<s.substring(i, j)>> for [i <= j]; indices past the end are clamped
    to the length. *)
Definition substring (s : jsstring) (i j : nat) : jsstring :=
  take (j - i) (drop i s).

(** The number nearest to an integer, ties to even. *)
Definition number_of_Z (z : Z) : number :=
  SF2Prim (binary_normalize prec emax z 0 false).

(** The value of a code unit that is a digit in radix 16. *)
Definition hex_digit (c : code_unit) : option Z :=
  if (48 <=? c)%N && (c <=? 57)%N then Some (Z.of_N c - 48)%Z
  else if (97 <=? c)%N && (c <=? 102)%N then Some (Z.of_N c - 87)%Z
  else if (65 <=? c)%N && (c <=? 70)%N then Some (Z.of_N c - 55)%Z
  else None.

(** The values of the longest prefix made of digits. *)
Fixpoint hex_digits (s : jsstring) : list Z :=
  match s with
  | c :: s' =>
      match hex_digit c with
      | Some d => d :: hex_digits s'
      | None => []
      end
  | [] => []
  end.

(** <<parseInt(s, 16)>>: leading white space is skipped, one sign is
    read, one [0x] or [0X] is dropped, and the digits up to the first code
    unit that is not one are the integer; without a digit the result is
    [NaN], and a zero keeps the sign. *)
Definition parseInt16 (s : jsstring) : number :=
  let s := skip_white_space s in
  let negative :=
    match s with
    | c :: _ => (c =? 45)%N
    | [] => false
    end in
  let s :=
    match s with
    | c :: s' => if (c =? 43)%N || (c =? 45)%N then s' else s
    | [] => []
    end in
  let s :=
    match s with
    | c :: d :: s' =>
        if (c =? 48)%N && ((d =? 120)%N || (d =? 88)%N) then s' else s
    | _ => s
    end in
  match hex_digits s with
  | [] => nan
  | ds =>
      let mathInt := foldl (fun n d => (16 * n + d)%Z) 0%Z ds in
      if (mathInt =? 0)%Z then (if negative then (-0)%float else 0%float)
      else number_of_Z (if negative then (- mathInt)%Z else mathInt)
  end.

Definition isNaN (v : number) : bool := negb (PrimFloat.eqb v v).

Arguments number_of_Z : simpl never.
Arguments parseInt16 : simpl never.

(** ** parseAndroidColor *)

Module RGBA.
Record t : Type := mk { a : number; r : number; g : number; b : number }.
End RGBA.

(** The four branches on [val.length] fill [dict]; any other length
    returns [undefined], and so does a component that is [NaN]. *)
Definition parseAndroidColor (val : jsstring) : option RGBA.t :=
  let val := replace_ends val in
  let one i := (parseInt16 (substring val i (i + 1)) * 17)%float in
  let two i := parseInt16 (substring val i (i + 2)) in
  let dict :=
    if bool_decide (length val = 3)
    then Some (RGBA.mk 255 (one 0) (one 1) (one 2))
    else if bool_decide (length val = 4)
    then Some (RGBA.mk (one 0) (one 1) (one 2) (one 3))
    else if bool_decide (length val = 6)
    then Some (RGBA.mk 255 (two 0) (two 2) (two 4))
    else if bool_decide (length val = 8)
    then Some (RGBA.mk (two 0) (two 2) (two 4) (two 6))
    else None in
  match dict with
  | Some dict =>
      if isNaN (RGBA.r dict) || isNaN (RGBA.g dict) || isNaN (RGBA.b dict)
         || isNaN (RGBA.a dict)
      then None else Some dict
  | None => None
  end.

(** ** toAndroidString, svgToAndroidColor, androidToCssColor

    [toString(16)], the conversion of a number to a string in a template,
    [toFixed(2)] and the [tinycolor] library are not part of this file;
    they are parameters here ([tinycolor_toHex8 color] stands for
    [tinycolor(color).toHex8()]). *)

Section Formatting.
Variable Number_toString16 : number -> jsstring.
Variable Number_toString : number -> jsstring.
Variable Number_toFixed2 : number -> jsstring.
Variable tinycolor_toHex8 : jsstring -> jsstring.
Variable tinycolor_toHex : jsstring -> jsstring.

(** <<((v < 16) ? '0' : '') + v.toString(16)>> *)
Definition two_digits (v : number) : jsstring :=
  (if (v <? 16)%float then js "0" else js "") ++ Number_toString16 v.

Definition toAndroidString (dict : RGBA.t) : jsstring :=
  let str := js "#" in
  let str :=
    if negb (RGBA.a dict =? 255)%float
    then str ++ two_digits (RGBA.a dict)
    else str in
  str ++ (two_digits (RGBA.r dict) ++ two_digits (RGBA.g dict)
          ++ two_digits (RGBA.b dict)).

(** <<'#' + colorInstance.toHex8().substr(6) + colorInstance.toHex()>> *)
Definition svgToAndroidColor (color : jsstring) : option jsstring :=
  if bool_decide (color = js "none") then None
  else Some (js "#" ++ drop 6 (tinycolor_toHex8 color)
             ++ tinycolor_toHex color).

(** [androidColor] may be [undefined], and [multAlpha] left out (it is
    then 1).  Reading [d.r] on an [undefined] [d] throws. *)
Definition androidToCssColor (androidColor : option jsstring)
    (multAlpha : option number) : result jsstring :=
  let multAlpha := default 1%float multAlpha in
  match androidColor with
  | None | Some [] => Value (js "transparent")
  | Some androidColor =>
      match parseAndroidColor androidColor with
      | None => TypeError
      | Some d =>
          Value (js "rgba(" ++ Number_toString (RGBA.r d) ++ js ","
                 ++ Number_toString (RGBA.g d) ++ js ","
                 ++ Number_toString (RGBA.b d) ++ js ","
                 ++ Number_toFixed2 (RGBA.a d * multAlpha / 255)%float
                 ++ js ")")
      end
  end.
End Formatting.

(** * Vocabulary of the statements *)

(** What [isMorphableWith] looks at, and the length of [args]. *)
Definition same_shape (c c' : DrawCommand) : Prop :=
  ctor c' = ctor c
  /\ svgChar c' = svgChar c
  /\ length (points c') = length (points c)
  /\ (length <$> args c') = (length <$> args c).

(** An arc carries its nine arguments (or more). *)
Definition arc_has_args (c : DrawCommand) : Prop :=
  forall a, args c = Some a -> 9 <= length a.

(** The square of the scenario: a move to [(0, 0)], two lines and a
    close-path back to [(0, 0)]. *)
Definition square : SubPathCommand :=
  mkSubPath
    [MoveCommand None (Some (mkPoint 0 0));
     LineCommand (Some (mkPoint 0 0)) (Some (mkPoint 10 0));
     LineCommand (Some (mkPoint 10 0)) (Some (mkPoint 10 10));
     ClosePathCommand (Some (mkPoint 10 10)) (Some (mkPoint 0 0))].

(** A point none of whose coordinates is NaN: it is [===] to itself. *)
Definition point_self_eq (p : Point) : bool :=
  strict_eq (x p) (x p) && strict_eq (y p) (y p).

(** The start and the end a command exposes. *)
Definition segment : Type := (slot * slot)%type.
Definition seg (c : DrawCommand) : segment := (cmd_start c, cmd_end c).

(** [b] starts at the very point where [a] ends. *)
Definition joined (a b : segment) : Prop :=
  exists p, a.2 = Some p /\ b.1 = Some p /\ point_self_eq p = true.

Fixpoint chain {X : Type} (R : X -> X -> Prop) (l : list X) : Prop :=
  match l with
  | a :: t => match t with
              | b :: _ => R a b /\ chain R t
              | [] => True
              end
  | [] => True
  end.

(** A chain whose last element is followed by its first. *)
Definition cycle {X : Type} (R : X -> X -> Prop) (l : list X) : Prop :=
  match l with
  | [] => True
  | h :: _ => chain R (l ++ [h])
  end.

(** Items [xs] drawn as commands by [render], each with the segment
    [seg_of] gives it: the start of the first item, the sub-path whose move
    leads from [s] to that start, and the items forming a closed loop. *)
Definition first_start {X : Type} (seg_of : X -> segment) (xs : list X)
  : slot :=
  match xs with
  | h :: _ => (seg_of h).1
  | [] => None
  end.

Definition seam {X : Type} (render : list X -> list DrawCommand)
    (seg_of : X -> segment) (s : slot) (xs : list X) : SubPathCommand :=
  mkSubPath (MoveCommand s (first_start seg_of xs) :: render xs).

Definition looped {X : Type} (seg_of : X -> segment) (xs : list X) : Prop :=
  cycle (fun a b => joined (seg_of a) (seg_of b)) xs.

Definition side (p : segment) : DrawCommand := LineCommand p.1 p.2.
Definition closing (p : segment) : DrawCommand := ClosePathCommand p.1 p.2.

(** Lines along all the sides but the last, then a close-path along the
    last side. *)
Definition polygon (ps : list segment) : list DrawCommand :=
  match last ps with
  | Some z => map side (removelast ps) ++ [closing z]
  | None => []
  end.

(** A closed loop with a curve: a move, a cubic curve and a close-path. *)
Definition curved_loop : SubPathCommand :=
  mkSubPath
    [MoveCommand None (Some (mkPoint 0 0));
     BezierCurveCommand (Some (mkPoint 0 0)) (Some (mkPoint 1 2))
                        (Some (mkPoint 3 4)) (Some (mkPoint 10 0));
     ClosePathCommand (Some (mkPoint 10 0)) (Some (mkPoint 0 0))].

(** The last command of a list becomes a close-path with its start and
    end. *)
Definition promote_last (t : list DrawCommand) : list DrawCommand :=
  match last t with
  | Some k => removelast t ++ [ClosePathCommand (cmd_start k) (cmd_end k)]
  | None => t
  end.

(** What [reverse] does to the reversed commands behind the new move. *)
Definition demote_promote (t : list DrawCommand) : list DrawCommand :=
  match t with
  | c :: t' =>
      if bool_decide (ctor c = ClosePath)
      then promote_last (LineCommand (cmd_start c) (cmd_end c) :: t')
      else t
  | [] => []
  end.

(** The size of the point array that the constructor of a class builds. *)
Definition arity (k : PointsClass) : nat :=
  match k with
  | CMove | CLine | CClosePath => 2
  | CQuadraticCurve => 3
  | CBezierCurve => 4
  end.

(** A command of one of the five point classes, as its constructor built
    it, with a start and an end point. *)
Definition two_ended (c : DrawCommand) : Prop :=
  exists k ps, c = PointsCmd k ps /\ length ps = arity k
               /\ is_Some (cmd_start c) /\ is_Some (cmd_end c).

(** Where a close-path may stand for [reverse] to be undone by a second
    [reverse]: with two commands or more behind the move, either neither
    the first nor the last of them is a close-path, or the last is a
    close-path and the first is a line. *)
Definition close_at_ends_ok (h : DrawCommand) (t : list DrawCommand) : Prop :=
  match last t with
  | None => True
  | Some l =>
      (ctor l <> ClosePath /\ ctor h <> ClosePath)
      \/ (ctor l = ClosePath /\ ctor h = Line)
  end.

(** What the morphability tests read of a command, of a sub-path and of
    a path: classes and numbers of points, position by position. *)
Definition cmd_skeleton (c : DrawCommand) : Variant * nat :=
  (ctor c, length (points c)).
Definition subpath_skeleton (sp : SubPathCommand) : list (Variant * nat) :=
  map cmd_skeleton (commands sp).
Definition path_skeleton (p : PathCommand) : list (list (Variant * nat)) :=
  map subpath_skeleton (subpaths p).

(** No elliptical arc among the commands. *)
Definition arc_free (sp : SubPathCommand) : Prop :=
  Forall (fun c => ctor c <> EllipticalArc) (commands sp).
Definition path_arc_free (p : PathCommand) : Prop :=
  Forall arc_free (subpaths p).

(** What [interpolate] leaves at index [i] of a point array that held
    [old] there, from the slots of [start] and of [end]. *)
Definition interpolated_slot (s e old : slot) (fraction : number) : slot :=
  match s, e with
  | Some sp, Some ep =>
      Some (mkPoint (lerp (x sp) (x ep) fraction)
                    (lerp (y sp) (y ep) fraction))
  | _, _ => old
  end.

(** A point-list command as its constructor built it, with every point
    but perhaps the start. *)
Definition drawable (c : DrawCommand) : Prop :=
  exists k s ps,
    c = PointsCmd k (s :: ps) /\ length (s :: ps) = arity k
    /\ Forall is_Some ps.

(** The one call a command makes when it has the points it reads. *)
Definition call_of (c : DrawCommand) : list CanvasCall :=
  match c with
  | PointsCmd CMove [_; Some e] => [moveTo (x e) (y e)]
  | PointsCmd CLine [_; Some e] => [lineTo (x e) (y e)]
  | PointsCmd CQuadraticCurve [_; Some c; Some e] =>
      [quadraticCurveTo (x c) (y c) (x e) (y e)]
  | PointsCmd CBezierCurve [_; Some c1; Some c2; Some e] =>
      [bezierCurveTo (x c1) (y c1) (x c2) (y c2) (x e) (y e)]
  | PointsCmd CClosePath _ => [closePath]
  | ArcCmd _ a => [executeArc a]
  | _ => []
  end.

(** The test of [isClosed] on two points that may be missing: reading a
    coordinate of a missing point throws. *)
Definition ends_meet (s e : slot) : result bool :=
  match s with
  | Some s =>
      match e with
      | Some e => Value (strict_eq (x s) (x e) && strict_eq (y s) (y e))
      | None => TypeError
      end
  | None => TypeError
  end.

(** A side run the other way. *)
Definition backwards (p : segment) : segment := (p.2, p.1).

(** The code units that are digits in radix 16. *)
Definition hex_units : list code_unit :=
  [48; 49; 50; 51; 52; 53; 54; 55; 56; 57;
   97; 98; 99; 100; 101; 102; 65; 66; 67; 68; 69; 70]%N.

(** The color a run of digit values stands for, as alpha, red, green and
    blue: one digit for each component counts twice ([f] is [ff]), and
    the alpha left out is 255. *)
Definition digits_color (vs : list Z) : option (Z * Z * Z * Z) :=
  match vs with
  | [r; g; b] => Some (255, 17 * r, 17 * g, 17 * b)%Z
  | [a; r; g; b] => Some (17 * a, 17 * r, 17 * g, 17 * b)%Z
  | [r1; r2; g1; g2; b1; b2] =>
      Some (255, 16 * r1 + r2, 16 * g1 + g2, 16 * b1 + b2)%Z
  | [a1; a2; r1; r2; g1; g2; b1; b2] =>
      Some (16 * a1 + a2, 16 * r1 + r2, 16 * g1 + g2, 16 * b1 + b2)%Z
  | _ => None
  end.

(** The color with integer components alpha, red, green and blue. *)
Definition RGBA_of_Z (c : Z * Z * Z * Z) : RGBA.t :=
  let '(a, r, g, b) := c in
  RGBA.mk (number_of_Z a) (number_of_Z r) (number_of_Z g) (number_of_Z b).

(** The digit of a value below sixteen, in lower case. *)
Definition hex_unit (d : Z) : code_unit :=
  Z.to_N (if (d <? 10)%Z then 48 + d else 87 + d)%Z.

(** What [toString(16)] returns on an integer from 0 to 255: its one or
    two digits, in lower case, without a leading zero. *)
Definition byte_numeral (n : Z) : jsstring :=
  if (n <? 16)%Z then [hex_unit n]
  else [hex_unit (n / 16); hex_unit (n mod 16)].

Definition bytes : list Z := map Z.of_nat (seq 0 256).

(** The integer part of a positive number, and 0 for any other number. *)
Definition Z_of_number (v : number) : Z :=
  match Prim2SF v with
  | S754_finite false m e => Z.shiftl (Z.pos m) e
  | _ => 0%Z
  end.

(** A [toString(16)] that is right on the integers from 0 to 255. *)
Definition toString16_integer (v : number) : jsstring :=
  byte_numeral (Z_of_number v).

(** What is computed once for each digit, and once for each integer from
    0 to 255. *)
Definition digit_check (c : code_unit) : bool :=
  let v := default 0%Z (hex_digit c) in
  negb (is_white_space c) && negb (c =? 35)%N
  && Leibniz.eqb (parseInt16 [c] * 17)%float (number_of_Z (17 * v))
  && forallb
       (fun d =>
          let w := default 0%Z (hex_digit d) in
          Leibniz.eqb (parseInt16 [c; d]) (number_of_Z (16 * v + w))
          && negb (isNaN (number_of_Z (16 * v + w))))
       hex_units.

Definition byte_check (n : Z) : bool :=
  Bool.eqb (number_of_Z n <? 16)%float (n <? 16)%Z
  && Bool.eqb (number_of_Z n =? 255)%float (n =? 255)%Z
  && ((16 <=? n)%Z || bool_decide (hex_digit (hex_unit n) = Some n))
  && bool_decide (toString16_integer (number_of_Z n) = byte_numeral n).

(** * Properties *)

(** ** Arrays *)

Lemma array_set_length_in {A : Type} (u : A) i v (l : list A) :
  i < length l -> length (array_set u i v l) = length l.
Proof.
  intros Hi. unfold array_set.
  destruct (decide (i < length l)); [apply length_insert | lia].
Qed.

Lemma array_set_length_out {A : Type} (u : A) i v (l : list A) :
  length l <= i -> length (array_set u i v l) = S i.
Proof.
  intros Hi. unfold array_set.
  destruct (decide (i < length l)); [lia |].
  rewrite !length_app, length_replicate. simpl. lia.
Qed.

Lemma array_get_lookup {A : Type} (u : A) i (l : list A) v :
  l !! i = Some v -> array_get u i l = v.
Proof.
  intros H. unfold array_get. by apply nth_lookup_Some with (d := u) in H.
Qed.

(** ** Morphability of draw commands *)

Lemma isMorphableWith_points_spec k ps command :
  DrawCommand_isMorphableWith (PointsCmd k ps) command = true <->
  ctor (PointsCmd k ps) = ctor command /\ length ps = length (points command).
Proof.
  unfold DrawCommand_isMorphableWith, DrawCommand_isMorphableWith_base.
  rewrite andb_true_iff, !bool_decide_eq_true. reflexivity.
Qed.

(** C1, at a failing input.  The override of the arc returns [true]
    without the class test of the inherited method: an arc receiver
    answers [true] to every command, so to a line, while the line answers
    [false] to the arc; and the arc's [interpolate] between lines then
    throws. *)
Theorem arc_isMorphableWith_skips_class_test :
  let arc := EllipticalArcCommand [0; 0; 1; 1; 0; 0; 0; 5; 5]%float in
  let line := LineCommand (Some (mkPoint 0 0)) (Some (mkPoint 5 5)) in
  (forall ps a command,
      DrawCommand_isMorphableWith (ArcCmd ps a) command = true)
  /\ ctor arc <> ctor line
  /\ DrawCommand_isMorphableWith arc line = true
  /\ DrawCommand_isMorphableWith line arc = false
  /\ DrawCommand_interpolate arc line line 0.5%float = Throws arc.
Proof. cbv zeta. repeat split. discriminate. Qed.

(** Where the class test is made.  For a receiver that is not an
    elliptical arc, [isMorphableWith] is false on every command of another
    class and true on every command of the same class with the same
    number of points; for an arc receiver and an arc argument it is true
    whatever the two commands hold. *)
Theorem isMorphableWith_variant (this command : DrawCommand) :
  (ctor this <> EllipticalArc -> ctor this <> ctor command ->
   DrawCommand_isMorphableWith this command = false)
  /\ (ctor this = ctor command ->
      length (points this) = length (points command) ->
      DrawCommand_isMorphableWith this command = true)
  /\ (ctor this = EllipticalArc -> ctor command = EllipticalArc ->
      DrawCommand_isMorphableWith this command = true).
Proof.
  destruct this as [k ps | ps a].
  - split; [| split].
    + intros _ Hne. apply not_true_is_false. intros H.
      apply isMorphableWith_points_spec in H. tauto.
    + intros Hc Hl. apply isMorphableWith_points_spec. auto.
    + intros Hc _. destruct k; discriminate Hc.
  - split; [| split]; [intros H; by destruct H | reflexivity | reflexivity].
Qed.

Lemma isMorphableWith_variant_witness :
  DrawCommand_isMorphableWith
    (LineCommand (Some (mkPoint 0 0)) (Some (mkPoint 1 1)))
    (ClosePathCommand (Some (mkPoint 0 0)) (Some (mkPoint 1 1))) = false
  /\ DrawCommand_isMorphableWith
       (LineCommand (Some (mkPoint 0 0)) (Some (mkPoint 1 1)))
       (LineCommand None (Some (mkPoint 2 3))) = true
  /\ DrawCommand_isMorphableWith
       (EllipticalArcCommand [0; 0; 1; 1; 0; 0; 0; 5; 5]%float)
       (EllipticalArcCommand [1; 1; 2; 2; 0; 1; 1; 7; 7]%float) = true.
Proof.
  split; [| split].
  - refine (proj1 (isMorphableWith_variant _ _) _ _); cbv; discriminate.
  - refine (proj1 (proj2 (isMorphableWith_variant _ _)) _ _); reflexivity.
  - refine (proj2 (proj2 (isMorphableWith_variant _ _)) _ _); reflexivity.
Defined.

(** Behind that answer a sub-path with an arc passes the test against a
    sub-path with a line in its place, and its [interpolate] throws when
    the arc reads [args] on the line. *)
Lemma arc_against_line_throws :
  let move := MoveCommand None (Some (mkPoint 0 0)) in
  let this :=
    mkSubPath [move; EllipticalArcCommand [0; 0; 1; 1; 0; 0; 0; 5; 5]%float] in
  let other :=
    mkSubPath [move; LineCommand (Some (mkPoint 0 0)) (Some (mkPoint 5 5))] in
  SubPath_isMorphableWith this other = true
  /\ SubPath_interpolate this other other 0.5%float = Throws this.
Proof. split; reflexivity. Qed.

(** ** Interpolation of arcs *)

Lemma interpolate_args_from_length sa ea f i a :
  length (interpolate_args_from sa ea f i a) = length a.
Proof.
  revert i. induction a as [| v a IH]; intros i; simpl; [done |].
  by rewrite IH.
Qed.

Lemma interpolate_args_from_lookup sa ea f a : forall i j,
  j < length a ->
  interpolate_args_from sa ea f i a !! j = Some (interpolate_arg sa ea f (i + j)).
Proof.
  induction a as [| v a IH]; intros i j Hj; simpl in *; [lia |].
  destruct j as [| j]; simpl.
  - by rewrite Nat.add_0_r.
  - rewrite IH by lia. do 2 f_equal. lia.
Qed.

(** C2.  An arc interpolated between two arcs gets, at every index [i] of
    its [args], the start's value (when [fraction === 0]) or the end's
    value (for every other fraction) if [i] is 5 or 6, and
    [start.args[i] + (end.args[i] - start.args[i]) * fraction] at every
    other index. *)
Theorem arc_interpolate_args ps a sps sa eps ea (fraction : number)
    (i : nat) (s e : number) :
  i < length a -> sa !! i = Some s -> ea !! i = Some e ->
  exists a',
    DrawCommand_interpolate (ArcCmd ps a) (ArcCmd sps sa) (ArcCmd eps ea)
      fraction = Returns true (ArcCmd ps a')
    /\ length a' = length a
    /\ a' !! i =
       Some (if bool_decide (i = 5 \/ i = 6)
             then (if strict_eq fraction 0%float then s else e)
             else PrimFloat.add s (PrimFloat.mul (PrimFloat.sub e s) fraction)).
Proof.
  intros Hi Hs He.
  exists (interpolate_args_from sa ea fraction 0 a).
  split; [| split].
  - destruct a; [simpl in Hi; lia | reflexivity].
  - apply interpolate_args_from_length.
  - rewrite interpolate_args_from_lookup by done. simpl.
    unfold interpolate_arg, args_get.
    rewrite (array_get_lookup _ _ _ _ Hs), (array_get_lookup _ _ _ _ He).
    f_equal.
    destruct (decide (i = 5)) as [-> | H5]; [done |].
    destruct (decide (i = 6)) as [-> | H6]; [done |].
    rewrite !bool_decide_eq_false_2 by lia. reflexivity.
Qed.

Lemma arc_interpolate_args_witness :
  exists a',
    DrawCommand_interpolate
      (EllipticalArcCommand [0; 0; 0; 0; 0; 0; 0; 0; 0]%float)
      (EllipticalArcCommand [0; 0; 1; 1; 0; 0; 1; 4; 4]%float)
      (EllipticalArcCommand [2; 2; 3; 3; 0; 1; 0; 8; 8]%float)
      0.5%float
    = Returns true
        (ArcCmd [Some (mkPoint 0 0); Some (mkPoint 0 0)] a')
    /\ length a' = 9
    /\ a' !! 5 = Some 1%float.
Proof.
  apply (arc_interpolate_args _ [0; 0; 0; 0; 0; 0; 0; 0; 0]%float
           _ [0; 0; 1; 1; 0; 0; 1; 4; 4]%float
           _ [2; 2; 3; 3; 0; 1; 0; 8; 8]%float 0.5%float 5 0%float 1%float);
    [simpl; lia | reflexivity | reflexivity].
Defined.

(** ** A failed morphability test stops [interpolate] *)

(** At each of the three levels, when one of the two morphability tests
    of the receiver fails, [interpolate] returns [false] (a normal return,
    not a throw) and the receiver is what it was before the call, with
    every point and arg of every command of it. *)
Theorem interpolate_not_morphable :
  (forall (p start end_ : PathCommand) (fraction : number),
      Path_isMorphableWith p start = false
      \/ Path_isMorphableWith p end_ = false ->
      Path_interpolate p start end_ fraction = Returns false p)
  /\ (forall (p start end_ : SubPathCommand) (fraction : number),
         SubPath_isMorphableWith p start = false
         \/ SubPath_isMorphableWith p end_ = false ->
         SubPath_interpolate p start end_ fraction = Returns false p)
  /\ (forall (p start end_ : DrawCommand) (fraction : number),
         DrawCommand_isMorphableWith p start = false
         \/ DrawCommand_isMorphableWith p end_ = false ->
         DrawCommand_interpolate p start end_ fraction = Returns false p).
Proof.
  split; [| split]; intros p start end_ fraction H.
  - unfold Path_interpolate.
    destruct H as [-> | ->]; simpl; [reflexivity |].
    by rewrite orb_true_r.
  - unfold SubPath_interpolate.
    destruct H as [-> | ->]; simpl; [reflexivity |].
    by rewrite orb_true_r.
  - destruct p as [k ps | ps a].
    + unfold DrawCommand_interpolate.
      destruct H as [-> | ->]; simpl; [reflexivity |].
      by rewrite orb_true_r.
    + simpl in H. destruct H; discriminate.
Qed.

(** Two paths with one sub-path each, of two and of three commands. *)
Lemma interpolate_not_morphable_witness :
  let p := mkPath [mkSubPath [MoveCommand None (Some (mkPoint 0 0));
                              LineCommand (Some (mkPoint 0 0))
                                          (Some (mkPoint 1 1))]] in
  let q := mkPath [mkSubPath [MoveCommand None (Some (mkPoint 0 0));
                              LineCommand (Some (mkPoint 0 0))
                                          (Some (mkPoint 1 1));
                              LineCommand (Some (mkPoint 1 1))
                                          (Some (mkPoint 2 0))]] in
  Path_interpolate p q q 0.5%float = Returns false p.
Proof.
  intros p q.
  apply (proj1 interpolate_not_morphable p q q 0.5%float).
  left. reflexivity.
Defined.

(** C3, at a failing input.  A mismatch of classes is reported by a
    throw when the receiver has an arc where [start] and [end] have a
    line: the path passes the two morphability tests, [interpolate]
    rewrites the move and then throws at the arc, which reads [args] on
    the line; the receiver is left with the move already written. *)
Theorem interpolate_mismatch_throws :
  let arc := EllipticalArcCommand [0; 0; 1; 1; 0; 0; 0; 5; 5]%float in
  let line := LineCommand (Some (mkPoint 2 4)) (Some (mkPoint 5 5)) in
  let p := mkPath [mkSubPath [MoveCommand None (Some (mkPoint 0 0)); arc]] in
  let q := mkPath [mkSubPath [MoveCommand None (Some (mkPoint 2 4)); line]] in
  ctor arc <> ctor line
  /\ Path_isMorphableWith p q = true
  /\ Path_interpolate p q q 0.5%float
     = Throws (mkPath [mkSubPath [MoveCommand None (Some (mkPoint 2 4));
                                  arc]])
  /\ SubPath_interpolate (mkSubPath [MoveCommand None (Some (mkPoint 0 0));
                                     arc])
       (mkSubPath [MoveCommand None (Some (mkPoint 2 4)); line])
       (mkSubPath [MoveCommand None (Some (mkPoint 2 4)); line]) 0.5%float
     = Throws (mkSubPath [MoveCommand None (Some (mkPoint 2 4)); arc])
  /\ DrawCommand_interpolate arc line line 0.5%float = Throws arc.
Proof. cbv zeta. repeat split. discriminate. Qed.

(** ** The operations on one command keep its shape *)

Lemma same_shape_refl c : same_shape c c.
Proof. by repeat split. Qed.

Lemma same_shape_points k ps ps' :
  length ps' = length ps -> same_shape (PointsCmd k ps) (PointsCmd k ps').
Proof. intros H. by repeat split. Qed.

Lemma same_shape_args ps a a' :
  length a' = length a -> same_shape (ArcCmd ps a) (ArcCmd ps a').
Proof. intros H. repeat split. simpl. by rewrite H. Qed.

Lemma interpolate_point_length sps eps f i ps :
  i < length ps -> length (interpolate_point sps eps f i ps) = length ps.
Proof.
  intros Hi. unfold interpolate_point.
  destruct (points_get i sps); [| done].
  destruct (points_get i eps); [| done].
  by apply array_set_length_in.
Qed.

Lemma interpolate_rounds_length sps eps f (idx : list nat) : forall ps,
  Forall (fun i => i < length ps) idx ->
  length (foldl (fun ps i => interpolate_point sps eps f i ps) ps idx)
  = length ps.
Proof.
  induction idx as [| i idx IH]; intros ps Hall; simpl; [done |].
  inversion Hall as [| ? ? Hi Hrest]; subst.
  rewrite IH.
  - by apply interpolate_point_length.
  - rewrite interpolate_point_length by done. exact Hrest.
Qed.

Lemma interpolate_points_length sps eps f ps :
  length sps = length ps ->
  length (interpolate_points sps eps f ps) = length ps.
Proof.
  intros Hl. unfold interpolate_points.
  apply interpolate_rounds_length.
  apply Forall_forall. intros i Hi.
  apply list_elem_of_In, in_seq in Hi. lia.
Qed.

Lemma interpolate_same_shape c s e f :
  same_shape c (final_state (DrawCommand_interpolate c s e f)).
Proof.
  destruct c as [k ps | ps a].
  - unfold DrawCommand_interpolate.
    destruct (DrawCommand_isMorphableWith (PointsCmd k ps) s) eqn:Hs;
      [| apply same_shape_refl].
    destruct (DrawCommand_isMorphableWith (PointsCmd k ps) e) eqn:He;
      [| apply same_shape_refl].
    simpl. apply same_shape_points.
    apply isMorphableWith_points_spec in Hs as [_ Hs].
    by apply interpolate_points_length.
  - simpl. destruct a as [| v a]; [apply same_shape_refl |].
    destruct (args s); [| apply same_shape_refl].
    destruct (args e); [| apply same_shape_refl].
    apply same_shape_args.
    apply (interpolate_args_from_length _ _ _ 0 (v :: a)).
Qed.

Lemma transform_points_length {Matrix} (tr : Point -> list Matrix -> Point)
    ms ps :
  length (transform_points Matrix tr ms ps) = length ps.
Proof. unfold transform_points. by rewrite length_map. Qed.

Lemma transform_args_length {Matrix} (tr : Point -> list Matrix -> Point)
    (tra : ArcParams -> list Matrix -> ArcParams) ms a :
  9 <= length a -> length (transform_args Matrix tr tra ms a) = length a.
Proof.
  intros H. unfold transform_args, args_set. cbv zeta.
  repeat (rewrite array_set_length_in;
          [| repeat (rewrite array_set_length_in; [| try lia]); lia]).
  reflexivity.
Qed.

Lemma reverse_args_length a :
  9 <= length a -> length (reverse_args a) = length a.
Proof.
  intros H. unfold reverse_args, args_set. cbv zeta.
  repeat (rewrite array_set_length_in;
          [| repeat (rewrite array_set_length_in; [| try lia]); lia]).
  reflexivity.
Qed.

Lemma transform_same_shape {Matrix} (tr : Point -> list Matrix -> Point)
    (tra : ArcParams -> list Matrix -> ArcParams) ms c :
  arc_has_args c -> same_shape c (DrawCommand_transform Matrix tr tra ms c).
Proof.
  intros Hwf. destruct c as [k ps | ps a]; simpl.
  - apply same_shape_points, transform_points_length.
  - apply same_shape_args, transform_args_length, Hwf. reflexivity.
Qed.

Lemma reverse_same_shape c :
  arc_has_args c -> same_shape c (DrawCommand_reverse c).
Proof.
  intros Hwf. destruct c as [k ps | ps a]; simpl.
  - destruct (cmd_start (PointsCmd k ps)); [| apply same_shape_refl].
    apply same_shape_points, length_rev.
  - apply same_shape_args, reverse_args_length, Hwf. reflexivity.
Qed.

(** With or without its nine arguments, a command keeps its class, its
    [svgChar] and its number of points. *)
Lemma interpolate_keeps_class c s e f :
  let c' := final_state (DrawCommand_interpolate c s e f) in
  ctor c' = ctor c /\ svgChar c' = svgChar c
  /\ length (points c') = length (points c)
  /\ (length <$> args c') = (length <$> args c).
Proof. apply interpolate_same_shape. Qed.

Lemma transform_keeps_class {Matrix} (tr : Point -> list Matrix -> Point)
    (tra : ArcParams -> list Matrix -> ArcParams) ms c :
  let c' := DrawCommand_transform Matrix tr tra ms c in
  ctor c' = ctor c /\ svgChar c' = svgChar c
  /\ length (points c') = length (points c).
Proof.
  destruct c as [k ps | ps a]; simpl; [| done].
  by rewrite transform_points_length.
Qed.

Lemma reverse_keeps_class c :
  let c' := DrawCommand_reverse c in
  ctor c' = ctor c /\ svgChar c' = svgChar c
  /\ length (points c') = length (points c).
Proof.
  destruct c as [k ps | ps a]; simpl; [| done].
  destruct (cmd_start (PointsCmd k ps)); [| done].
  simpl. by rewrite length_rev.
Qed.

Lemma class_and_points_morphable c c' :
  ctor c' = ctor c -> length (points c') = length (points c) ->
  forall d, DrawCommand_isMorphableWith c' d = DrawCommand_isMorphableWith c d
            /\ DrawCommand_isMorphableWith d c' = DrawCommand_isMorphableWith d c.
Proof.
  intros Hc Hl d. split.
  - destruct c as [k ps | ps a], c' as [k' ps' | ps' a'];
      try reflexivity; try (destruct k; discriminate Hc);
      try (destruct k'; discriminate Hc).
    unfold DrawCommand_isMorphableWith, DrawCommand_isMorphableWith_base.
    by rewrite Hc, Hl.
  - destruct d as [k ps | ps a]; [| reflexivity].
    unfold DrawCommand_isMorphableWith, DrawCommand_isMorphableWith_base.
    by rewrite Hc, Hl.
Qed.

(** The length of [args] is not kept on an arc built with fewer than nine
    numbers: [reverse] writes the indices 7 and 8 all the same, and the
    array of three numbers has nine entries afterwards. *)
Lemma short_arc_reverse_extends :
  let arc := EllipticalArcCommand [1; 2; 3]%float in
  (length <$> args arc) = Some 3
  /\ (length <$> args (DrawCommand_reverse arc)) = Some 9
  /\ (length <$> args (DrawCommand_reverse arc)) <> (length <$> args arc).
Proof. cbv zeta. split; [reflexivity |]. split; [reflexivity | discriminate]. Qed.

(** C10 (amended).  [interpolate] (however it completes), [transform] and
    [reverse] leave every command with the class and [svgChar] it had and
    with the number of points it had; so the answer of [isMorphableWith]
    between the command and any other, in either direction, is the same
    after the operation as before.  The length of [args] of an arc is kept
    by [interpolate], and by [transform] and [reverse] when the arc holds
    nine arguments at least. *)
Theorem mutation_keeps_class_and_points {Matrix : Type}
    (MathUtil_transform : Point -> list Matrix -> Point)
    (SvgUtil_transformArc : ArcParams -> list Matrix -> ArcParams)
    (c c' : DrawCommand) :
  (exists start end_ fraction,
      c' = final_state (DrawCommand_interpolate c start end_ fraction))
  \/ (exists transforms,
         c' = DrawCommand_transform Matrix MathUtil_transform
                SvgUtil_transformArc transforms c)
  \/ c' = DrawCommand_reverse c ->
  ctor c' = ctor c
  /\ svgChar c' = svgChar c
  /\ length (points c') = length (points c)
  /\ (forall d,
        DrawCommand_isMorphableWith c' d = DrawCommand_isMorphableWith c d
        /\ DrawCommand_isMorphableWith d c' = DrawCommand_isMorphableWith d c)
  /\ ((exists start end_ fraction,
          c' = final_state (DrawCommand_interpolate c start end_ fraction))
      \/ arc_has_args c ->
      (length <$> args c') = (length <$> args c)).
Proof.
  intros Hop.
  assert (Hk : ctor c' = ctor c /\ svgChar c' = svgChar c
               /\ length (points c') = length (points c)).
  { destruct Hop as [(s & e & f & ->) | [(ms & ->) | ->]].
    - destruct (interpolate_keeps_class c s e f) as (? & ? & ? & _). done.
    - apply transform_keeps_class.
    - apply reverse_keeps_class. }
  destruct Hk as (Hc & Hchar & Hl).
  split; [exact Hc |]. split; [exact Hchar |]. split; [exact Hl |].
  split; [by apply class_and_points_morphable |].
  intros [(s & e & f & ->) | Hwf].
  - apply interpolate_keeps_class.
  - destruct Hop as [(s & e & f & ->) | [(ms & ->) | ->]].
    + apply interpolate_keeps_class.
    + by destruct (transform_same_shape MathUtil_transform
                     SvgUtil_transformArc ms c Hwf) as (_ & _ & _ & ?).
    + by destruct (reverse_same_shape c Hwf) as (_ & _ & _ & ?).
Qed.

Lemma mutation_keeps_class_and_points_witness :
  let arc := EllipticalArcCommand [0; 0; 1; 1; 0; 0; 0; 5; 5]%float in
  (length <$> args (DrawCommand_reverse arc)) = Some 9
  /\ length (points (DrawCommand_reverse arc)) = 2
  /\ svgChar (DrawCommand_reverse arc) = "A"%char.
Proof.
  intros arc.
  destruct (mutation_keeps_class_and_points (Matrix := unit) (fun p _ => p)
              (fun a _ => a) arc (DrawCommand_reverse arc))
    as (_ & Hchar & Hpoints & _ & Hargs).
  - right. right. reflexivity.
  - split; [| split; [exact Hpoints | exact Hchar]].
    apply Hargs. right. intros a Ha. injection Ha as <-. simpl. lia.
Defined.

(** ** The end points an arc exposes *)

(** Right after construction the exposed end points are those of [args]. *)
Lemma arc_constructor_start_end a :
  cmd_start (EllipticalArcCommand a)
  = Some (mkPoint (args_get 0 a) (args_get 1 a))
  /\ cmd_end (EllipticalArcCommand a)
     = Some (mkPoint (args_get 7 a) (args_get 8 a)).
Proof. split; reflexivity. Qed.

(** The arc's own [interpolate], [transform] and [reverse] write [args]
    and never the inherited point array, which [start] and [end] read. *)
Lemma arc_mutation_keeps_points {Matrix : Type}
    (MathUtil_transform : Point -> list Matrix -> Point)
    (SvgUtil_transformArc : ArcParams -> list Matrix -> ArcParams)
    ps a start end_ fraction transforms :
  points (final_state
            (DrawCommand_interpolate (ArcCmd ps a) start end_ fraction)) = ps
  /\ points (DrawCommand_transform Matrix MathUtil_transform
               SvgUtil_transformArc transforms (ArcCmd ps a)) = ps
  /\ points (DrawCommand_reverse (ArcCmd ps a)) = ps.
Proof.
  split; [| split; reflexivity].
  simpl. destruct a; [done |].
  by destruct (args start), (args end_).
Qed.

(** C4, at a failing input.  After [reverse] the arc built from
    [(0, 0, 1, 1, 0, 0, 0, 5, 5)] holds [(5, 5)] at [args[0], args[1]] and
    [(0, 0)] at [args[7], args[8]], and still exposes start [(0, 0)] and
    end [(5, 5)]. *)
Theorem arc_reverse_start_end_stale :
  let arc :=
    DrawCommand_reverse
      (EllipticalArcCommand [0; 0; 1; 1; 0; 0; 0; 5; 5]%float) in
  let a := [5; 5; 1; 1; 0; 0; 1; 0; 0]%float in
  args arc = Some a
  /\ cmd_start arc = Some (mkPoint 0 0)
  /\ cmd_end arc = Some (mkPoint 5 5)
  /\ cmd_start arc <> Some (mkPoint (args_get 0 a) (args_get 1 a))
  /\ cmd_end arc <> Some (mkPoint (args_get 7 a) (args_get 8 a)).
Proof.
  cbv zeta. split; [reflexivity |]. split; [reflexivity |].
  split; [reflexivity |].
  split; intros H; vm_compute in H;
    apply (f_equal (fun s => match s with
                             | Some p => PrimFloat.eqb (x p) 0%float
                             | None => false
                             end)) in H;
    vm_compute in H; discriminate H.
Qed.

(** ** Lists: last element, rotation *)

Lemma last_cons_snoc {A : Type} (c : A) (l : list A) (z : A) :
  last (c :: l ++ [z]) = Some z.
Proof. by rewrite app_comm_cons, last_snoc. Qed.

Lemma removelast_cons_snoc {A : Type} (c : A) (l : list A) (z : A) :
  removelast (c :: l ++ [z]) = c :: l.
Proof. by rewrite app_comm_cons, removelast_last. Qed.

Lemma snoc_cases {A : Type} (l : list A) :
  l = [] \/ exists l' z, l = l' ++ [z].
Proof. induction l as [| z l' _] using rev_ind; [by left | right; eauto]. Qed.

Lemma last_cons_Some {A : Type} (h : A) (t : list A) :
  exists z, last (h :: t) = Some z.
Proof.
  destruct (snoc_cases (h :: t)) as [? | (l & z & ->)]; [done |].
  exists z. apply last_snoc.
Qed.

Lemma insert_last_snoc {A : Type} (l : list A) (z v : A) :
  <[length l := v]> (l ++ [z]) = l ++ [v].
Proof. induction l as [| c l IH]; simpl; [done | by rewrite IH]. Qed.

Lemma lookup_last_snoc {A : Type} (l : list A) (z : A) :
  (l ++ [z]) !! length l = Some z.
Proof. induction l as [| c l IH]; simpl; [done | exact IH]. Qed.

(** ** The scenario of the square *)

(** The sequence the scenario announces is not what [reverse] leaves: its
    second command would run from [(10, 10)] to [(0, 0)]. *)
Lemma square_reverse_not_as_announced :
  SubPath_reverse square <>
  Returns tt
    (mkSubPath
       [MoveCommand None (Some (mkPoint 0 0));
        LineCommand (Some (mkPoint 10 10)) (Some (mkPoint 0 0));
        LineCommand (Some (mkPoint 10 0)) (Some (mkPoint 10 10));
        ClosePathCommand (Some (mkPoint 0 0)) (Some (mkPoint 10 0))]).
Proof.
  intros H. vm_compute in H.
  apply (f_equal
           (fun o =>
              match commands (final_state o) !! 1 with
              | Some c =>
                  match cmd_start c with
                  | Some p => PrimFloat.eqb (x p) 0%float
                  | None => false
                  end
              | None => false
              end)) in H.
  vm_compute in H. discriminate H.
Qed.

(** C6 (amended).  The square is closed, and [reverse] leaves the move to
    [(0, 0)], then the close-path demoted to a line from [(0, 0)] to
    [(10, 10)], the line from [(10, 10)] to [(10, 0)], and the first line
    reversed and promoted to a close-path from [(10, 0)] to [(0, 0)]; the
    start of the sub-path is still [(0, 0)]. *)
Theorem square_reverse :
  isClosed square = Value true
  /\ SubPath_reverse square =
     Returns tt
       (mkSubPath
          [MoveCommand None (Some (mkPoint 0 0));
           LineCommand (Some (mkPoint 0 0)) (Some (mkPoint 10 10));
           LineCommand (Some (mkPoint 10 10)) (Some (mkPoint 10 0));
           ClosePathCommand (Some (mkPoint 10 0)) (Some (mkPoint 0 0))])
  /\ SubPath_start (final_state (SubPath_reverse square))
     = Value (Some (mkPoint 0 0)).
Proof. repeat split. Qed.

(** ** shiftBack in closed form *)

Lemma rotate_last_to_front_snoc {A : Type} (c0 : A) mid l :
  rotate_last_to_front (c0 :: mid ++ [l]) = l :: c0 :: mid.
Proof.
  unfold rotate_last_to_front.
  by rewrite last_cons_snoc, removelast_cons_snoc.
Qed.

(** The rotated command is not a close-path: it becomes the second command
    and the old first command is dropped for the new move. *)
Lemma shiftBack_body_plain c0 mid l :
  ctor l <> ClosePath ->
  shiftBack_body (c0 :: mid ++ [l])
  = MoveCommand (cmd_start c0) (cmd_start l) :: l :: mid.
Proof.
  intros Hl. unfold shiftBack_body.
  rewrite rotate_last_to_front_snoc. simpl.
  by rewrite bool_decide_eq_false_2.
Qed.

(** The rotated command is a close-path and another command remains
    before it: that one is promoted, the close-path demoted. *)
Lemma shiftBack_body_close c0 mid k l :
  ctor l = ClosePath ->
  shiftBack_body (c0 :: (mid ++ [k]) ++ [l])
  = MoveCommand (cmd_start c0) (cmd_start l)
      :: LineCommand (cmd_start l) (cmd_end l)
      :: mid ++ [ClosePathCommand (cmd_start k) (cmd_end k)].
Proof.
  intros Hl. unfold shiftBack_body.
  rewrite rotate_last_to_front_snoc. simpl.
  rewrite bool_decide_eq_true_2 by done.
  rewrite length_app. simpl.
  replace (length mid + 1) with (length (c0 :: mid)) by (simpl; lia).
  change (c0 :: mid ++ [k]) with ((c0 :: mid) ++ [k]).
  rewrite lookup_last_snoc, insert_last_snoc. reflexivity.
Qed.

(** The rotated command is a close-path and the sub-path has two commands:
    the slot that is both the last and the second ends as the line. *)
Lemma shiftBack_body_close_two c0 l :
  ctor l = ClosePath ->
  shiftBack_body [c0; l]
  = [MoveCommand (cmd_start c0) (cmd_start l);
     LineCommand (cmd_start l) (cmd_end l)].
Proof.
  intros Hl. unfold shiftBack_body, rotate_last_to_front. simpl.
  by rewrite bool_decide_eq_true_2.
Qed.

Lemma shiftBack_body_length cmds :
  2 <= length cmds -> length (shiftBack_body cmds) = length cmds.
Proof.
  intros Hlen. destruct cmds as [| c0 rest]; [done |].
  destruct (snoc_cases rest) as [-> | (mid & l & ->)]; [simpl in Hlen; lia |].
  destruct (decide (ctor l = ClosePath)) as [Hl | Hl].
  - destruct (snoc_cases mid) as [-> | (mid' & k & ->)].
    + rewrite app_nil_l. by rewrite shiftBack_body_close_two.
    + rewrite shiftBack_body_close by done. simpl.
      rewrite !length_app. simpl. lia.
  - rewrite shiftBack_body_plain by done. simpl.
    rewrite !length_app. simpl. lia.
Qed.

(** [shiftBack] keeps the number of commands, however it completes. *)
Lemma shiftBack_length this :
  length (commands (final_state (shiftBack this))) = length (commands this).
Proof.
  unfold shiftBack. case_bool_decide as Hone; [done |].
  destruct (isClosed this) as [[|] |] eqn:Hc; simpl; try done.
  apply shiftBack_body_length.
  destruct this as [[| c0 [| c1 cmds]]]; simpl in *; try lia; discriminate.
Qed.

(** With two commands and a close-path the result is a move and a line:
    no close-path is left. *)
Lemma shiftBack_two_commands_no_close :
  let this :=
    mkSubPath [MoveCommand None (Some (mkPoint 0 0));
               ClosePathCommand (Some (mkPoint 0 0)) (Some (mkPoint 0 0))] in
  isClosed this = Value true
  /\ length (commands this) = 2
  /\ shiftBack this =
     Returns tt
       (mkSubPath [MoveCommand None (Some (mkPoint 0 0));
                   LineCommand (Some (mkPoint 0 0)) (Some (mkPoint 0 0))])
  /\ (ctor <$> last (commands (final_state (shiftBack this))))
     <> Some ClosePath.
Proof. repeat split. discriminate. Qed.

(** C7 (amended).  On a closed sub-path of more than one command,
    [shiftBack] moves the last command [l] to the front and then: when [l]
    is a close-path, the second command is a line with [l]'s start and end
    and, if the sub-path has more than two commands, its new last command
    is a close-path with the start and end of the command that was before
    [l]; when [l] is not a close-path, [l] itself is the second command;
    the first command is a new move from the start of the old first
    command to the start of the new second command.  A sub-path of one
    command, or one that is not closed, is left as it is. *)
Theorem shiftBack_spec (this : SubPathCommand) :
  (length (commands this) = 1 -> shiftBack this = Returns tt this)
  /\ (isClosed this = Value false -> shiftBack this = Returns tt this)
  /\ (forall c0 mid l,
         commands this = c0 :: mid ++ [l] ->
         isClosed this = Value true ->
         exists second rest,
           shiftBack this =
           Returns tt
             (mkSubPath
                (MoveCommand (cmd_start c0) (cmd_start second)
                   :: second :: rest))
           /\ (ctor l <> ClosePath -> second = l /\ rest = mid)
           /\ (ctor l = ClosePath ->
               second = LineCommand (cmd_start l) (cmd_end l)
               /\ (mid = [] -> rest = [])
               /\ (forall mid' k, mid = mid' ++ [k] ->
                     rest = mid'
                              ++ [ClosePathCommand (cmd_start k) (cmd_end k)]))).
Proof.
  split; [| split].
  - intros H1. unfold shiftBack. by rewrite bool_decide_eq_true_2.
  - intros Hc. unfold shiftBack. rewrite Hc. by case_bool_decide.
  - intros c0 mid l Hcmds Hc. unfold shiftBack. rewrite Hc, Hcmds.
    rewrite bool_decide_eq_false_2
      by (simpl; rewrite length_app; simpl; lia).
    destruct (decide (ctor l = ClosePath)) as [Hl | Hl].
    + destruct (snoc_cases mid) as [-> | (mid' & k & ->)].
      * exists (LineCommand (cmd_start l) (cmd_end l)), [].
        rewrite app_nil_l, shiftBack_body_close_two by done.
        repeat split; try done.
        intros mid' k Hk. by destruct mid'.
      * exists (LineCommand (cmd_start l) (cmd_end l)),
          (mid' ++ [ClosePathCommand (cmd_start k) (cmd_end k)]).
        rewrite shiftBack_body_close by done.
        repeat split; try done.
        -- intros Hk. by destruct mid'.
        -- intros m2 k2 Hk. apply app_inj_tail in Hk as [-> ->]. done.
    + exists l, mid. rewrite shiftBack_body_plain by done.
      repeat split; done.
Qed.

Lemma shiftBack_spec_witness :
  shiftBack square =
  Returns tt
    (mkSubPath
       [MoveCommand None (Some (mkPoint 10 10));
        LineCommand (Some (mkPoint 10 10)) (Some (mkPoint 0 0));
        LineCommand (Some (mkPoint 0 0)) (Some (mkPoint 10 0));
        ClosePathCommand (Some (mkPoint 10 0)) (Some (mkPoint 10 10))]).
Proof.
  destruct (proj2 (proj2 (shiftBack_spec square))
              (MoveCommand None (Some (mkPoint 0 0)))
              [LineCommand (Some (mkPoint 0 0)) (Some (mkPoint 10 0));
               LineCommand (Some (mkPoint 10 0)) (Some (mkPoint 10 10))]
              (ClosePathCommand (Some (mkPoint 10 10)) (Some (mkPoint 0 0)))
              eq_refl eq_refl)
    as (second & rest & Hres & _ & Hclose).
  destruct (Hclose eq_refl) as (Hsecond & _ & Hrest).
  rewrite Hres, Hsecond.
  rewrite (Hrest [LineCommand (Some (mkPoint 0 0)) (Some (mkPoint 10 0))]
             (LineCommand (Some (mkPoint 10 0)) (Some (mkPoint 10 10)))
             eq_refl).
  reflexivity.
Defined.

(** ** Rotating a list once per element *)

Lemma rotate_last_to_front_app {A : Type} (l : list A) (z : A) :
  rotate_last_to_front (l ++ [z]) = z :: l.
Proof. unfold rotate_last_to_front. by rewrite last_snoc, removelast_last. Qed.

Lemma rotate_last_to_front_length {A : Type} (l : list A) :
  length (rotate_last_to_front l) = length l.
Proof.
  destruct (snoc_cases l) as [-> | (l' & z & ->)]; [done |].
  rewrite rotate_last_to_front_app, length_app. simpl. lia.
Qed.

Lemma rotate_iter_drop_take {A : Type} (l : list A) (k : nat) :
  k <= length l ->
  Nat.iter k rotate_last_to_front l
  = drop (length l - k) l ++ take (length l - k) l.
Proof.
  induction k as [| k IH]; intros Hk.
  - simpl. by rewrite Nat.sub_0_r, drop_all, firstn_all.
  - simpl. rewrite IH by lia.
    destruct (lookup_lt_is_Some_2 l (length l - S k)) as [v Hv]; [lia |].
    replace (length l - k) with (S (length l - S k)) by lia.
    rewrite (take_S_r _ _ _ Hv), app_assoc, rotate_last_to_front_app.
    by rewrite (drop_S _ _ _ Hv).
Qed.

Lemma rotate_iter_length {A : Type} (l : list A) :
  Nat.iter (length l) rotate_last_to_front l = l.
Proof.
  rewrite rotate_iter_drop_take by lia.
  by rewrite Nat.sub_diag, drop_0, app_nil_r.
Qed.

(** ** Closed loops of segments *)

Lemma chain_snoc {X : Type} (R : X -> X -> Prop) (l : list X) (a b : X) :
  chain R (l ++ [a; b]) <-> chain R (l ++ [a]) /\ R a b.
Proof.
  induction l as [| c l IH].
  - simpl. tauto.
  - destruct l as [| d l].
    + simpl. tauto.
    + change (R c d /\ chain R ((d :: l) ++ [a; b])
              <-> (R c d /\ chain R ((d :: l) ++ [a])) /\ R a b).
      rewrite IH. tauto.
Qed.

Lemma chain_map {X Y : Type} (f : X -> Y) (R : Y -> Y -> Prop) (l : list X) :
  chain R (map f l) <-> chain (fun a b => R (f a) (f b)) l.
Proof.
  induction l as [| c l IH]; [done |].
  destruct l as [| d l]; [done |].
  change (R (f c) (f d) /\ chain R (map f (d :: l))
          <-> R (f c) (f d) /\ chain (fun a b => R (f a) (f b)) (d :: l)).
  by rewrite IH.
Qed.

Lemma cycle_map {X Y : Type} (f : X -> Y) (R : Y -> Y -> Prop) (l : list X) :
  cycle R (map f l) <-> cycle (fun a b => R (f a) (f b)) l.
Proof.
  destruct l as [| h t]; [done |].
  change (chain R (map f (h :: t) ++ [f h])
          <-> chain (fun a b => R (f a) (f b)) ((h :: t) ++ [h])).
  rewrite <- (chain_map f R). by rewrite map_app.
Qed.

Lemma cycle_last_first {X : Type} (R : X -> X -> Prop) h (t : list X) z :
  cycle R (h :: t) -> last (h :: t) = Some z -> R z h.
Proof.
  intros Hc Hz.
  destruct (snoc_cases (h :: t)) as [? | (l & z' & Hl)]; [done |].
  rewrite Hl, last_snoc in Hz. injection Hz as ->.
  unfold cycle in Hc. rewrite Hl, <- app_assoc in Hc.
  by apply chain_snoc in Hc as [_ ?].
Qed.

Lemma cycle_rotate {X : Type} (R : X -> X -> Prop) (l : list X) :
  cycle R l -> cycle R (rotate_last_to_front l).
Proof.
  intros Hc.
  destruct (snoc_cases l) as [-> | (l' & z & ->)]; [done |].
  rewrite rotate_last_to_front_app.
  destruct l' as [| h t]; [exact Hc |].
  change (chain R (((h :: t) ++ [z]) ++ [h])) in Hc.
  rewrite <- app_assoc in Hc.
  apply chain_snoc in Hc as [Hc Hzh].
  change (R z h /\ chain R ((h :: t) ++ [z])). by split.
Qed.

(** ** Shifting the seam all the way round

    The commands after the move are described by a list [xs] of items and
    drawn by [render]; one [shiftBack] rotates the items.  The two
    instances below are sub-paths without close-path (the items are the
    commands) and polygons (the items are the sides). *)

Section SeamShift.
Context {X : Type}.
Variable render : list X -> list DrawCommand.
Variable seg_of : X -> segment.
Variable ok : list X -> Prop.

Hypothesis ok_nonempty : forall xs, ok xs -> xs <> [].
Hypothesis ok_rotate : forall xs, ok xs -> ok (rotate_last_to_front xs).
Hypothesis render_length : forall xs, ok xs -> length (render xs) = length xs.
Hypothesis render_last : forall xs z,
  ok xs -> last xs = Some z ->
  exists c, last (render xs) = Some c /\ cmd_end c = (seg_of z).2.
Hypothesis body_render : forall s e xs z,
  ok xs -> last xs = Some z ->
  shiftBack_body (MoveCommand s e :: render xs)
  = MoveCommand s (seg_of z).1 :: render (rotate_last_to_front xs).

Lemma seam_closed s xs :
  ok xs -> looped seg_of xs ->
  isClosed (seam render seg_of s xs) = Value true.
Proof.
  intros Hok Hloop.
  destruct xs as [| h t]; [by apply ok_nonempty in Hok |].
  destruct (last_cons_Some h t) as [z Hz].
  destruct (cycle_last_first _ _ _ _ Hloop Hz) as (p & Hend & Hstart & Hp).
  destruct (render_last _ _ Hok Hz) as (c & Hc & Hcend).
  unfold isClosed, SubPath_start, SubPath_end, seam. simpl commands.
  rewrite last_cons, Hc. simpl.
  unfold cmd_end at 1. simpl. unfold points_get, array_get. simpl.
  rewrite Hstart, Hcend, Hend. exact (f_equal Value Hp).
Qed.

Lemma seam_length s xs :
  ok xs -> length (commands (seam render seg_of s xs)) = S (length xs).
Proof. intros Hok. simpl. by rewrite render_length. Qed.

Lemma seam_shiftBack s xs :
  ok xs -> looped seg_of xs ->
  shiftBack (seam render seg_of s xs)
  = Returns tt (seam render seg_of s (rotate_last_to_front xs)).
Proof.
  intros Hok Hloop. unfold shiftBack.
  rewrite seam_length by done.
  destruct xs as [| h t]; [by apply ok_nonempty in Hok |].
  rewrite bool_decide_eq_false_2 by (simpl; lia).
  rewrite seam_closed by done.
  destruct (last_cons_Some h t) as [z Hz].
  unfold seam at 1. simpl commands.
  rewrite (body_render _ _ _ z) by done.
  unfold seam, rotate_last_to_front. by rewrite Hz.
Qed.

Lemma seam_shiftBack_times s k : forall xs,
  ok xs -> looped seg_of xs ->
  shiftBack_times k (seam render seg_of s xs)
  = Returns tt (seam render seg_of s (Nat.iter k rotate_last_to_front xs)).
Proof.
  induction k as [| k IH]; intros xs Hok Hloop; [done |].
  simpl shiftBack_times. rewrite seam_shiftBack by done.
  rewrite IH by (by apply ok_rotate || by apply cycle_rotate).
  by rewrite Nat.iter_succ_r.
Qed.

Lemma seam_round_trip s xs :
  ok xs -> looped seg_of xs ->
  isClosed (seam render seg_of s xs) = Value true
  /\ shiftBack (seam render seg_of s xs)
     = Returns tt (seam render seg_of s (rotate_last_to_front xs))
  /\ shiftForward (seam render seg_of s (rotate_last_to_front xs))
     = Returns tt (seam render seg_of s xs).
Proof.
  intros Hok Hloop.
  split; [by apply seam_closed |]. split; [by apply seam_shiftBack |].
  pose proof (ok_rotate _ Hok) as Hok'.
  pose proof (cycle_rotate _ _ Hloop) as Hloop'.
  pose proof (ok_nonempty _ Hok) as Hne.
  unfold shiftForward.
  rewrite seam_length, rotate_last_to_front_length by done.
  destruct xs as [| h t]; [done |].
  rewrite bool_decide_eq_false_2 by (simpl; lia).
  rewrite seam_closed by done.
  rewrite seam_shiftBack_times by done.
  rewrite <- Nat.iter_succ_r.
  replace (S (S (length (h :: t)) - 2)) with (length (h :: t))
    by (simpl; lia).
  by rewrite rotate_iter_length.
Qed.
End SeamShift.

(** *** Polygons *)

Lemma polygon_snoc ps z : polygon (ps ++ [z]) = map side ps ++ [closing z].
Proof. unfold polygon. by rewrite last_snoc, removelast_last. Qed.

Lemma last_Some_snoc {A : Type} (l : list A) (z : A) :
  last l = Some z -> exists l', l = l' ++ [z].
Proof.
  intros Hz. destruct (snoc_cases l) as [-> | (l' & z' & ->)]; [done |].
  rewrite last_snoc in Hz. injection Hz as ->. eauto.
Qed.

Lemma seg_side p : seg (side p) = p.
Proof. by destruct p. Qed.

Lemma seg_closing p : seg (closing p) = p.
Proof. by destruct p. Qed.

Lemma map_seg_polygon ps : ps <> [] -> map seg (polygon ps) = ps.
Proof.
  intros Hne. destruct (snoc_cases ps) as [-> | (l & z & ->)]; [done |].
  rewrite polygon_snoc, map_app, map_map. simpl. rewrite seg_closing.
  f_equal. induction l as [| p l IH]; [done |].
  simpl. rewrite seg_side. f_equal. apply IH. by destruct l.
Qed.

Lemma polygon_round_trip s ps :
  2 <= length ps -> cycle joined ps ->
  let this := seam polygon id s ps in
  let shifted := seam polygon id s (rotate_last_to_front ps) in
  isClosed this = Value true
  /\ shiftBack this = Returns tt shifted
  /\ shiftForward shifted = Returns tt this.
Proof.
  intros Hlen Hloop.
  apply (seam_round_trip polygon id (fun ps => 2 <= length ps)); try done.
  - intros xs Hxs ->. simpl in Hxs. lia.
  - intros xs Hxs. by rewrite rotate_last_to_front_length.
  - intros xs Hxs.
    destruct (snoc_cases xs) as [-> | (l & z & ->)]; [simpl in Hxs; lia |].
    rewrite polygon_snoc, !length_app, length_map. done.
  - intros xs z _ Hz. apply last_Some_snoc in Hz as [l ->].
    exists (closing z). rewrite polygon_snoc, last_snoc. done.
  - intros s0 e xs z Hxs Hz. apply last_Some_snoc in Hz as [l ->].
    destruct (snoc_cases l) as [-> | (mid & k & ->)];
      [simpl in Hxs; lia |].
    rewrite rotate_last_to_front_app, polygon_snoc.
    rewrite map_app. simpl map.
    rewrite shiftBack_body_close by done.
    change (z :: mid ++ [k]) with ((z :: mid) ++ [k]).
    rewrite polygon_snoc. reflexivity.
Qed.

(** *** Sub-paths without close-path *)

Lemma plain_round_trip s cs :
  cs <> [] -> Forall (fun c => ctor c <> ClosePath) cs ->
  cycle (fun a b => joined (seg a) (seg b)) cs ->
  let this := seam id seg s cs in
  let shifted := seam id seg s (rotate_last_to_front cs) in
  isClosed this = Value true
  /\ shiftBack this = Returns tt shifted
  /\ shiftForward shifted = Returns tt this.
Proof.
  intros Hne Hplain Hloop.
  apply (seam_round_trip id seg
           (fun cs => cs <> [] /\ Forall (fun c => ctor c <> ClosePath) cs));
    try done.
  - by intros xs [? _].
  - intros xs [Hxs Hall].
    destruct (snoc_cases xs) as [-> | (l & z & ->)]; [done |].
    rewrite rotate_last_to_front_app. split; [done |].
    apply Forall_app in Hall as [Hl Hz]. apply Forall_cons.
    by inversion Hz.
  - intros xs z _ Hz. by exists z.
  - intros s0 e xs z [_ Hall] Hz. apply last_Some_snoc in Hz as [l ->].
    rewrite rotate_last_to_front_app.
    apply Forall_app in Hall as [_ Hz]. inversion Hz; subst.
    unfold id. by rewrite shiftBack_body_plain.
Qed.

(** [shiftBack] then [shiftForward] on it leaves a line where the curve
    was. *)
Lemma curved_loop_shift_loses_curve :
  let shifted := final_state (shiftBack curved_loop) in
  let back := final_state (shiftForward shifted) in
  isClosed curved_loop = Value true
  /\ length (commands curved_loop) = 3
  /\ (ctor <$> commands curved_loop !! 1) = Some BezierCurve
  /\ (ctor <$> commands back !! 1) = Some Line
  /\ back <> curved_loop.
Proof.
  cbv zeta. repeat split.
  intros H. apply (f_equal (fun sp => ctor <$> commands sp !! 1)) in H.
  vm_compute in H. discriminate H.
Qed.

(** C8, at a failing input.  One [shiftBack] on [curved_loop] rebuilds
    the curve, which comes last behind the rotated close-path, as a
    close-path with the start and the end of the curve only: its control
    points are gone and what is drawn is two straight sides; the
    [shiftForward] that follows brings the seam back and leaves a line
    where the curve was. *)
Theorem shiftBack_drops_curve :
  let shifted :=
    mkSubPath
      [MoveCommand None (Some (mkPoint 10 0));
       LineCommand (Some (mkPoint 10 0)) (Some (mkPoint 0 0));
       ClosePathCommand (Some (mkPoint 0 0)) (Some (mkPoint 10 0))] in
  let back :=
    mkSubPath
      [MoveCommand None (Some (mkPoint 0 0));
       LineCommand (Some (mkPoint 0 0)) (Some (mkPoint 10 0));
       ClosePathCommand (Some (mkPoint 10 0)) (Some (mkPoint 0 0))] in
  isClosed curved_loop = Value true
  /\ shiftBack curved_loop = Returns tt shifted
  /\ shiftForward shifted = Returns tt back
  /\ SubPath_execute curved_loop
     = Returns tt [moveTo 0 0; bezierCurveTo 1 2 3 4 10 0; closePath]
  /\ SubPath_execute shifted
     = Returns tt [moveTo 10 0; lineTo 0 0; closePath]
  /\ SubPath_execute back
     = Returns tt [moveTo 0 0; lineTo 10 0; closePath]
  /\ back <> curved_loop.
Proof.
  cbv zeta. repeat split.
  intros H. apply (f_equal (fun sp => ctor <$> commands sp !! 1)) in H.
  vm_compute in H. discriminate H.
Qed.

(** Where the round trip holds.  Take a sub-path made of a move and of
    commands that form a closed loop: the move ends where the first command starts, each
    command starts at the point where the one before it ends, the first
    where the last ends, and no coordinate of these points is NaN.  If no
    command is a close-path, or if the commands are lines closed by one
    final close-path (two commands at least), then the sub-path is closed,
    and [shiftBack] followed by [shiftForward] gives back the sub-path it
    started from: the same start point and the same commands in the same
    order.  [shiftForward] does nothing on a sub-path of one command or
    one that is not closed, and is [length - 2] calls of [shiftBack] on
    any other. *)
Theorem shiftBack_shiftForward_round_trip (s : slot) (h : DrawCommand)
    (t : list DrawCommand) :
  let this := mkSubPath (MoveCommand s (cmd_start h) :: h :: t) in
  cycle (fun a b => joined (seg a) (seg b)) (h :: t) ->
  Forall (fun c => ctor c <> ClosePath) (h :: t)
  \/ (exists ps, 2 <= length ps /\ h :: t = polygon ps) ->
  isClosed this = Value true
  /\ (exists shifted,
        shiftBack this = Returns tt shifted
        /\ shiftForward shifted = Returns tt this)
  /\ (forall sp,
        length (commands sp) = 1 \/ isClosed sp = Value false ->
        shiftForward sp = Returns tt sp)
  /\ (forall sp,
        length (commands sp) <> 1 -> isClosed sp = Value true ->
        shiftForward sp = shiftBack_times (length (commands sp) - 2) sp).
Proof.
  intros this Hloop Hkind.
  cut (isClosed this = Value true
       /\ exists shifted,
            shiftBack this = Returns tt shifted
            /\ shiftForward shifted = Returns tt this).
  { intros [Hc Hs]. split; [exact Hc |]. split; [exact Hs |].
    split; intros sp; unfold shiftForward.
    - intros [H1 | Hn]; [by rewrite bool_decide_eq_true_2 |].
      rewrite Hn. by case_bool_decide.
    - intros H1 Hn. by rewrite bool_decide_eq_false_2, Hn. }
  destruct Hkind as [Hplain | (ps & Hlen & Hps)].
  - destruct (plain_round_trip s (h :: t)) as (Hc & Hb & Hf); try done.
    split; [exact Hc | eauto].
  - assert (Hne : ps <> []) by (intros ->; simpl in Hlen; lia).
    assert (Hsegs : map seg (h :: t) = ps)
      by (rewrite Hps; by apply map_seg_polygon).
    assert (Hloop' : cycle joined ps).
    { rewrite <- Hsegs. by apply cycle_map. }
    destruct (polygon_round_trip s ps Hlen Hloop') as (Hc & Hb & Hf).
    assert (Hthis : seam polygon id s ps = this).
    { unfold seam, this. rewrite <- Hps. do 3 f_equal.
      rewrite <- Hsegs. reflexivity. }
    rewrite Hthis in *. split; [exact Hc | eauto].
Qed.

Lemma shiftBack_shiftForward_round_trip_witness :
  exists shifted,
    shiftBack square = Returns tt shifted
    /\ shiftForward shifted = Returns tt square.
Proof.
  refine (proj1 (proj2 (shiftBack_shiftForward_round_trip None
                   (LineCommand (Some (mkPoint 0 0)) (Some (mkPoint 10 0)))
                   [LineCommand (Some (mkPoint 10 0)) (Some (mkPoint 10 10));
                    ClosePathCommand (Some (mkPoint 10 10))
                                     (Some (mkPoint 0 0))] _ _))).
  - simpl. repeat split;
      [exists (mkPoint 10 0) | exists (mkPoint 10 10) | exists (mkPoint 0 0)];
      repeat split.
  - right.
    exists [(Some (mkPoint 0 0), Some (mkPoint 10 0));
            (Some (mkPoint 10 0), Some (mkPoint 10 10));
            (Some (mkPoint 10 10), Some (mkPoint 0 0))].
    split; [simpl; lia | reflexivity].
Defined.

(** ** reverse in closed form *)

Lemma reverse_loop_spec c0 rest : forall i acc,
  i <= length rest ->
  reverse_loop (c0 :: rest) i acc
  = acc ++ map DrawCommand_reverse (rev (take i rest)).
Proof.
  induction i as [| i IH]; intros acc Hi.
  - simpl. by rewrite app_nil_r.
  - destruct (lookup_lt_is_Some_2 rest i) as [c Hc]; [lia |].
    simpl reverse_loop. simpl lookup. rewrite Hc, IH by lia.
    rewrite (take_S_r _ _ _ Hc), rev_unit, <- app_assoc. reflexivity.
Qed.

Lemma promote_last_snoc t k :
  promote_last (t ++ [k])
  = t ++ [ClosePathCommand (cmd_start k) (cmd_end k)].
Proof. unfold promote_last. by rewrite last_snoc, removelast_last. Qed.

Lemma reverse_fix_close_cons m c t :
  reverse_fix_close (m :: c :: t) = m :: demote_promote (c :: t).
Proof.
  unfold reverse_fix_close, demote_promote. simpl lookup.
  destruct (decide (ctor c = ClosePath)) as [Hc | Hc];
    [| by rewrite !bool_decide_eq_false_2].
  rewrite !bool_decide_eq_true_2 by done.
  simpl. rewrite ?Nat.sub_0_r.
  destruct (snoc_cases (LineCommand (cmd_start c) (cmd_end c) :: t))
    as [? | (l & k & Hl)]; [done |].
  assert (Hlen : length t = length l).
  { apply (f_equal length) in Hl. rewrite length_app in Hl.
    simpl in Hl. lia. }
  rewrite Hl, promote_last_snoc, Hlen, lookup_last_snoc, insert_last_snoc.
  reflexivity.
Qed.

Lemma SubPath_reverse_form c0 c t l :
  last (c :: t) = Some l ->
  SubPath_reverse (mkSubPath (c0 :: c :: t))
  = Returns tt
      (mkSubPath
         (MoveCommand (cmd_start c0) (cmd_end l)
            :: demote_promote (map DrawCommand_reverse (rev (c :: t))))).
Proof.
  intros Hl. unfold SubPath_reverse. simpl commands.
  rewrite last_cons, Hl.
  rewrite reverse_loop_spec by (simpl; lia).
  simpl length.
  replace (S (S (length t)) - 1) with (length (c :: t)) by (simpl; lia).
  rewrite firstn_all.
  destruct (map DrawCommand_reverse (rev (c :: t))) as [| d t'] eqn:Hm.
  - apply (f_equal length) in Hm.
    rewrite length_map, length_rev in Hm. discriminate Hm.
  - simpl app. by rewrite reverse_fix_close_cons.
Qed.

(** *** Commands that [reverse] turns round and back *)

Lemma cmd_start_rev k ps :
  cmd_start (PointsCmd k (rev ps)) = cmd_end (PointsCmd k ps).
Proof.
  unfold cmd_start, cmd_end, points_get, array_get. simpl.
  destruct ps as [| p ps]; [done |].
  rewrite rev_nth by (simpl; lia). simpl length.
  replace (S (length ps) - 1) with (length ps) by lia.
  rewrite Nat.sub_0_r. by destruct (length ps).
Qed.

Lemma cmd_end_rev k ps :
  cmd_end (PointsCmd k (rev ps)) = cmd_start (PointsCmd k ps).
Proof.
  rewrite <- (rev_involutive ps) at 2. by rewrite cmd_start_rev.
Qed.

Lemma reverse_two_ended c :
  two_ended c ->
  two_ended (DrawCommand_reverse c)
  /\ ctor (DrawCommand_reverse c) = ctor c
  /\ cmd_start (DrawCommand_reverse c) = cmd_end c
  /\ cmd_end (DrawCommand_reverse c) = cmd_start c
  /\ DrawCommand_reverse (DrawCommand_reverse c) = c.
Proof.
  intros (k & ps & -> & Hlen & [p Hp] & [q Hq]).
  assert (Hrev : DrawCommand_reverse (PointsCmd k ps) = PointsCmd k (rev ps))
    by (simpl; by rewrite Hp).
  rewrite Hrev. split; [| split; [| split; [| split]]].
  - exists k, (rev ps). rewrite length_rev, cmd_start_rev, cmd_end_rev.
    split; [done |]. split; [done |]. split; eauto.
  - by destruct k.
  - apply cmd_start_rev.
  - apply cmd_end_rev.
  - simpl. rewrite cmd_start_rev, Hq. by rewrite rev_involutive.
Qed.

Lemma reverse_reverse_map cs :
  Forall two_ended cs ->
  map DrawCommand_reverse (map DrawCommand_reverse cs) = cs.
Proof.
  induction 1 as [| c cs Hc _ IH]; [done |].
  simpl. rewrite IH. f_equal. by apply reverse_two_ended.
Qed.

Lemma two_ended_line c :
  two_ended c -> ctor c = Line -> c = LineCommand (cmd_start c) (cmd_end c).
Proof.
  intros (k & ps & -> & Hlen & _ & _) Hk.
  destruct k; try discriminate Hk.
  by destruct ps as [| a [| b [| ? ?]]].
Qed.

Lemma two_ended_close c :
  two_ended c -> ctor c = ClosePath ->
  c = ClosePathCommand (cmd_start c) (cmd_end c).
Proof.
  intros (k & ps & -> & Hlen & _ & _) Hk.
  destruct k; try discriminate Hk.
  by destruct ps as [| a [| b [| ? ?]]].
Qed.

(** The ends of the two-point commands. *)
Lemma cmd_start_Move a b : cmd_start (MoveCommand a b) = a.
Proof. reflexivity. Qed.
Lemma cmd_end_Move a b : cmd_end (MoveCommand a b) = b.
Proof. reflexivity. Qed.
Lemma cmd_start_Line a b : cmd_start (LineCommand a b) = a.
Proof. reflexivity. Qed.
Lemma cmd_end_Line a b : cmd_end (LineCommand a b) = b.
Proof. reflexivity. Qed.
Lemma cmd_start_Close a b : cmd_start (ClosePathCommand a b) = a.
Proof. reflexivity. Qed.
Lemma cmd_end_Close a b : cmd_end (ClosePathCommand a b) = b.
Proof. reflexivity. Qed.

Create Rewrite HintDb ends.
#[global] Hint Rewrite cmd_start_Move cmd_end_Move cmd_start_Line cmd_end_Line
  cmd_start_Close cmd_end_Close : ends.

Lemma reverse_line a b :
  is_Some a -> DrawCommand_reverse (LineCommand a b) = LineCommand b a.
Proof. by intros [p ->]. Qed.

Lemma reverse_close a b :
  is_Some a ->
  DrawCommand_reverse (ClosePathCommand a b) = ClosePathCommand b a.
Proof. by intros [p ->]. Qed.

Lemma demote_promote_plain c t :
  ctor c <> ClosePath -> demote_promote (c :: t) = c :: t.
Proof. intros H. unfold demote_promote. by rewrite bool_decide_eq_false_2. Qed.

Lemma demote_promote_close c t k :
  ctor c = ClosePath ->
  demote_promote (c :: t ++ [k])
  = LineCommand (cmd_start c) (cmd_end c)
      :: t ++ [ClosePathCommand (cmd_start k) (cmd_end k)].
Proof.
  intros H. unfold demote_promote. rewrite bool_decide_eq_true_2 by done.
  by rewrite app_comm_cons, promote_last_snoc.
Qed.

Lemma demote_promote_close_one c :
  ctor c = ClosePath ->
  demote_promote [c] = [ClosePathCommand (cmd_start c) (cmd_end c)].
Proof.
  intros H. unfold demote_promote. by rewrite bool_decide_eq_true_2.
Qed.

Lemma reverse_twice_one s h :
  two_ended h ->
  let this := mkSubPath [MoveCommand s (cmd_start h); h] in
  exists once,
    SubPath_reverse this = Returns tt once
    /\ SubPath_reverse once = Returns tt this.
Proof.
  intros Hh this.
  destruct (reverse_two_ended h Hh) as (Hrh & Hctor & Hs & He & Hinv).
  unfold this. rewrite (SubPath_reverse_form _ _ _ h) by done.
  eexists. split; [reflexivity |].
  cbn [rev map app].
  destruct (decide (ctor h = ClosePath)) as [Hc | Hc].
  - rewrite demote_promote_close_one by congruence.
    rewrite Hs, He.
    erewrite SubPath_reverse_form by reflexivity.
    cbn [rev map app].
    destruct Hh as (k & ps & -> & Hlen & Hst & Hen).
    rewrite reverse_close by done.
    rewrite demote_promote_close_one by done.
    autorewrite with ends.
    rewrite <- (two_ended_close (PointsCmd k ps)); [done | | done].
    by exists k, ps.
  - rewrite demote_promote_plain by congruence.
    erewrite SubPath_reverse_form by reflexivity.
    cbn [rev map app]. rewrite Hinv, He. autorewrite with ends.
    by rewrite demote_promote_plain.
Qed.

Lemma reverse_twice_many s h mid l :
  Forall two_ended (h :: mid ++ [l]) ->
  (ctor l <> ClosePath /\ ctor h <> ClosePath)
  \/ (ctor l = ClosePath /\ ctor h = Line) ->
  let this := mkSubPath (MoveCommand s (cmd_start h) :: h :: mid ++ [l]) in
  exists once,
    SubPath_reverse this = Returns tt once
    /\ SubPath_reverse once = Returns tt this.
Proof.
  intros Hall Hends this.
  pose proof Hall as Hall'.
  apply Forall_cons in Hall' as [Hh Hrest].
  apply Forall_app in Hrest as [Hmid Hl].
  apply Forall_inv in Hl.
  destruct (reverse_two_ended h Hh) as (_ & Hhc & Hhs & Hhe & Hhinv).
  destruct (reverse_two_ended l Hl) as (_ & Hlc & Hls & Hle & Hlinv).
  assert (Hrev : map DrawCommand_reverse (rev (h :: mid ++ [l]))
                 = DrawCommand_reverse l
                     :: map DrawCommand_reverse (rev mid)
                     ++ [DrawCommand_reverse h]).
  { cbn [rev]. rewrite rev_unit. cbn [app]. by rewrite map_cons, map_app. }
  assert (Hmidinv : map DrawCommand_reverse
                      (rev (map DrawCommand_reverse (rev mid))) = mid).
  { rewrite <- map_rev, rev_involutive. by apply reverse_reverse_map. }
  unfold this.
  rewrite (SubPath_reverse_form _ _ _ l) by apply last_cons_snoc.
  eexists. split; [reflexivity |].
  rewrite Hrev. autorewrite with ends.
  destruct Hends as [[Hlz Hhz] | [Hlz Hhl]].
  - rewrite demote_promote_plain by congruence.
    rewrite (SubPath_reverse_form _ _ _ (DrawCommand_reverse h))
      by apply last_cons_snoc.
    autorewrite with ends. rewrite Hhe.
    cbn [rev]. rewrite rev_unit. cbn [app map].
    rewrite map_app, Hmidinv, Hhinv. cbn [map]. rewrite Hlinv.
    by rewrite demote_promote_plain.
  - rewrite demote_promote_close by congruence.
    rewrite Hls, Hle, Hhs, Hhe.
    erewrite SubPath_reverse_form by apply last_cons_snoc.
    autorewrite with ends.
    cbn [rev]. rewrite rev_unit. cbn [app map].
    rewrite map_app, Hmidinv. cbn [map].
    destruct Hh as (kh & psh & -> & Hlenh & Hsth & Henh).
    destruct Hl as (kl & psl & -> & Hlenl & Hstl & Henl).
    rewrite reverse_close, reverse_line by done.
    rewrite demote_promote_close by done.
    autorewrite with ends.
    rewrite <- (two_ended_line (PointsCmd kh psh));
      [| by exists kh, psh | done].
    rewrite <- (two_ended_close (PointsCmd kl psl));
      [done | by exists kl, psl | done].
Qed.

(** A second [reverse] does not bring the curve of [curved_loop] back. *)
Lemma curved_loop_reverse_twice_loses_curve :
  let once := final_state (SubPath_reverse curved_loop) in
  let twice := final_state (SubPath_reverse once) in
  (ctor <$> commands curved_loop !! 1) = Some BezierCurve
  /\ (ctor <$> commands twice !! 1) = Some Line
  /\ (points <$> commands twice !! 1)
     <> (points <$> commands curved_loop !! 1)
  /\ twice <> curved_loop.
Proof.
  cbv zeta. split; [reflexivity |]. split; [reflexivity |].
  split; intros H.
  - apply (f_equal (fun o => length <$> o)) in H.
    vm_compute in H. discriminate H.
  - apply (f_equal (fun sp => ctor <$> commands sp !! 1)) in H.
    vm_compute in H. discriminate H.
Qed.

(** C5, at a failing input.  One [reverse] on [curved_loop] rebuilds the
    reversed curve, which comes last, as a close-path with the start and
    the end of the curve only: its control points are gone and a straight
    line is drawn where the curve was; a second [reverse] changes nothing
    more, and so does not give back the sub-path. *)
Theorem reverse_drops_curve :
  let once :=
    mkSubPath
      [MoveCommand None (Some (mkPoint 0 0));
       LineCommand (Some (mkPoint 0 0)) (Some (mkPoint 10 0));
       ClosePathCommand (Some (mkPoint 10 0)) (Some (mkPoint 0 0))] in
  SubPath_reverse curved_loop = Returns tt once
  /\ SubPath_reverse once = Returns tt once
  /\ SubPath_execute curved_loop
     = Returns tt [moveTo 0 0; bezierCurveTo 1 2 3 4 10 0; closePath]
  /\ SubPath_execute once
     = Returns tt [moveTo 0 0; lineTo 10 0; closePath]
  /\ once <> curved_loop.
Proof.
  cbv zeta. repeat split.
  intros H. apply (f_equal (fun sp => ctor <$> commands sp !! 1)) in H.
  vm_compute in H. discriminate H.
Qed.

(** Where two [reverse] are the identity.  Take a sub-path made of a move
    and of commands of the five point classes, each built by its constructor with a start and an
    end point, the move ending where the first of them starts.  If these
    commands are two or more, let either neither the first nor the last be
    a close-path, or the last be a close-path and the first a line.  Then
    [reverse] applied twice gives back the sub-path it started from:
    the same commands, of the same classes and with the same points, in
    the same order.  On a sub-path that is a single move without start,
    one [reverse] already changes nothing; on one that is a single move
    with an end point, two do. *)
Theorem reverse_twice (s : slot) (h : DrawCommand) (t : list DrawCommand) :
  let this := mkSubPath (MoveCommand s (cmd_start h) :: h :: t) in
  Forall two_ended (h :: t) ->
  close_at_ends_ok h t ->
  (exists once,
      SubPath_reverse this = Returns tt once
      /\ SubPath_reverse once = Returns tt this)
  /\ (forall e,
        SubPath_reverse (mkSubPath [MoveCommand None e])
        = Returns tt (mkSubPath [MoveCommand None e]))
  /\ (forall s' e,
        exists once,
          SubPath_reverse (mkSubPath [MoveCommand s' (Some e)])
          = Returns tt once
          /\ SubPath_reverse once
             = Returns tt (mkSubPath [MoveCommand s' (Some e)])).
Proof.
  intros this Hall Hends.
  split; [| split; [reflexivity | intros [p |] e; eexists; by split]].
  destruct (snoc_cases t) as [-> | (mid & l & ->)].
  - apply reverse_twice_one. by apply Forall_singleton.
  - apply reverse_twice_many; [done |].
    unfold close_at_ends_ok in Hends. by rewrite last_snoc in Hends.
Qed.

Lemma reverse_twice_witness :
  exists once,
    SubPath_reverse square = Returns tt once
    /\ SubPath_reverse once = Returns tt square.
Proof.
  refine (proj1 (reverse_twice None
                   (LineCommand (Some (mkPoint 0 0)) (Some (mkPoint 10 0)))
                   [LineCommand (Some (mkPoint 10 0)) (Some (mkPoint 10 10));
                    ClosePathCommand (Some (mkPoint 10 10))
                                     (Some (mkPoint 0 0))] _ _)).
  - repeat apply Forall_cons_2; [| | | apply Forall_nil_2];
      (eexists _, _; split; [reflexivity |];
       split; [reflexivity |]; split; eexists; reflexivity).
  - right. split; reflexivity.
Defined.

(** ** Who is written by [interpolate] *)

(** *** Nothing but [this] is written *)

Lemma store_interpolate_round_frame this start end_ f h i l :
  l <> this -> store_interpolate_round this start end_ f h i !! l = h !! l.
Proof.
  intros Hl. unfold store_interpolate_round.
  destruct (points_get i (store_points h start)); [| done].
  destruct (points_get i (store_points h end_)); [| done].
  by rewrite lookup_alter_ne.
Qed.

Lemma store_interpolate_rounds_frame this start end_ f idx l : forall h,
  l <> this ->
  foldl (store_interpolate_round this start end_ f) h idx !! l = h !! l.
Proof.
  induction idx as [| i idx IH]; intros h Hl; [done |].
  simpl. rewrite IH by done. by apply store_interpolate_round_frame.
Qed.

Lemma store_arc_round_frame this start end_ f h i h' l :
  store_arc_round this start end_ f h i = Value h' ->
  l <> this -> h' !! l = h !! l.
Proof.
  unfold store_arc_round. intros H Hl.
  destruct (bool_decide (i = 5) || bool_decide (i = 6)).
  - destruct (store_args h _); [| discriminate H].
    injection H as <-. by rewrite lookup_alter_ne.
  - destruct (store_args h start); [| discriminate H].
    destruct (store_args h end_); [| discriminate H].
    injection H as <-. by rewrite lookup_alter_ne.
Qed.

Lemma store_forEach_frame this start end_ f idx l : forall h,
  l <> this ->
  final_state (store_forEach (store_arc_round this start end_ f) idx h) !! l
  = h !! l.
Proof.
  induction idx as [| i idx IH]; intros h Hl; [done |].
  simpl. destruct (store_arc_round this start end_ f h i) as [h' |] eqn:Hr;
    [| done].
  rewrite IH by done. by eapply store_arc_round_frame.
Qed.

(** *** The store and the values agree when [this] is not an argument *)

Lemma array_set_middle {A : Type} (u : A) pre x post v :
  array_set u (length pre) v (pre ++ x :: post) = pre ++ v :: post.
Proof.
  unfold array_set. rewrite decide_True by (rewrite length_app; simpl; lia).
  induction pre as [| p pre IH]; simpl; [done | by rewrite IH].
Qed.

Lemma store_rounds_points this start end_ f s e k idx : forall h ps,
  this <> start -> this <> end_ ->
  h !! this = Some (PointsCmd k ps) ->
  h !! start = Some s -> h !! end_ = Some e ->
  foldl (store_interpolate_round this start end_ f) h idx !! this
  = Some (PointsCmd k
            (foldl (fun ps i => interpolate_point (points s) (points e) f i ps)
               ps idx)).
Proof.
  induction idx as [| i idx IH]; intros h ps Hs He Ht Hst Hen; [done |].
  simpl. apply IH; try done.
  - unfold store_interpolate_round, interpolate_point, store_points.
    rewrite Hst, Hen.
    destruct (points_get i (points s)); [| done].
    destruct (points_get i (points e)); [| done].
    by rewrite lookup_alter_eq, Ht.
  - by rewrite store_interpolate_round_frame.
  - by rewrite store_interpolate_round_frame.
Qed.

Lemma store_forEach_args this start end_ f ps sa ea : forall post pre h,
  this <> start -> this <> end_ ->
  h !! this = Some (ArcCmd ps (pre ++ post)) ->
  store_args h start = Some sa -> store_args h end_ = Some ea ->
  exists h',
    store_forEach (store_arc_round this start end_ f)
      (seq (length pre) (length post)) h = Returns tt h'
    /\ h' !! this
       = Some (ArcCmd ps
                 (pre ++ interpolate_args_from sa ea f (length pre) post)).
Proof.
  induction post as [| v post IH]; intros pre h Hs He Ht Hsa Hea.
  - exists h. by split.
  - set (w := interpolate_arg sa ea f (length pre)).
    assert (Hround : store_arc_round this start end_ f h (length pre)
                     = Value (alter (write_arg (length pre) w) this h)).
    { unfold store_arc_round, w, interpolate_arg.
      destruct (bool_decide (length pre = 5) || bool_decide (length pre = 6)).
      - destruct (strict_eq f 0%float); [by rewrite Hsa | by rewrite Hea].
      - by rewrite Hsa, Hea. }
    destruct (IH (pre ++ [w]) (alter (write_arg (length pre) w) this h))
      as (h' & Hrun & Hthis); try done.
    + rewrite lookup_alter_eq, Ht. simpl. unfold args_set.
      by rewrite array_set_middle, <- app_assoc.
    + unfold store_args. by rewrite lookup_alter_ne.
    + unfold store_args. by rewrite lookup_alter_ne.
    + exists h'. simpl. rewrite Hround.
      rewrite length_app in Hrun, Hthis. simpl in Hrun, Hthis.
      rewrite Nat.add_1_r in Hrun, Hthis.
      split; [exact Hrun |]. by rewrite Hthis, <- app_assoc.
Qed.

(** C9.  When [this] is another object than [start] and than [end],
    [interpolate] leaves [start] and [end] as they were, with all their
    points and args, and leaves every other object of the store alone: all
    it writes is the point array or the args of [this], which end as the
    computation on values says. *)
Theorem interpolate_writes_this_only (h : gmap loc DrawCommand)
    (this start end_ : loc) (fraction : number) (t s e : DrawCommand) :
  this <> start -> this <> end_ ->
  h !! this = Some t -> h !! start = Some s -> h !! end_ = Some e ->
  exists o,
    store_interpolate h this start end_ fraction = Some o
    /\ final_state o !! start = Some s
    /\ final_state o !! end_ = Some e
    /\ (forall l, l <> this -> final_state o !! l = h !! l)
    /\ final_state o !! this
       = Some (final_state (DrawCommand_interpolate t s e fraction)).
Proof.
  intros Hs He Ht Hst Hen.
  unfold store_interpolate. rewrite Ht, Hst, Hen.
  eexists. split; [reflexivity |].
  assert (Hframe : forall l, l <> this ->
            final_state
              match t with
              | PointsCmd _ _ =>
                  if negb (DrawCommand_isMorphableWith t s)
                     || negb (DrawCommand_isMorphableWith t e)
                  then Returns false h
                  else Returns true
                         (foldl
                            (store_interpolate_round this start end_ fraction)
                            h (seq 0 (length (points s))))
              | ArcCmd _ a =>
                  match
                    store_forEach
                      (store_arc_round this start end_ fraction)
                      (seq 0 (length a)) h
                  with
                  | Returns _ h' => Returns true h'
                  | Throws h' => Throws h'
                  end
              end !! l = h !! l).
  { intros l Hl. destruct t as [k ps | ps a].
    - destruct (negb _ || negb _); [done |].
      by apply store_interpolate_rounds_frame.
    - pose proof (store_forEach_frame this start end_ fraction
                    (seq 0 (length a)) l h Hl) as Hf.
      by destruct (store_forEach _ _ h). }
  split; [by rewrite Hframe | split; [by rewrite Hframe | split; [done |]]].
  destruct t as [k ps | ps a].
  - unfold DrawCommand_interpolate.
    destruct (negb _ || negb _); [done |].
    apply (store_rounds_points this start end_ fraction s e k); done.
  - destruct a as [| v a]; [done |].
    unfold DrawCommand_interpolate.
    destruct (args s) as [sa |] eqn:Hsa.
    + destruct (args e) as [ea |] eqn:Hea.
      * destruct (store_forEach_args this start end_ fraction ps sa ea
                    (v :: a) [] h) as (h' & Hrun & Hthis); try done.
        -- unfold store_args. by rewrite Hst.
        -- unfold store_args. by rewrite Hen.
        -- cbn [length] in Hrun. cbn [length]. rewrite Hrun. exact Hthis.
      * simpl. unfold store_arc_round. simpl.
        unfold store_args. by rewrite Hst, Hen, Hsa, Hea.
    + simpl. unfold store_arc_round. simpl.
      unfold store_args. by rewrite Hst, Hsa.
Qed.

Lemma interpolate_writes_this_only_witness :
  let s := LineCommand (Some (mkPoint 0 0)) (Some (mkPoint 2 2)) in
  let e := LineCommand (Some (mkPoint 4 4)) (Some (mkPoint 6 6)) in
  let t := LineCommand (Some (mkPoint 9 9)) (Some (mkPoint 9 9)) in
  let h : gmap loc DrawCommand :=
    <[1%positive := t]> (<[2%positive := s]> (<[3%positive := e]> ∅)) in
  exists o,
    store_interpolate h 1%positive 2%positive 3%positive 0.5%float = Some o
    /\ final_state o !! 2%positive = Some s
    /\ final_state o !! 3%positive = Some e
    /\ (forall l, l <> 1%positive -> final_state o !! l = h !! l)
    /\ final_state o !! 1%positive
       = Some (final_state (DrawCommand_interpolate t s e 0.5%float)).
Proof.
  intros s e t h.
  apply (interpolate_writes_this_only h 1%positive 2%positive 3%positive
           0.5%float t s e); [done | done | | |]; reflexivity.
Defined.

(** * Further properties of the code *)

(** ** Morphability of sub-paths and paths *)

Lemma every2_map_eq {A B S : Type} (p : A -> B -> bool) (f : A -> S)
    (g : B -> S) (P : A -> Prop) :
  (forall a b, P a -> (p a b = true <-> f a = g b)) ->
  forall l m,
    Forall P l ->
    (bool_decide (length l = length m) && every2 p l m = true
     <-> map f l = map g m).
Proof.
  intros Hp. induction l as [| a l IH]; intros m Hall.
  - destruct m; [split; done |].
    split; [| done]. intros H. apply andb_true_iff in H as [H _].
    by apply bool_decide_eq_true in H.
  - destruct m as [| b m].
    { split; [| done]. intros H. apply andb_true_iff in H as [H _].
      by apply bool_decide_eq_true in H. }
    apply Forall_cons in Hall as [Ha Hall].
    specialize (IH m Hall). simpl.
    rewrite andb_true_iff, bool_decide_eq_true in IH.
    rewrite !andb_true_iff, bool_decide_eq_true, (Hp a b Ha).
    split.
    + intros (Hlen & Hab & Hrest). f_equal; [done |].
      apply IH. split; [lia | done].
    + intros Heq. injection Heq as Hab Hrest.
      apply IH in Hrest as [Hlen Hrest]. repeat split; [lia | done | done].
Qed.

Lemma isMorphableWith_skeleton c d :
  ctor c <> EllipticalArc ->
  (DrawCommand_isMorphableWith c d = true <-> cmd_skeleton c = cmd_skeleton d).
Proof.
  intros Hc. destruct c as [k ps | ps a]; [| done].
  rewrite isMorphableWith_points_spec. unfold cmd_skeleton. simpl points.
  split; [intros [-> ->]; done | intros H; by injection H].
Qed.

Lemma SubPath_isMorphableWith_skeleton sp q :
  arc_free sp ->
  (SubPath_isMorphableWith sp q = true
   <-> subpath_skeleton sp = subpath_skeleton q).
Proof.
  intros Hfree. unfold SubPath_isMorphableWith, subpath_skeleton.
  apply (every2_map_eq _ _ _ (fun c => ctor c <> EllipticalArc));
    [apply isMorphableWith_skeleton | exact Hfree].
Qed.

(** X1.  A path without arcs is morphable with another path exactly when
    the two have the same skeleton: as many sub-paths, as many commands in
    each, and commands of the same class with as many points at every
    position. *)
Theorem Path_isMorphableWith_skeleton (p q : PathCommand) :
  path_arc_free p ->
  (Path_isMorphableWith p q = true <-> path_skeleton p = path_skeleton q).
Proof.
  intros Hfree. unfold Path_isMorphableWith, path_skeleton.
  apply (every2_map_eq _ _ _ arc_free);
    [apply SubPath_isMorphableWith_skeleton | exact Hfree].
Qed.

Lemma Path_isMorphableWith_skeleton_witness :
  let p := mkPath [square] in
  Path_isMorphableWith p p = true <-> path_skeleton p = path_skeleton p.
Proof.
  intros p. apply (Path_isMorphableWith_skeleton p p).
  repeat constructor; discriminate.
Defined.

Lemma every2_refl {A : Type} (p : A -> A -> bool) (l : list A) :
  Forall (fun a => p a a = true) l -> every2 p l l = true.
Proof. induction 1 as [| a l Ha _ IH]; [done |]. simpl. by rewrite Ha, IH. Qed.

Lemma DrawCommand_isMorphableWith_refl c :
  DrawCommand_isMorphableWith c c = true.
Proof.
  destruct c as [k ps | ps a]; [| done].
  by apply isMorphableWith_points_spec.
Qed.

Lemma SubPath_isMorphableWith_refl sp : SubPath_isMorphableWith sp sp = true.
Proof.
  unfold SubPath_isMorphableWith. rewrite bool_decide_eq_true_2 by done.
  apply every2_refl, Forall_forall. intros c _.
  apply DrawCommand_isMorphableWith_refl.
Qed.

(** X2.  Every path is morphable with itself, arcs or not; among paths
    without arcs [isMorphableWith] is symmetric and transitive. *)
Theorem Path_isMorphableWith_equivalence (p q r : PathCommand) :
  Path_isMorphableWith p p = true
  /\ (path_arc_free p -> path_arc_free q ->
      Path_isMorphableWith p q = Path_isMorphableWith q p)
  /\ (path_arc_free p -> path_arc_free q ->
      Path_isMorphableWith p q = true -> Path_isMorphableWith q r = true ->
      Path_isMorphableWith p r = true).
Proof.
  assert (Path_morphable_skeleton : forall a b, path_arc_free a ->
            (Path_isMorphableWith a b = true
             <-> path_skeleton a = path_skeleton b)).
  { intros a b Hfree. unfold Path_isMorphableWith, path_skeleton.
    apply (every2_map_eq _ _ _ arc_free);
      [apply SubPath_isMorphableWith_skeleton | exact Hfree]. }
  split; [| split].
  - unfold Path_isMorphableWith. rewrite bool_decide_eq_true_2 by done.
    apply every2_refl, Forall_forall. intros sp _.
    apply SubPath_isMorphableWith_refl.
  - intros Hp Hq.
    pose proof (Path_morphable_skeleton p q Hp) as Hpq.
    pose proof (Path_morphable_skeleton q p Hq) as Hqp.
    destruct (Path_isMorphableWith p q), (Path_isMorphableWith q p);
      try done.
    + symmetry. apply Hqp. symmetry. by apply Hpq.
    + apply Hpq. symmetry. by apply Hqp.
  - intros Hp Hq Hpq Hqr.
    apply (Path_morphable_skeleton p r Hp).
    apply (Path_morphable_skeleton p q Hp) in Hpq.
    apply (Path_morphable_skeleton q r Hq) in Hqr. congruence.
Qed.

Lemma Path_isMorphableWith_equivalence_witness :
  let p := mkPath [square] in
  let q := mkPath [final_state (SubPath_reverse square)] in
  Path_isMorphableWith p q = Path_isMorphableWith q p.
Proof.
  intros p q.
  apply (proj1 (proj2 (Path_isMorphableWith_equivalence p q p)));
    repeat constructor; discriminate.
Defined.

(** ** When [interpolate] answers [false], and when [true] *)

(** X3.  At each level [interpolate] answers [false] in one case only: a
    morphability test of the receiver against [start] or [end] failed; the
    receiver is then what it was.  In every other case it answers [true]
    or throws. *)
Theorem interpolate_false_iff :
  (forall (p start end_ p' : PathCommand) (fraction : number),
      Path_interpolate p start end_ fraction = Returns false p'
      <-> (Path_isMorphableWith p start = false
           \/ Path_isMorphableWith p end_ = false) /\ p' = p)
  /\ (forall (p start end_ p' : SubPathCommand) (fraction : number),
         SubPath_interpolate p start end_ fraction = Returns false p'
         <-> (SubPath_isMorphableWith p start = false
              \/ SubPath_isMorphableWith p end_ = false) /\ p' = p)
  /\ (forall (p start end_ p' : DrawCommand) (fraction : number),
         DrawCommand_interpolate p start end_ fraction = Returns false p'
         <-> (DrawCommand_isMorphableWith p start = false
              \/ DrawCommand_isMorphableWith p end_ = false) /\ p' = p).
Proof.
  split; [| split]; intros p start end_ p' fraction.
  - unfold Path_interpolate.
    destruct (Path_isMorphableWith p start),
      (Path_isMorphableWith p end_); simpl;
      try (split; [intros H; injection H as <-; split; auto
                  | by intros [_ ->]]).
    destruct (forEach_from _ 0 (subpaths p)); split; try done;
      intros [[? | ?] _]; done.
  - unfold SubPath_interpolate.
    destruct (SubPath_isMorphableWith p start),
      (SubPath_isMorphableWith p end_); simpl;
      try (split; [intros H; injection H as <-; split; auto
                  | by intros [_ ->]]).
    destruct (forEach_from _ 0 (commands p)); split; try done;
      intros [[? | ?] _]; done.
  - destruct p as [k ps | ps a].
    + unfold DrawCommand_interpolate.
      destruct (DrawCommand_isMorphableWith (PointsCmd k ps) start),
        (DrawCommand_isMorphableWith (PointsCmd k ps) end_); simpl;
        try (split; [intros H; injection H as <-; split; auto
                    | by intros [_ ->]]).
      split; [done | intros [[? | ?] _]; done].
    + simpl. split.
      * destruct a; [done |]. by destruct (args start), (args end_).
      * intros [[? | ?] _]; done.
Qed.

(** *** Success on paths of the same skeleton *)

Lemma DrawCommand_isMorphableWith_of_skeleton c d :
  cmd_skeleton c = cmd_skeleton d -> DrawCommand_isMorphableWith c d = true.
Proof.
  intros H. destruct c as [k ps | ps a]; [| done].
  apply isMorphableWith_skeleton; [by destruct k | done].
Qed.

Lemma every2_of_map_eq {A B S : Type} (p : A -> B -> bool) (f : A -> S)
    (g : B -> S) :
  (forall a b, f a = g b -> p a b = true) ->
  forall l m,
    map f l = map g m ->
    bool_decide (length l = length m) && every2 p l m = true.
Proof.
  intros Hp. induction l as [| a l IH]; intros [| b m] Heq; try done.
  injection Heq as Hab Hrest. specialize (IH m Hrest).
  apply andb_true_iff in IH as [Hlen Hev].
  apply bool_decide_eq_true in Hlen. simpl.
  rewrite bool_decide_eq_true_2 by lia. by rewrite (Hp a b Hab), Hev.
Qed.

Lemma SubPath_isMorphableWith_of_skeleton sp q :
  subpath_skeleton sp = subpath_skeleton q ->
  SubPath_isMorphableWith sp q = true.
Proof.
  apply (every2_of_map_eq _ cmd_skeleton cmd_skeleton).
  apply DrawCommand_isMorphableWith_of_skeleton.
Qed.

Lemma Path_isMorphableWith_of_skeleton p q :
  path_skeleton p = path_skeleton q -> Path_isMorphableWith p q = true.
Proof.
  apply (every2_of_map_eq _ subpath_skeleton subpath_skeleton).
  apply SubPath_isMorphableWith_of_skeleton.
Qed.

Lemma DrawCommand_interpolate_skeleton c s e f :
  cmd_skeleton s = cmd_skeleton c -> cmd_skeleton e = cmd_skeleton c ->
  exists c',
    DrawCommand_interpolate c s e f = Returns true c'
    /\ cmd_skeleton c' = cmd_skeleton c.
Proof.
  intros Hs He.
  pose proof (interpolate_same_shape c s e f) as (Hc & _ & Hl & _).
  assert (Hsk : cmd_skeleton
                  (final_state (DrawCommand_interpolate c s e f))
                = cmd_skeleton c)
    by (unfold cmd_skeleton; by rewrite Hc, Hl).
  destruct c as [k ps | ps a].
  - unfold DrawCommand_interpolate in *.
    rewrite !DrawCommand_isMorphableWith_of_skeleton in * by done.
    simpl in *. eauto.
  - destruct s as [ks pss | pss sa]; [by destruct ks |].
    destruct e as [ke pse | pse ea]; [by destruct ke |].
    destruct a as [| v a]; simpl in *; eauto.
Qed.

(** The loop over the elements, when each call returns. *)
Lemma forEach_from_returns {A B S : Type} (sk : A -> S) (skb : B -> S)
    (call : A -> B -> B -> outcome bool A) :
  (forall a b1 b2, skb b1 = sk a -> skb b2 = sk a ->
     exists a', call a b1 b2 = Returns true a' /\ sk a' = sk a) ->
  forall l pre1 pre2 l1 l2,
    length pre1 = length pre2 ->
    map skb l1 = map sk l -> map skb l2 = map sk l ->
    exists l',
      forEach_from
        (fun i a =>
           match (pre1 ++ l1) !! i, (pre2 ++ l2) !! i with
           | Some b1, Some b2 => call a b1 b2
           | _, _ => Throws a
           end)
        (length pre1) l
      = Returns tt l'
      /\ map sk l' = map sk l.
Proof.
  intros Hcall. induction l as [| a l IH]; intros pre1 pre2 l1 l2 Hpre H1 H2.
  - by exists [].
  - destruct l1 as [| b1 l1]; [done |]. destruct l2 as [| b2 l2]; [done |].
    injection H1 as Hb1 H1. injection H2 as Hb2 H2.
    destruct (Hcall a b1 b2 Hb1 Hb2) as (a' & Ha & Hsk).
    destruct (IH (pre1 ++ [b1]) (pre2 ++ [b2]) l1 l2) as (l' & Hl & Hskl);
      [by rewrite !length_app, Hpre | done | done |].
    exists (a' :: l'). simpl.
    rewrite (list_lookup_middle pre1 l1 b1) by done.
    rewrite (list_lookup_middle pre2 l2 b2) by done. rewrite Ha.
    rewrite !length_app in Hl. simpl in Hl. rewrite Nat.add_1_r in Hl.
    rewrite <- !app_assoc in Hl. simpl in Hl. rewrite Hl.
    split; [done |]. simpl. by rewrite Hsk, Hskl.
Qed.

Lemma SubPath_interpolate_skeleton sp s e f :
  subpath_skeleton s = subpath_skeleton sp ->
  subpath_skeleton e = subpath_skeleton sp ->
  exists sp',
    SubPath_interpolate sp s e f = Returns true sp'
    /\ subpath_skeleton sp' = subpath_skeleton sp.
Proof.
  intros Hs He. unfold SubPath_interpolate.
  rewrite !SubPath_isMorphableWith_of_skeleton by done. simpl.
  destruct (forEach_from_returns cmd_skeleton cmd_skeleton
              (fun c b1 b2 => DrawCommand_interpolate c b1 b2 f)
              (fun c b1 b2 => DrawCommand_interpolate_skeleton c b1 b2 f)
              (commands sp) [] [] (commands s) (commands e))
    as (l' & Hl & Hsk); try done.
  simpl in Hl. rewrite Hl. by exists (mkSubPath l').
Qed.

(** X4.  When [start] and [end] have the skeleton of the receiver (arcs
    facing arcs included), [interpolate] answers [true] without throwing,
    and the receiver keeps its skeleton: it is still morphable with
    [start] and with [end], so that the next call succeeds as well. *)
Theorem Path_interpolate_skeleton (p start end_ : PathCommand)
    (fraction : number) :
  path_skeleton start = path_skeleton p ->
  path_skeleton end_ = path_skeleton p ->
  exists p',
    Path_interpolate p start end_ fraction = Returns true p'
    /\ path_skeleton p' = path_skeleton p
    /\ Path_isMorphableWith p' start = true
    /\ Path_isMorphableWith p' end_ = true.
Proof.
  intros Hs He. unfold Path_interpolate.
  rewrite !Path_isMorphableWith_of_skeleton by done. simpl.
  destruct (forEach_from_returns subpath_skeleton subpath_skeleton
              (fun c b1 b2 => SubPath_interpolate c b1 b2 fraction)
              (fun c b1 b2 => SubPath_interpolate_skeleton c b1 b2 fraction)
              (subpaths p) [] [] (subpaths start) (subpaths end_))
    as (l' & Hl & Hsk); try done.
  simpl in Hl. rewrite Hl. exists (mkPath l').
  split; [done |]. split; [exact Hsk |].
  unfold path_skeleton in Hs, He, Hsk.
  split; apply Path_isMorphableWith_of_skeleton; unfold path_skeleton;
    simpl; congruence.
Qed.

Lemma Path_interpolate_skeleton_witness :
  let p := mkPath [square] in
  let q := mkPath [final_state (SubPath_reverse square)] in
  exists p',
    Path_interpolate p p q 0.5%float = Returns true p'
    /\ path_skeleton p' = path_skeleton p
    /\ Path_isMorphableWith p' p = true
    /\ Path_isMorphableWith p' q = true.
Proof.
  intros p q.
  apply (Path_interpolate_skeleton p p q 0.5%float); reflexivity.
Defined.

(** ** What [interpolate] leaves in the point array *)

Lemma points_get_set_in i j v (l : list slot) :
  i < length l ->
  points_get j (points_set i v l)
  = if decide (i = j) then v else points_get j l.
Proof.
  intros Hi. unfold points_get, points_set, array_get, array_set.
  rewrite decide_True by done. rewrite !nth_lookup.
  destruct (decide (i = j)) as [-> | Hne].
  - by rewrite list_lookup_insert_eq.
  - by rewrite list_lookup_insert_ne.
Qed.

Lemma interpolate_point_get sps eps f i j (ps : list slot) :
  i < length ps ->
  points_get j (interpolate_point sps eps f i ps)
  = if decide (i = j)
    then interpolated_slot (points_get i sps) (points_get i eps)
           (points_get i ps) f
    else points_get j ps.
Proof.
  intros Hi. unfold interpolate_point, interpolated_slot.
  destruct (points_get i sps) as [sp |];
    [destruct (points_get i eps) as [ep |] |];
    try (by destruct (decide (i = j)) as [-> |]).
  by rewrite points_get_set_in.
Qed.

Lemma interpolate_rounds_get sps eps f (ps : list slot) n j :
  n <= length ps ->
  points_get j
    (foldl (fun ps i => interpolate_point sps eps f i ps) ps (seq 0 n))
  = if decide (j < n)
    then interpolated_slot (points_get j sps) (points_get j eps)
           (points_get j ps) f
    else points_get j ps.
Proof.
  revert j. induction n as [| n IH]; intros j Hn; [done |].
  rewrite seq_S, foldl_app. simpl.
  rewrite interpolate_point_get
    by (rewrite interpolate_rounds_length; [lia |];
        apply Forall_forall; intros i Hi;
        apply list_elem_of_In, in_seq in Hi; lia).
  rewrite (IH j), (IH n) by lia.
  destruct (decide (n = j)) as [-> | Hne].
  - rewrite decide_False by lia. by rewrite decide_True by lia.
  - destruct (decide (j < n)).
    + by rewrite decide_True by lia.
    + by rewrite decide_False by lia.
Qed.

(** What the rounds of [interpolate] leave at each index of a point array
    that is as long as that of [start]. *)
Lemma interpolate_points_get sps eps f (ps : list slot) i :
  length ps = length sps ->
  points_get i (interpolate_points sps eps f ps)
  = interpolated_slot (points_get i sps) (points_get i eps)
      (points_get i ps) f.
Proof.
  intros Hs. unfold interpolate_points.
  rewrite interpolate_rounds_get by lia.
  destruct (decide (i < length sps)) as [| Hge]; [done |].
  unfold interpolated_slot, points_get, array_get.
  by rewrite (nth_overflow sps) by lia.
Qed.

(** X5.  A point-list command that is morphable with [start] and with
    [end] is left by [interpolate] with as many points as before; at each
    index where [start] and [end] both have a point it holds the point
    [(lerp(start.x, end.x, fraction), lerp(start.y, end.y, fraction))],
    and at each other index what it held before (so the missing start of
    a first move stays missing). *)
Theorem interpolate_pointwise (k : PointsClass) (ps : list slot)
    (start end_ : DrawCommand) (fraction : number) :
  DrawCommand_isMorphableWith (PointsCmd k ps) start = true ->
  DrawCommand_isMorphableWith (PointsCmd k ps) end_ = true ->
  exists ps',
    DrawCommand_interpolate (PointsCmd k ps) start end_ fraction
    = Returns true (PointsCmd k ps')
    /\ length ps' = length ps
    /\ forall i,
         points_get i ps'
         = interpolated_slot (points_get i (points start))
             (points_get i (points end_)) (points_get i ps) fraction.
Proof.
  intros Hs He. unfold DrawCommand_interpolate. rewrite Hs, He. simpl.
  apply isMorphableWith_points_spec in Hs as [_ Hs].
  apply isMorphableWith_points_spec in He as [_ He].
  eexists. split; [reflexivity |].
  split; [by apply interpolate_points_length |].
  intros i. by apply interpolate_points_get.
Qed.

Lemma interpolate_pointwise_witness :
  exists ps',
    DrawCommand_interpolate
      (MoveCommand None (Some (mkPoint 9 9)))
      (MoveCommand None (Some (mkPoint 0 0)))
      (MoveCommand (Some (mkPoint 1 1)) (Some (mkPoint 4 8))) 0.5%float
    = Returns true (PointsCmd CMove ps')
    /\ length ps' = 2
    /\ forall i,
         points_get i ps'
         = interpolated_slot
             (points_get i [None; Some (mkPoint 0 0)])
             (points_get i [Some (mkPoint 1 1); Some (mkPoint 4 8)])
             (points_get i [None; Some (mkPoint 9 9)]) 0.5%float.
Proof.
  apply (interpolate_pointwise CMove [None; Some (mkPoint 9 9)]
           (MoveCommand None (Some (mkPoint 0 0)))
           (MoveCommand (Some (mkPoint 1 1)) (Some (mkPoint 4 8)))
           0.5%float); reflexivity.
Defined.

Lemma points_get_ext (l m : list slot) :
  length l = length m ->
  (forall i, i < length l -> points_get i l = points_get i m) -> l = m.
Proof.
  intros Hlen Hget. apply list_eq. intros i.
  destruct (decide (i < length l)) as [Hi | Hi].
  - specialize (Hget i Hi). unfold points_get, array_get in Hget.
    destruct (lookup_lt_is_Some_2 l i Hi) as [v Hv].
    destruct (lookup_lt_is_Some_2 m i) as [w Hw]; [lia |].
    rewrite (nth_lookup_Some _ _ _ _ Hv), (nth_lookup_Some _ _ _ _ Hw) in Hget.
    congruence.
  - rewrite !lookup_ge_None_2 by lia. done.
Qed.

(** X6.  When every point of [start] and of [end] is there, what
    [interpolate] leaves in the receiver does not depend on what the
    receiver held: two commands of the same class that are morphable with
    [start] and [end] end up equal. *)
Theorem interpolate_overwrites (k : PointsClass) (ps1 ps2 : list slot)
    (start end_ : DrawCommand) (fraction : number) :
  Forall is_Some (points start) -> Forall is_Some (points end_) ->
  DrawCommand_isMorphableWith (PointsCmd k ps1) start = true ->
  DrawCommand_isMorphableWith (PointsCmd k ps1) end_ = true ->
  length ps2 = length ps1 ->
  DrawCommand_interpolate (PointsCmd k ps1) start end_ fraction
  = DrawCommand_interpolate (PointsCmd k ps2) start end_ fraction.
Proof.
  intros Hsall Heall Hs1 He1 Hlen.
  assert (Hs2 : DrawCommand_isMorphableWith (PointsCmd k ps2) start = true).
  { apply isMorphableWith_points_spec in Hs1 as [Hc Hl].
    apply isMorphableWith_points_spec. split; [done | lia]. }
  assert (He2 : DrawCommand_isMorphableWith (PointsCmd k ps2) end_ = true).
  { apply isMorphableWith_points_spec in He1 as [Hc Hl].
    apply isMorphableWith_points_spec. split; [done | lia]. }
  unfold DrawCommand_interpolate. rewrite Hs1, He1, Hs2, He2. simpl.
  apply isMorphableWith_points_spec in Hs1 as [_ Hls].
  apply isMorphableWith_points_spec in He1 as [_ Hle].
  assert (Hval : forall i (old old' : slot), i < length ps1 ->
            interpolated_slot (points_get i (points start))
              (points_get i (points end_)) old fraction
            = interpolated_slot (points_get i (points start))
                (points_get i (points end_)) old' fraction).
  { intros i old old' Hi.
    destruct (lookup_lt_is_Some_2 (points start) i) as [sv Hsv]; [lia |].
    destruct (lookup_lt_is_Some_2 (points end_) i) as [ev Hev]; [lia |].
    pose proof (Forall_lookup_1 _ _ _ _ Hsall Hsv) as [sp ->].
    pose proof (Forall_lookup_1 _ _ _ _ Heall Hev) as [ep ->].
    unfold points_get, array_get.
    by rewrite (nth_lookup_Some _ _ _ _ Hsv), (nth_lookup_Some _ _ _ _ Hev). }
  do 2 f_equal. apply points_get_ext.
  { rewrite !interpolate_points_length; lia. }
  intros i Hi. rewrite interpolate_points_length in Hi by lia.
  rewrite !interpolate_points_get by lia. by apply Hval.
Qed.

Lemma interpolate_overwrites_witness :
  let s := LineCommand (Some (mkPoint 0 0)) (Some (mkPoint 2 2)) in
  let e := LineCommand (Some (mkPoint 4 4)) (Some (mkPoint 6 6)) in
  DrawCommand_interpolate (LineCommand None None) s e 0.5%float
  = DrawCommand_interpolate
      (LineCommand (Some (mkPoint 7 7)) (Some (mkPoint 9 9))) s e 0.5%float.
Proof.
  intros s e.
  apply (interpolate_overwrites CLine [None; None]
           [Some (mkPoint 7 7); Some (mkPoint 9 9)] s e 0.5%float);
    try reflexivity; repeat constructor; eexists; reflexivity.
Defined.

(** ** Reversing one command *)

Lemma reverse_args_nine a0 a1 a2 a3 a4 a5 a6 a7 a8 rest :
  reverse_args (a0 :: a1 :: a2 :: a3 :: a4 :: a5 :: a6 :: a7 :: a8 :: rest)
  = a7 :: a8 :: a2 :: a3 :: a4 :: a5
      :: (if strict_eq a6 0%float then 1%float else 0%float)
      :: a0 :: a1 :: rest.
Proof.
  unfold reverse_args, args_set, array_set, args_get, array_get. cbv zeta.
  repeat (rewrite decide_True by (simpl; lia); simpl).
  reflexivity.
Qed.

(** X7.  On an arc holding its nine arguments, [reverse] exchanges
    [(args[0], args[1])] with [(args[7], args[8])], sets the sweep flag to
    [1] when it was [=== 0] and to [0] otherwise, and leaves the radii,
    the rotation, the large-arc flag and any further argument alone; when
    the sweep flag is [0] or [1], a second [reverse] gives back the arc as
    it was. *)
Theorem arc_reverse_involutive (ps : list slot) (a : list number) :
  9 <= length a ->
  (exists a0 a1 a2 a3 a4 a5 a6 a7 a8 rest,
      a = a0 :: a1 :: a2 :: a3 :: a4 :: a5 :: a6 :: a7 :: a8 :: rest
      /\ DrawCommand_reverse (ArcCmd ps a)
         = ArcCmd ps
             (a7 :: a8 :: a2 :: a3 :: a4 :: a5
                :: (if strict_eq a6 0%float then 1%float else 0%float)
                :: a0 :: a1 :: rest))
  /\ (a !! 6 = Some 0%float \/ a !! 6 = Some 1%float ->
      DrawCommand_reverse (DrawCommand_reverse (ArcCmd ps a)) = ArcCmd ps a).
Proof.
  intros Hlen.
  destruct a as [| a0 [| a1 [| a2 [| a3 [| a4 [| a5 [| a6 [| a7 [| a8 rest]]]]]]]]];
    simpl in Hlen; try lia.
  split.
  - exists a0, a1, a2, a3, a4, a5, a6, a7, a8, rest.
    split; [done |]. simpl. by rewrite reverse_args_nine.
  - intros Hflag. simpl DrawCommand_reverse.
    rewrite !reverse_args_nine. simpl in Hflag.
    by destruct Hflag as [Hf | Hf]; injection Hf as ->.
Qed.

Lemma arc_reverse_involutive_witness :
  let arc := EllipticalArcCommand [0; 0; 1; 1; 0; 0; 0; 5; 5]%float in
  DrawCommand_reverse (DrawCommand_reverse arc) = arc.
Proof.
  intros arc.
  refine (proj2 (arc_reverse_involutive _ [0; 0; 1; 1; 0; 0; 0; 5; 5]%float
                   _) _).
  - simpl. lia.
  - left. reflexivity.
Defined.

(** X8.  The inherited [reverse] exchanges the start and the end of a
    command that has a start; applied twice it gives back the command as
    it was when the command has no start (nothing happens) or has an end;
    with a start and no end, the second [reverse] finds no start and does
    nothing. *)
Theorem DrawCommand_reverse_twice (k : PointsClass) (ps : list slot) :
  let c := PointsCmd k ps in
  (is_Some (cmd_start c) ->
   cmd_start (DrawCommand_reverse c) = cmd_end c
   /\ cmd_end (DrawCommand_reverse c) = cmd_start c)
  /\ (cmd_start c = None \/ is_Some (cmd_end c) ->
      DrawCommand_reverse (DrawCommand_reverse c) = c)
  /\ (is_Some (cmd_start c) -> cmd_end c = None ->
      DrawCommand_reverse (DrawCommand_reverse c) = DrawCommand_reverse c).
Proof.
  intros c. unfold c. split; [| split].
  - intros [p Hp]. simpl. rewrite Hp.
    by rewrite cmd_start_rev, cmd_end_rev.
  - intros [Hnone | [q Hq]].
    + simpl. rewrite Hnone. simpl. by rewrite Hnone.
    + simpl. destruct (cmd_start (PointsCmd k ps)) eqn:Hs.
      * simpl. by rewrite cmd_start_rev, Hq, rev_involutive.
      * simpl. by rewrite Hs.
  - intros [p Hp] Hq. simpl. rewrite Hp. simpl.
    by rewrite cmd_start_rev, Hq.
Qed.

Lemma DrawCommand_reverse_twice_witness :
  let c :=
    BezierCurveCommand (Some (mkPoint 0 0)) (Some (mkPoint 1 2))
                       (Some (mkPoint 3 4)) (Some (mkPoint 10 0)) in
  DrawCommand_reverse (DrawCommand_reverse c) = c.
Proof.
  intros c.
  refine (proj1 (proj2 (DrawCommand_reverse_twice CBezierCurve _)) _).
  right. eexists. reflexivity.
Defined.

(** ** Reversing a sub-path *)

Lemma ctor_reverse c : ctor (DrawCommand_reverse c) = ctor c.
Proof.
  destruct c as [k ps | ps a]; [| done].
  simpl. by destruct (cmd_start (PointsCmd k ps)).
Qed.

Lemma promote_last_length t : length (promote_last t) = length t.
Proof.
  destruct (snoc_cases t) as [-> | (t' & k & ->)]; [done |].
  rewrite promote_last_snoc, !length_app. done.
Qed.

Lemma demote_promote_length t : length (demote_promote t) = length t.
Proof.
  destruct t as [| c t]; [done |]. unfold demote_promote.
  case_bool_decide; [| done]. by rewrite promote_last_length.
Qed.

Lemma demote_promote_last_end t :
  (cmd_end <$> last (demote_promote t)) = (cmd_end <$> last t).
Proof.
  destruct t as [| c t]; [done |]. unfold demote_promote.
  case_bool_decide; [| done].
  destruct (snoc_cases t) as [-> | (t' & k & ->)]; [done |].
  by rewrite app_comm_cons, promote_last_snoc, app_comm_cons, !last_snoc.
Qed.

Lemma reversed_tail_last c1 t :
  last (map DrawCommand_reverse (rev (c1 :: t)))
  = Some (DrawCommand_reverse c1).
Proof. cbn [rev]. rewrite map_app. cbn [map]. by rewrite last_snoc. Qed.

(** X9.  On a sub-path of two commands or more, [reverse] returns and
    leaves as many commands as there were; the first of them is a new
    move with the start of the old first command; the sub-path now starts
    at the point where it ended, and ends at the end point of the reversed
    second command. *)
Theorem SubPath_reverse_ends (c0 c1 : DrawCommand) (t : list DrawCommand) :
  let this := mkSubPath (c0 :: c1 :: t) in
  exists e rest,
    SubPath_end this = Value e
    /\ SubPath_reverse this
       = Returns tt (mkSubPath (MoveCommand (cmd_start c0) e :: rest))
    /\ length rest = length (c1 :: t)
    /\ SubPath_start (mkSubPath (MoveCommand (cmd_start c0) e :: rest))
       = Value e
    /\ SubPath_end (mkSubPath (MoveCommand (cmd_start c0) e :: rest))
       = Value (cmd_end (DrawCommand_reverse c1)).
Proof.
  intros this.
  destruct (last_cons_Some c1 t) as [l Hl].
  exists (cmd_end l),
    (demote_promote (map DrawCommand_reverse (rev (c1 :: t)))).
  assert (Hlen : length (demote_promote
                           (map DrawCommand_reverse (rev (c1 :: t))))
                 = length (c1 :: t))
    by (by rewrite demote_promote_length, length_map, length_rev).
  split; [| split; [| split; [| split]]].
  - unfold SubPath_end, this. simpl commands. by rewrite last_cons, Hl.
  - by apply SubPath_reverse_form.
  - exact Hlen.
  - reflexivity.
  - unfold SubPath_end. simpl commands. rewrite last_cons.
    pose proof (demote_promote_last_end
                  (map DrawCommand_reverse (rev (c1 :: t)))) as Hend.
    rewrite reversed_tail_last in Hend.
    destruct (last (demote_promote _)) as [k |]; [| done].
    simpl in Hend. by injection Hend as ->.
Qed.

(** X10.  [reverse] keeps a closing close-path at the end: when the last
    command of a sub-path of two commands or more is a close-path, so is
    the last command afterwards, and with three commands or more the
    second one is then a line.  When the last command is not a
    close-path, the commands behind the move are the old ones, each
    reversed, in reverse order. *)
Theorem SubPath_reverse_close (c0 c1 : DrawCommand) (t : list DrawCommand)
    (l : DrawCommand) :
  last (c1 :: t) = Some l ->
  let after := commands (final_state
                           (SubPath_reverse (mkSubPath (c0 :: c1 :: t)))) in
  (ctor l = ClosePath ->
   (ctor <$> last after) = Some ClosePath
   /\ (t <> [] -> (ctor <$> after !! 1) = Some Line))
  /\ (ctor l <> ClosePath ->
      tail after = map DrawCommand_reverse (rev (c1 :: t))).
Proof.
  intros Hl after. unfold after.
  destruct (last_Some_snoc _ _ Hl) as [pre Hpre].
  assert (Hrev : map DrawCommand_reverse (rev (c1 :: t))
                 = DrawCommand_reverse l
                     :: map DrawCommand_reverse (rev pre)).
  { rewrite Hpre, rev_unit. done. }
  rewrite (SubPath_reverse_form _ _ _ l Hl), Hrev.
  cbn [final_state commands]. split.
  - intros Hc. unfold demote_promote.
    rewrite bool_decide_eq_true_2 by (by rewrite ctor_reverse).
    destruct (snoc_cases (map DrawCommand_reverse (rev pre)))
      as [Hnil | (m & k & Hm)].
    + rewrite Hnil. split; [done |]. intros Ht.
      apply (f_equal length) in Hnil.
      rewrite length_map, length_rev in Hnil.
      destruct pre; [| done]. destruct t; [done |].
      apply (f_equal length) in Hpre. simpl in Hpre. lia.
    + rewrite Hm, app_comm_cons, promote_last_snoc.
      rewrite last_cons, last_snoc. done.
  - intros Hc. cbn [tail].
    by rewrite demote_promote_plain by (by rewrite ctor_reverse).
Qed.

Lemma SubPath_reverse_close_witness :
  let after := commands (final_state (SubPath_reverse square)) in
  (ctor <$> last after) = Some ClosePath
  /\ ((ctor <$> after !! 1) = Some Line).
Proof.
  intros after.
  destruct (proj1 (SubPath_reverse_close
                     (MoveCommand None (Some (mkPoint 0 0)))
                     (LineCommand (Some (mkPoint 0 0)) (Some (mkPoint 10 0)))
                     [LineCommand (Some (mkPoint 10 0)) (Some (mkPoint 10 10));
                      ClosePathCommand (Some (mkPoint 10 10))
                                       (Some (mkPoint 0 0))]
                     (ClosePathCommand (Some (mkPoint 10 10))
                                       (Some (mkPoint 0 0)))
                     eq_refl) eq_refl) as [Hlast Hsecond].
  split; [exact Hlast | by apply Hsecond].
Defined.

(** ** When the sub-path operations throw *)

(** X11.  [isClosed] throws exactly on a sub-path that is empty or whose
    first or last command has no end point.  [reverse] throws exactly on
    the empty sub-path; [shiftBack] throws exactly when the sub-path has
    not one command and [isClosed] throws.  A call that throws leaves the
    sub-path as it was. *)
Theorem SubPath_throws_iff (this after : SubPathCommand) :
  (isClosed this = TypeError
   <-> commands this = []
       \/ (exists c, head (commands this) = Some c /\ cmd_end c = None)
       \/ (exists l, last (commands this) = Some l /\ cmd_end l = None))
  /\ (SubPath_reverse this = Throws after
      <-> commands this = [] /\ after = this)
  /\ (shiftBack this = Throws after
      <-> length (commands this) <> 1 /\ isClosed this = TypeError
          /\ after = this).
Proof.
  split; [| split].
  - unfold isClosed, SubPath_start, SubPath_end.
    destruct this as [[| c0 cmds]]; simpl commands; [split; auto |].
    destruct (last_cons_Some c0 cmds) as [l Hl]. rewrite Hl.
    split.
    + intros H. right.
      destruct (cmd_end c0) eqn:H0; [| left; eauto].
      destruct (cmd_end l) eqn:H1; [done | right; eauto].
    + intros [? | [(c & Hc & Hend) | (l' & Hl' & Hend)]]; [done | |].
      * injection Hc as <-. by rewrite Hend.
      * injection Hl' as <-. rewrite Hend. by destruct (cmd_end c0).
  - unfold SubPath_reverse.
    destruct this as [[| c0 [| c1 cmds]]]; simpl commands.
    + split; [intros H; by injection H as <- | by intros [_ ->]].
    + split; [done | by intros [? _]].
    + destruct (last_cons_Some c0 (c1 :: cmds)) as [l Hl]. rewrite Hl.
      split; [done | by intros [? _]].
  - unfold shiftBack. case_bool_decide as Hone.
    + split; [done | by intros [? _]].
    + destruct (isClosed this) as [[|] |].
      * split; [done | by intros (_ & ? & _)].
      * split; [done | by intros (_ & ? & _)].
      * split; [intros H; by injection H as <- | by intros (_ & _ & ->)].
Qed.

(** ** The number of commands *)

Lemma shiftBack_times_length n : forall this,
  length (commands (final_state (shiftBack_times n this)))
  = length (commands this).
Proof.
  induction n as [| n IH]; intros this; [done |].
  simpl. pose proof (shiftBack_length this) as Hlen.
  destruct (shiftBack this) as [[] s | s]; simpl in Hlen.
  - by rewrite IH.
  - done.
Qed.

(** X12.  [reverse], [shiftBack] and [shiftForward] leave the sub-path
    with as many commands as it had, however they complete. *)
Theorem SubPath_length_kept (this : SubPathCommand) :
  length (commands (final_state (SubPath_reverse this)))
  = length (commands this)
  /\ length (commands (final_state (shiftBack this)))
     = length (commands this)
  /\ length (commands (final_state (shiftForward this)))
     = length (commands this).
Proof.
  split; [| split].
  - destruct this as [[| c0 [| c1 t]]]; try done.
    destruct (last_cons_Some c1 t) as [l Hl].
    rewrite (SubPath_reverse_form _ _ _ l Hl). cbn [final_state commands].
    cbn [length]. by rewrite demote_promote_length, length_map, length_rev.
  - apply shiftBack_length.
  - unfold shiftForward. case_bool_decide; [done |].
    destruct (isClosed this) as [[|] |]; try done.
    apply shiftBack_times_length.
Qed.

(** ** Shifting forward, then back *)

Lemma iter_rotate_keeps {A : Type} (P : list A -> Prop) :
  (forall l, P l -> P (rotate_last_to_front l)) ->
  forall k l, P l -> P (Nat.iter k rotate_last_to_front l).
Proof. intros HP. induction k as [| k IH]; intros l Hl; simpl; auto. Qed.

Lemma rotate_iter_pred {A : Type} (h : A) (t : list A) :
  rotate_last_to_front (Nat.iter (length t) rotate_last_to_front (h :: t))
  = h :: t.
Proof.
  change (Nat.iter (S (length t)) rotate_last_to_front (h :: t) = h :: t).
  apply (rotate_iter_length (h :: t)).
Qed.

Lemma Forall_rotate {A : Type} (P : A -> Prop) (l : list A) :
  Forall P l -> Forall P (rotate_last_to_front l).
Proof.
  intros Hall. destruct (snoc_cases l) as [-> | (l' & z & ->)]; [done |].
  rewrite rotate_last_to_front_app.
  apply Forall_app in Hall as [Hl Hz]. apply Forall_cons.
  by inversion Hz.
Qed.

(** X13.  The other order: on the same closed loops (no close-path, or
    lines closed by one final close-path), [shiftForward] followed by
    [shiftBack] also gives back the sub-path it started from. *)
Theorem shiftForward_shiftBack_round_trip (s : slot) (h : DrawCommand)
    (t : list DrawCommand) :
  let this := mkSubPath (MoveCommand s (cmd_start h) :: h :: t) in
  cycle (fun a b => joined (seg a) (seg b)) (h :: t) ->
  Forall (fun c => ctor c <> ClosePath) (h :: t)
  \/ (exists ps, 2 <= length ps /\ h :: t = polygon ps) ->
  exists shifted,
    shiftForward this = Returns tt shifted
    /\ shiftBack shifted = Returns tt this.
Proof.
  intros this Hloop [Hplain | (ps & Hlen & Hps)].
  - set (ys := Nat.iter (length t) rotate_last_to_front (h :: t)).
    assert (Hys : rotate_last_to_front ys = h :: t)
      by apply rotate_iter_pred.
    destruct (plain_round_trip s ys) as (_ & Hb & Hf).
    + intros Hnil. by rewrite Hnil in Hys.
    + by apply (iter_rotate_keeps _ (Forall_rotate _)).
    + by apply (iter_rotate_keeps _ (cycle_rotate _)).
    + rewrite Hys in Hb, Hf. exists (seam id seg s ys). split; [exact Hf |].
      exact Hb.
  - assert (Hne : ps <> []) by (intros ->; simpl in Hlen; lia).
    assert (Hsegs : map seg (h :: t) = ps)
      by (rewrite Hps; by apply map_seg_polygon).
    assert (Hloop' : cycle joined ps).
    { rewrite <- Hsegs. by apply cycle_map. }
    assert (Hthis : seam polygon id s ps = this).
    { unfold seam, this. rewrite <- Hps. do 3 f_equal.
      rewrite <- Hsegs. reflexivity. }
    destruct ps as [| p ps']; [done |].
    set (ys := Nat.iter (length ps') rotate_last_to_front (p :: ps')).
    assert (Hys : rotate_last_to_front ys = p :: ps')
      by apply rotate_iter_pred.
    destruct (polygon_round_trip s ys) as (_ & Hb & Hf).
    + apply (f_equal length) in Hys.
      rewrite rotate_last_to_front_length in Hys. lia.
    + by apply (iter_rotate_keeps _ (cycle_rotate _)).
    + rewrite Hys, Hthis in Hb, Hf.
      exists (seam polygon id s ys). split; [exact Hf | exact Hb].
Qed.

Lemma shiftForward_shiftBack_round_trip_witness :
  exists shifted,
    shiftForward square = Returns tt shifted
    /\ shiftBack shifted = Returns tt square.
Proof.
  refine (shiftForward_shiftBack_round_trip None
            (LineCommand (Some (mkPoint 0 0)) (Some (mkPoint 10 0)))
            [LineCommand (Some (mkPoint 10 0)) (Some (mkPoint 10 10));
             ClosePathCommand (Some (mkPoint 10 10))
                              (Some (mkPoint 0 0))] _ _).
  - simpl. repeat split;
      [exists (mkPoint 10 0) | exists (mkPoint 10 10) | exists (mkPoint 0 0)];
      repeat split.
  - right.
    exists [(Some (mkPoint 0 0), Some (mkPoint 10 0));
            (Some (mkPoint 10 0), Some (mkPoint 10 10));
            (Some (mkPoint 10 10), Some (mkPoint 0 0))].
    split; [simpl; lia | reflexivity].
Defined.

(** ** Rendering *)

Lemma DrawCommand_execute_drawable c :
  drawable c \/ ctor c = EllipticalArc ->
  DrawCommand_execute c = Value (call_of c) /\ length (call_of c) = 1.
Proof.
  intros [(k & s & ps & -> & Hlen & Hall) | Harc].
  - destruct k; simpl in Hlen;
      repeat (destruct ps as [| ? ps]; simpl in Hlen; try lia);
      repeat match goal with
             | H : Forall _ (_ :: _) |- _ =>
                 apply Forall_cons in H as [[? ->] H]
             end; done.
  - destruct c as [k ps | ps a]; [by destruct k | done].
Qed.

Lemma execute_commands_drawable cmds :
  Forall (fun c => drawable c \/ ctor c = EllipticalArc) cmds ->
  execute_commands cmds = Returns tt (concat (map call_of cmds))
  /\ length (concat (map call_of cmds)) = length cmds.
Proof.
  induction 1 as [| c cmds Hc _ [IH IHlen]]; [done |].
  destruct (DrawCommand_execute_drawable c Hc) as [Hex Hone].
  simpl. rewrite Hex, IH. split; [done |].
  rewrite length_app, Hone, IHlen. done.
Qed.

Lemma execute_subpaths_drawable sps :
  Forall (fun sp => Forall (fun c => drawable c \/ ctor c = EllipticalArc)
                      (commands sp)) sps ->
  execute_subpaths sps
  = Returns tt
      (concat (map (fun sp => concat (map call_of (commands sp))) sps))
  /\ length (concat (map (fun sp => concat (map call_of (commands sp))) sps))
     = length (concat (map commands sps)).
Proof.
  induction 1 as [| sp sps Hsp _ [IH IHlen]]; [done |].
  destruct (execute_commands_drawable _ Hsp) as [Hex Hlen].
  simpl. unfold SubPath_execute. rewrite Hex, IH. split; [done |].
  rewrite !length_app, Hlen, IHlen. done.
Qed.

(** X14.  A path whose commands are arcs or point-list commands built by
    their constructors with every point but perhaps the start is rendered
    without a throw: the canvas receives [beginPath] and then one call for
    each command, sub-path after sub-path, in order. *)
Theorem Path_execute_drawable (p : PathCommand) :
  Forall (fun sp => Forall (fun c => drawable c \/ ctor c = EllipticalArc)
                      (commands sp)) (subpaths p) ->
  let calls :=
    concat (map (fun sp => concat (map call_of (commands sp))) (subpaths p)) in
  Path_execute p = Returns tt (beginPath :: calls)
  /\ length calls = length (concat (map commands (subpaths p))).
Proof.
  intros Hall calls. unfold Path_execute, calls.
  destruct (execute_subpaths_drawable _ Hall) as [-> Hlen]. by split.
Qed.

Lemma Path_execute_drawable_witness :
  Path_execute (mkPath [square])
  = Returns tt [beginPath; moveTo 0 0; lineTo 10 0; lineTo 10 10; closePath].
Proof.
  refine (proj1 (Path_execute_drawable (mkPath [square]) _)).
  repeat constructor;
    eexists _, _, _; (split; [reflexivity |]); (split; [reflexivity |]);
    repeat constructor; eexists; reflexivity.
Defined.

(** X15.  Rendering never reads the start of a command: two point-list
    commands of the same class, with the number of points of that class,
    that differ in their first point only make the same call (or both
    throw). *)
Theorem DrawCommand_execute_ignores_start (k : PointsClass) (s s' : slot)
    (ps : list slot) :
  length (s :: ps) = arity k ->
  DrawCommand_execute (PointsCmd k (s' :: ps))
  = DrawCommand_execute (PointsCmd k (s :: ps)).
Proof.
  intros Hlen.
  destruct k; simpl in Hlen;
    repeat (destruct ps as [| ? ps]; simpl in Hlen; try lia); done.
Qed.

Lemma DrawCommand_execute_ignores_start_witness :
  DrawCommand_execute (MoveCommand (Some (mkPoint 3 4)) (Some (mkPoint 1 2)))
  = DrawCommand_execute (MoveCommand None (Some (mkPoint 1 2))).
Proof.
  apply (DrawCommand_execute_ignores_start CMove None (Some (mkPoint 3 4))
           [Some (mkPoint 1 2)]).
  reflexivity.
Defined.

(** X16.  When a command of a sub-path lacks a point that its call
    reads, [execute] throws at that command: the calls of the commands
    before it have reached the canvas, none of the commands after it is
    rendered. *)
Theorem SubPath_execute_throws (pre post : list DrawCommand)
    (c : DrawCommand) :
  Forall (fun c => drawable c \/ ctor c = EllipticalArc) pre ->
  DrawCommand_execute c = TypeError ->
  SubPath_execute (mkSubPath (pre ++ c :: post))
  = Throws (concat (map call_of pre)).
Proof.
  intros Hpre Hc. unfold SubPath_execute. simpl commands.
  induction Hpre as [| d pre Hd _ IH].
  - simpl. by rewrite Hc.
  - destruct (DrawCommand_execute_drawable d Hd) as [Hex _].
    simpl. by rewrite Hex, IH.
Qed.

Lemma SubPath_execute_throws_witness :
  SubPath_execute
    (mkSubPath [MoveCommand None (Some (mkPoint 0 0));
                LineCommand (Some (mkPoint 0 0)) None;
                ClosePathCommand None None])
  = Throws [moveTo 0 0].
Proof.
  apply (SubPath_execute_throws [MoveCommand None (Some (mkPoint 0 0))]
           [ClosePathCommand None None]
           (LineCommand (Some (mkPoint 0 0)) None)).
  - repeat constructor.
    eexists _, _, _; (split; [reflexivity |]); (split; [reflexivity |]).
    repeat constructor. eexists; reflexivity.
  - reflexivity.
Defined.

(** ** Transforming a path *)

Section TransformProperties.
Context {Matrix : Type}.
Variable MathUtil_transform : Point -> list Matrix -> Point.
Variable SvgUtil_transformArc : ArcParams -> list Matrix -> ArcParams.
Variable transforms : list Matrix.

Lemma DrawCommand_transform_skeleton c :
  cmd_skeleton
    (DrawCommand_transform Matrix MathUtil_transform SvgUtil_transformArc
       transforms c)
  = cmd_skeleton c.
Proof.
  destruct c as [k ps | ps a]; unfold cmd_skeleton; simpl; [| done].
  by rewrite transform_points_length.
Qed.

Lemma SubPath_transform_skeleton sp :
  subpath_skeleton
    (SubPath_transform Matrix MathUtil_transform SvgUtil_transformArc
       transforms sp)
  = subpath_skeleton sp.
Proof.
  unfold subpath_skeleton, SubPath_transform. simpl.
  rewrite map_map. apply map_ext. intros c.
  apply DrawCommand_transform_skeleton.
Qed.

Lemma Path_transform_skeleton p :
  path_skeleton
    (Path_transform Matrix MathUtil_transform SvgUtil_transformArc
       transforms p)
  = path_skeleton p.
Proof.
  unfold path_skeleton, Path_transform. simpl.
  rewrite map_map. apply map_ext. intros sp.
  apply SubPath_transform_skeleton.
Qed.

Lemma DrawCommand_transform_drawable c :
  drawable c \/ ctor c = EllipticalArc ->
  drawable
    (DrawCommand_transform Matrix MathUtil_transform SvgUtil_transformArc
       transforms c)
  \/ ctor
       (DrawCommand_transform Matrix MathUtil_transform
          SvgUtil_transformArc transforms c) = EllipticalArc.
Proof.
  intros [(k & s & ps & -> & Hlen & Hall) | Harc].
  - left. simpl.
    eexists k, _, (transform_points Matrix MathUtil_transform transforms ps).
    split; [reflexivity |]. split.
    + simpl. rewrite transform_points_length. exact Hlen.
    + unfold transform_points. apply Forall_map.
      eapply Forall_impl; [exact Hall |]. by intros ? [? ->].
  - right. destruct c as [k ps | ps a]; [by destruct k | done].
Qed.
End TransformProperties.

Lemma cmd_skeleton_morphable c c' :
  cmd_skeleton c = cmd_skeleton c' ->
  forall d,
    DrawCommand_isMorphableWith c d = DrawCommand_isMorphableWith c' d
    /\ DrawCommand_isMorphableWith d c = DrawCommand_isMorphableWith d c'.
Proof.
  intros Hsk d. injection Hsk as Hc Hl. split.
  - destruct c as [k ps | ps a], c' as [k' ps' | ps' a']; try done;
      try (by destruct k); try (by destruct k').
    unfold DrawCommand_isMorphableWith, DrawCommand_isMorphableWith_base.
    by rewrite Hc, Hl.
  - destruct d as [kd psd | psd ad]; [| done].
    unfold DrawCommand_isMorphableWith, DrawCommand_isMorphableWith_base.
    by rewrite Hc, Hl.
Qed.

Lemma every2_congr_l {A B S : Type} (sk : A -> S) (p : A -> B -> bool) :
  (forall a a' b, sk a = sk a' -> p a b = p a' b) ->
  forall l l' m, map sk l = map sk l' -> every2 p l m = every2 p l' m.
Proof.
  intros Hp. induction l as [| a l IH]; intros [| a' l'] m Heq; try done.
  injection Heq as Ha Hl. destruct m as [| b m]; [done |].
  simpl. by rewrite (Hp a a' b Ha), (IH l' m Hl).
Qed.

Lemma every2_congr_r {A B S : Type} (sk : B -> S) (p : A -> B -> bool) :
  (forall a b b', sk b = sk b' -> p a b = p a b') ->
  forall l m m', map sk m = map sk m' -> every2 p l m = every2 p l m'.
Proof.
  intros Hp. induction l as [| a l IH]; intros m m' Heq; [done |].
  destruct m as [| b m], m' as [| b' m']; try done.
  injection Heq as Hb Hm. simpl. by rewrite (Hp a b b' Hb), (IH m m' Hm).
Qed.

Lemma subpath_skeleton_morphable sp sp' :
  subpath_skeleton sp = subpath_skeleton sp' ->
  forall q,
    SubPath_isMorphableWith sp q = SubPath_isMorphableWith sp' q
    /\ SubPath_isMorphableWith q sp = SubPath_isMorphableWith q sp'.
Proof.
  intros Hsk q. unfold SubPath_isMorphableWith.
  assert (Hlen : length (commands sp) = length (commands sp'))
    by (apply (f_equal length) in Hsk; unfold subpath_skeleton in Hsk;
        by rewrite !length_map in Hsk).
  rewrite Hlen. split; f_equal.
  - apply (every2_congr_l cmd_skeleton); [| exact Hsk].
    intros a a' b Ha. by apply cmd_skeleton_morphable.
  - apply (every2_congr_r cmd_skeleton); [| exact Hsk].
    intros a b b' Hb. by apply cmd_skeleton_morphable.
Qed.

Lemma path_skeleton_morphable p p' :
  path_skeleton p = path_skeleton p' ->
  forall q,
    Path_isMorphableWith p q = Path_isMorphableWith p' q
    /\ Path_isMorphableWith q p = Path_isMorphableWith q p'.
Proof.
  intros Hsk q. unfold Path_isMorphableWith.
  assert (Hlen : length (subpaths p) = length (subpaths p'))
    by (apply (f_equal length) in Hsk; unfold path_skeleton in Hsk;
        by rewrite !length_map in Hsk).
  rewrite Hlen. split; f_equal.
  - apply (every2_congr_l subpath_skeleton); [| exact Hsk].
    intros a a' b Ha. by apply subpath_skeleton_morphable.
  - apply (every2_congr_r subpath_skeleton); [| exact Hsk].
    intros a b b' Hb. by apply subpath_skeleton_morphable.
Qed.

(** X17.  [transform] keeps the skeleton of a path, whatever the two
    external routines compute: the transformed path is morphable with
    exactly the paths the original was morphable with, in either
    direction. *)
Theorem Path_transform_morphable {Matrix : Type}
    (MathUtil_transform : Point -> list Matrix -> Point)
    (SvgUtil_transformArc : ArcParams -> list Matrix -> ArcParams)
    (transforms : list Matrix) (p q : PathCommand) :
  let p' :=
    Path_transform Matrix MathUtil_transform SvgUtil_transformArc
      transforms p in
  path_skeleton p' = path_skeleton p
  /\ Path_isMorphableWith p' q = Path_isMorphableWith p q
  /\ Path_isMorphableWith q p' = Path_isMorphableWith q p.
Proof.
  intros p'.
  pose proof (Path_transform_skeleton MathUtil_transform SvgUtil_transformArc
                transforms p) as Hsk.
  split; [exact Hsk |]. by apply path_skeleton_morphable.
Qed.

(** X18.  [transform] keeps missing points missing and the others there:
    a path that is rendered without a throw is still rendered without a
    throw after [transform], with as many calls. *)
Theorem Path_transform_execute {Matrix : Type}
    (MathUtil_transform : Point -> list Matrix -> Point)
    (SvgUtil_transformArc : ArcParams -> list Matrix -> ArcParams)
    (transforms : list Matrix) (p : PathCommand) :
  Forall (fun sp => Forall (fun c => drawable c \/ ctor c = EllipticalArc)
                      (commands sp)) (subpaths p) ->
  exists calls calls',
    Path_execute p = Returns tt calls
    /\ Path_execute
         (Path_transform Matrix MathUtil_transform SvgUtil_transformArc
            transforms p) = Returns tt calls'
    /\ length calls' = length calls.
Proof.
  intros Hall.
  assert (Hall' :
    Forall (fun sp => Forall (fun c => drawable c \/ ctor c = EllipticalArc)
                        (commands sp))
      (subpaths (Path_transform Matrix MathUtil_transform
                   SvgUtil_transformArc transforms p))).
  { simpl. apply Forall_map. eapply Forall_impl; [exact Hall |].
    intros sp Hsp. simpl. apply Forall_map.
    eapply Forall_impl; [exact Hsp |].
    intros c Hc. by apply DrawCommand_transform_drawable. }
  destruct (execute_subpaths_drawable _ Hall) as [Hex Hlen].
  destruct (execute_subpaths_drawable _ Hall') as [Hex' Hlen'].
  unfold Path_execute. rewrite Hex, Hex'.
  eexists _, _. split; [reflexivity |]. split; [reflexivity |].
  cbn [length]. rewrite Hlen, Hlen'. f_equal.
  simpl. rewrite map_map. simpl.
  clear Hall Hall' Hex Hlen Hex' Hlen'.
  induction (subpaths p) as [| sp sps IH]; [done |].
  simpl. by rewrite !length_app, length_map, IH.
Qed.

Lemma Path_transform_execute_witness :
  exists calls calls',
    Path_execute (mkPath [square]) = Returns tt calls
    /\ Path_execute
         (Path_transform unit (fun p _ => mkPoint (y p) (x p))
            (fun a _ => a) [] (mkPath [square])) = Returns tt calls'
    /\ length calls' = length calls.
Proof.
  apply (Path_transform_execute (Matrix := unit)).
  repeat constructor;
    eexists _, _, _; (split; [reflexivity |]); (split; [reflexivity |]);
    repeat constructor; eexists; reflexivity.
Defined.

(** ** Interpolating in place *)

Lemma store_points_insert (h : gmap loc DrawCommand) this c l s :
  h !! l = Some s ->
  store_points (<[this := c]> h) l
  = if decide (this = l) then points c else points s.
Proof.
  intros Hl. unfold store_points.
  destruct (decide (this = l)) as [-> | Hne].
  - by rewrite lookup_insert_eq.
  - by rewrite lookup_insert_ne, Hl.
Qed.

Lemma store_args_insert (h : gmap loc DrawCommand) this c l s :
  h !! l = Some s ->
  store_args (<[this := c]> h) l
  = if decide (this = l) then args c else args s.
Proof.
  intros Hl. unfold store_args.
  destruct (decide (this = l)) as [-> | Hne].
  - by rewrite lookup_insert_eq.
  - by rewrite lookup_insert_ne, Hl.
Qed.

(** Round [m] reads index [m], which the rounds before it have not
    written. *)
Lemma store_rounds_in_place (h : gmap loc DrawCommand) this start end_ f
    k ps s e :
  h !! this = Some (PointsCmd k ps) ->
  h !! start = Some s -> h !! end_ = Some e ->
  forall m,
    m <= length ps ->
    foldl (store_interpolate_round this start end_ f) h (seq 0 m)
    = <[this := PointsCmd k
                  (foldl (fun ps i =>
                            interpolate_point (points s) (points e) f i ps)
                     ps (seq 0 m))]> h.
Proof.
  intros Ht Hs He. induction m as [| m IH]; intros Hm.
  - simpl. by rewrite insert_id.
  - rewrite !seq_S, !foldl_app, IH by lia. simpl.
    set (v := foldl (fun ps i =>
                       interpolate_point (points s) (points e) f i ps)
                ps (seq 0 m)).
    assert (Hv : points_get m v = points_get m ps).
    { unfold v. rewrite interpolate_rounds_get by lia.
      by rewrite decide_False by lia. }
    unfold store_interpolate_round.
    rewrite (store_points_insert _ _ _ _ _ Hs),
      (store_points_insert _ _ _ _ _ He).
    assert (Hgs : points_get m
                    (if decide (this = start)
                     then points (PointsCmd k v) else points s)
                  = points_get m (points s)).
    { destruct (decide (this = start)) as [<- |]; [| done].
      rewrite Ht in Hs. injection Hs as <-. exact Hv. }
    assert (Hge : points_get m
                    (if decide (this = end_)
                     then points (PointsCmd k v) else points e)
                  = points_get m (points e)).
    { destruct (decide (this = end_)) as [<- |]; [| done].
      rewrite Ht in He. injection He as <-. exact Hv. }
    rewrite Hgs, Hge. unfold interpolate_point.
    destruct (points_get m (points s)); [| done].
    destruct (points_get m (points e)); [| done].
    by rewrite alter_insert_eq.
Qed.

Lemma args_get_middle (pre pre' post : list number) :
  length pre = length pre' ->
  args_get (length pre) (pre ++ post) = args_get (length pre) (pre' ++ post).
Proof.
  intros Hlen. unfold args_get, array_get.
  rewrite !app_nth2 by lia. by rewrite Hlen, !Nat.sub_diag.
Qed.

Lemma interpolate_arg_reads sa sa' ea ea' f i :
  args_get i sa = args_get i sa' -> args_get i ea = args_get i ea' ->
  interpolate_arg sa ea f i = interpolate_arg sa' ea' f i.
Proof. intros Hs He. unfold interpolate_arg. by rewrite Hs, He. Qed.

Lemma store_forEach_in_place (h : gmap loc DrawCommand) this start end_ f
    ps a s e sa ea :
  h !! this = Some (ArcCmd ps a) ->
  h !! start = Some s -> h !! end_ = Some e ->
  args s = Some sa -> args e = Some ea ->
  forall post pre pre0,
    a = pre0 ++ post -> length pre = length pre0 ->
    store_forEach (store_arc_round this start end_ f)
      (seq (length pre) (length post))
      (<[this := ArcCmd ps (pre ++ post)]> h)
    = Returns tt
        (<[this := ArcCmd ps
                     (pre ++ interpolate_args_from sa ea f (length pre) post)]>
           h).
Proof.
  intros Ht Hs He Hsa Hea.
  induction post as [| v post IH]; intros pre pre0 Ha Hlen; [done |].
  set (cur := ArcCmd ps (pre ++ v :: post)).
  set (w := interpolate_arg sa ea f (length pre)).
  assert (Hrs : forall l x xa, h !! l = Some x -> args x = Some xa ->
            exists ya, store_args (<[this := cur]> h) l = Some ya
                       /\ args_get (length pre) ya
                          = args_get (length pre) xa).
  { intros l x xa Hl Hxa.
    rewrite (store_args_insert _ _ _ _ _ Hl).
    destruct (decide (this = l)) as [<- |]; [| eauto].
    rewrite Ht in Hl. injection Hl as <-. simpl in Hxa.
    injection Hxa as <-. exists (pre ++ v :: post). split; [done |].
    rewrite Ha. by apply args_get_middle. }
  destruct (Hrs start s sa Hs Hsa) as (ya & Hya & Hgs).
  destruct (Hrs end_ e ea He Hea) as (yb & Hyb & Hge).
  assert (Hround : store_arc_round this start end_ f (<[this := cur]> h)
                     (length pre)
                   = Value (<[this := ArcCmd ps ((pre ++ [w]) ++ post)]> h)).
  { unfold store_arc_round.
    assert (Hw : forall x,
              alter (write_arg (length pre) x) this (<[this := cur]> h)
              = <[this := ArcCmd ps ((pre ++ [x]) ++ post)]> h).
    { intros x. rewrite alter_insert_eq. unfold cur. simpl.
      unfold args_set. by rewrite array_set_middle, <- app_assoc. }
    unfold w, interpolate_arg.
    destruct (bool_decide (length pre = 5) || bool_decide (length pre = 6)).
    - destruct (strict_eq f 0%float).
      + by rewrite Hya, Hw, Hgs.
      + by rewrite Hyb, Hw, Hge.
    - by rewrite Hya, Hyb, Hw, Hgs, Hge. }
  simpl. rewrite Hround.
  specialize (IH (pre ++ [w]) (pre0 ++ [v])).
  rewrite !length_app in IH. simpl in IH. rewrite Nat.add_1_r in IH.
  rewrite IH; [| by rewrite <- app_assoc | lia].
  by rewrite <- app_assoc.
Qed.

(** X19.  [interpolate] may be run in place: whether or not [this] is
    the same object as [start] or as [end], the call completes as the
    computation on the three values does, leaves in [this] what that
    computation gives, and writes no other object. *)
Theorem interpolate_in_place (h : gmap loc DrawCommand)
    (this start end_ : loc) (fraction : number) (t s e : DrawCommand) :
  h !! this = Some t -> h !! start = Some s -> h !! end_ = Some e ->
  store_interpolate h this start end_ fraction
  = Some match DrawCommand_interpolate t s e fraction with
         | Returns b t' => Returns b (<[this := t']> h)
         | Throws t' => Throws (<[this := t']> h)
         end.
Proof.
  intros Ht Hs He. unfold store_interpolate. rewrite Ht, Hs, He. f_equal.
  destruct t as [k ps | ps a].
  - unfold DrawCommand_interpolate.
    destruct (DrawCommand_isMorphableWith (PointsCmd k ps) s) eqn:Hms;
      [| simpl; by rewrite insert_id].
    destruct (DrawCommand_isMorphableWith (PointsCmd k ps) e) eqn:Hme;
      [| simpl; by rewrite insert_id].
    simpl. apply isMorphableWith_points_spec in Hms as [_ Hls].
    f_equal. unfold interpolate_points.
    apply (store_rounds_in_place h this start end_ fraction k ps s e);
      [done | done | done | lia].
  - destruct a as [| v a]; [simpl; by rewrite insert_id |].
    unfold DrawCommand_interpolate.
    destruct (args s) as [sa |] eqn:Hsa.
    + destruct (args e) as [ea |] eqn:Hea.
      * pose proof (store_forEach_in_place h this start end_ fraction ps
                      (v :: a) s e sa ea Ht Hs He Hsa Hea (v :: a) [] []
                      eq_refl eq_refl) as Hrun.
        cbn [length app] in Hrun. rewrite insert_id in Hrun by done.
        cbn [length]. by rewrite Hrun.
      * simpl. unfold store_arc_round. simpl. unfold store_args.
        rewrite Hs, He, Hsa, Hea. by rewrite insert_id.
    + simpl. unfold store_arc_round. simpl. unfold store_args.
      rewrite Hs, Hsa. by rewrite insert_id.
Qed.

Lemma interpolate_in_place_witness :
  let t := LineCommand (Some (mkPoint 0 0)) (Some (mkPoint 2 2)) in
  let e := LineCommand (Some (mkPoint 4 4)) (Some (mkPoint 6 6)) in
  let h : gmap loc DrawCommand :=
    <[1%positive := t]> (<[3%positive := e]> ∅) in
  store_interpolate h 1%positive 1%positive 3%positive 0.5%float
  = Some (Returns true
            (<[1%positive :=
                 LineCommand (Some (mkPoint 2 2)) (Some (mkPoint 4 4))]> h)).
Proof.
  intros t e h.
  rewrite (interpolate_in_place h 1%positive 1%positive 3%positive
             0.5%float t t e); reflexivity.
Defined.

(** ** Closedness under [reverse] *)

Lemma SFcompare_Eq_sym f1 f2 :
  SFcompare f1 f2 = Some Eq -> SFcompare f2 f1 = Some Eq.
Proof.
  destruct f1 as [s1 | s1 | | s1 m1 e1], f2 as [s2 | s2 | | s2 m2 e2];
    simpl; try discriminate; try reflexivity;
    try (destruct s1; discriminate); try (destruct s2; discriminate);
    try (destruct s1, s2; (discriminate || reflexivity)).
  destruct s1, s2; try discriminate;
    (destruct (Z.compare e1 e2) eqn:He; try discriminate;
     apply Z.compare_eq in He; subst e2; rewrite Z.compare_refl;
     destruct (Pos.compare_cont Eq m1 m2) eqn:Hm; simpl; try discriminate;
     apply Pos.compare_eq in Hm; subst m2;
     rewrite Pos.compare_cont_refl; reflexivity).
Qed.

(** [a === b] and [b === a] are the same test. *)
Lemma strict_eq_sym (a b : number) : strict_eq a b = strict_eq b a.
Proof.
  unfold strict_eq. rewrite !FloatAxioms.eqb_spec. unfold SFeqb.
  destruct (SFcompare (Prim2SF a) (Prim2SF b)) as [[| |] |] eqn:H1;
  destruct (SFcompare (Prim2SF b) (Prim2SF a)) as [[| |] |] eqn:H2;
    try reflexivity;
    try (apply SFcompare_Eq_sym in H1; congruence);
    try (apply SFcompare_Eq_sym in H2; congruence).
Qed.

(** X20.  [reverse] keeps a closed sub-path closed and an open one open:
    on a sub-path of two commands or more whose first command ends where
    the second, a point-list command with a start, begins, [isClosed]
    answers after [reverse] what it answered before (and throws if it
    threw). *)
Theorem SubPath_reverse_isClosed (c0 c1 : DrawCommand)
    (t : list DrawCommand) :
  ctor c1 <> EllipticalArc -> is_Some (cmd_start c1) ->
  cmd_end c0 = cmd_start c1 ->
  isClosed (final_state (SubPath_reverse (mkSubPath (c0 :: c1 :: t))))
  = isClosed (mkSubPath (c0 :: c1 :: t)).
Proof.
  intros Harc [p Hp] Hjoin.
  destruct (last_cons_Some c1 t) as [l Hl].
  rewrite (SubPath_reverse_form _ _ _ l Hl). cbn [final_state].
  assert (Hend1 : cmd_end (DrawCommand_reverse c1) = cmd_start c1).
  { destruct c1 as [k ps | ps a]; [| by destruct Harc].
    simpl. rewrite Hp. rewrite cmd_end_rev. exact Hp. }
  pose proof (demote_promote_last_end
                (map DrawCommand_reverse (rev (c1 :: t)))) as Hlast.
  rewrite reversed_tail_last in Hlast.
  unfold isClosed, SubPath_start, SubPath_end. cbn [commands].
  rewrite last_cons_cons, Hl, last_cons, cmd_end_Move.
  destruct (last (demote_promote _)) as [k |]; [| done].
  simpl in Hlast. injection Hlast as Hk.
  rewrite Hk, Hend1, Hjoin, Hp.
  destruct (cmd_end l) as [q |]; [| done].
  by rewrite (strict_eq_sym (x q)), (strict_eq_sym (y q)).
Qed.

Lemma SubPath_reverse_isClosed_witness :
  isClosed (final_state (SubPath_reverse square)) = isClosed square.
Proof.
  apply (SubPath_reverse_isClosed
           (MoveCommand None (Some (mkPoint 0 0)))
           (LineCommand (Some (mkPoint 0 0)) (Some (mkPoint 10 0)))
           [LineCommand (Some (mkPoint 10 0)) (Some (mkPoint 10 10));
            ClosePathCommand (Some (mkPoint 10 10)) (Some (mkPoint 0 0))]);
    [discriminate | by eexists | reflexivity].
Defined.

(** ** Closedness after [shiftBack] *)

(** X21.  After [shiftBack] on a closed sub-path of two commands or more,
    [isClosed] tests the start of the command that was last against the
    end of the command that stood before it (against its own end when the
    sub-path has two commands): the sub-path stays closed exactly when
    these two points are [===], and the test throws when one of them is
    missing. *)
Theorem shiftBack_isClosed (c0 l : DrawCommand) (mid : list DrawCommand) :
  isClosed (mkSubPath (c0 :: mid ++ [l])) = Value true ->
  isClosed (final_state (shiftBack (mkSubPath (c0 :: mid ++ [l]))))
  = ends_meet (cmd_start l) (cmd_end (default l (last mid))).
Proof.
  intros Hc. unfold shiftBack. rewrite Hc. cbn [commands].
  rewrite bool_decide_eq_false_2
    by (cbn [length]; rewrite length_app; cbn [length]; lia).
  cbn [final_state].
  destruct (decide (ctor l = ClosePath)) as [Hl | Hl].
  - destruct (snoc_cases mid) as [-> | (mid' & k & ->)].
    + rewrite app_nil_l, shiftBack_body_close_two by done.
      unfold isClosed, SubPath_start, SubPath_end, ends_meet. simpl.
      autorewrite with ends. by destruct (cmd_start l), (cmd_end l).
    + rewrite shiftBack_body_close by done.
      unfold isClosed, SubPath_start, SubPath_end, ends_meet.
      cbn [commands]. rewrite !app_comm_cons, !last_snoc.
      autorewrite with ends. reflexivity.
  - rewrite shiftBack_body_plain by done.
    unfold isClosed, SubPath_start, SubPath_end, ends_meet.
    cbn [commands]. autorewrite with ends.
    destruct (snoc_cases mid) as [-> | (mid' & k & ->)].
    + simpl. by destruct (cmd_start l), (cmd_end l).
    + rewrite !app_comm_cons, !last_snoc. reflexivity.
Qed.

Lemma shiftBack_isClosed_witness :
  isClosed (final_state (shiftBack square)) = Value true.
Proof.
  exact (shiftBack_isClosed
           (MoveCommand None (Some (mkPoint 0 0)))
           (ClosePathCommand (Some (mkPoint 10 10)) (Some (mkPoint 0 0)))
           [LineCommand (Some (mkPoint 0 0)) (Some (mkPoint 10 0));
            LineCommand (Some (mkPoint 10 0)) (Some (mkPoint 10 10))]
           eq_refl).
Defined.

(** ** [transform] of an arc *)

(** X22.  On an arc holding its nine arguments, [transform] writes the
    transformed start point at indices 0 and 1 and the seven fields of the
    transformed arc at indices 2 to 8; the arc handed to
    [SvgUtil.transformArc] is made of the arguments as they were before
    the call; arguments past the ninth are kept, and so are the two points
    of the command: [start] and [end] still answer the points from before
    the transform. *)
Theorem arc_transform_nine {Matrix : Type}
    (MathUtil_transform : Point -> list Matrix -> Point)
    (SvgUtil_transformArc : ArcParams -> list Matrix -> ArcParams)
    (transforms : list Matrix) (ps : list slot)
    (a0 a1 a2 a3 a4 a5 a6 a7 a8 : number) (rest : list number) :
  let this :=
    ArcCmd ps (a0 :: a1 :: a2 :: a3 :: a4 :: a5 :: a6 :: a7 :: a8 :: rest) in
  let start := MathUtil_transform (mkPoint a0 a1) transforms in
  let arc :=
    SvgUtil_transformArc (mkArcParams a2 a3 a4 a5 a6 a7 a8) transforms in
  let after :=
    DrawCommand_transform Matrix MathUtil_transform SvgUtil_transformArc
      transforms this in
  after
  = ArcCmd ps (x start :: y start :: rx arc :: ry arc :: xAxisRotation arc
               :: largeArcFlag arc :: sweepFlag arc :: endX arc :: endY arc
               :: rest)
  /\ cmd_start after = cmd_start this
  /\ cmd_end after = cmd_end this.
Proof.
  cbv zeta. split; [| done].
  cbn [DrawCommand_transform]. f_equal.
Qed.

(** ** [reverse] of a polygon *)

Lemma map_side_snoc ps z : map side (ps ++ [z]) = map side ps ++ [side z].
Proof. by rewrite map_app. Qed.

Lemma reverse_sides ps :
  Forall (fun p : segment => is_Some p.1) ps ->
  map DrawCommand_reverse (rev (map side ps))
  = map side (map backwards (rev ps)).
Proof.
  induction 1 as [| p ps Hp _ IH]; [done |].
  cbn [map rev]. rewrite !map_app, IH. cbn [map].
  unfold side at 2. by rewrite reverse_line.
Qed.

(** X23.  [reverse] of a polygon is the polygon of the same sides taken in
    the opposite order, each run the other way: on a move followed by
    lines along all the sides but the last and a close-path along the last
    side, every side having its start point, [reverse] leaves a move with
    the start of the old move, to the end of the old close-path, then
    lines along the reversed sides and a close-path along the reverse of
    the old first side. *)
Theorem polygon_reverse (s e : slot) (ps : list segment) :
  ps <> [] -> Forall (fun p : segment => is_Some p.1) ps ->
  SubPath_reverse (mkSubPath (MoveCommand s e :: polygon ps))
  = Returns tt (seam polygon id s (map backwards (rev ps))).
Proof.
  intros Hne Hall.
  destruct (snoc_cases ps) as [-> | (ps' & z & ->)]; [done |].
  apply Forall_app in Hall as [Hall Hz].
  apply Forall_cons in Hz as [Hz _].
  rewrite polygon_snoc, rev_unit. cbn [map].
  unfold seam. cbn [first_start id backwards fst].
  destruct ps' as [| h ps''].
  - cbn [map app rev].
    rewrite (SubPath_reverse_form _ _ _ (closing z)) by done.
    cbn [rev map app]. unfold closing at 2. rewrite reverse_close by done.
    rewrite demote_promote_close_one by done.
    autorewrite with ends. reflexivity.
  - cbn [map app].
    rewrite (SubPath_reverse_form _ _ _ (closing z))
      by (rewrite app_comm_cons; apply last_snoc).
    rewrite app_comm_cons, rev_unit. cbn [map].
    change (side h :: map side ps'') with (map side (h :: ps'')).
    rewrite reverse_sides by done.
    unfold closing at 2. rewrite reverse_close by done.
    cbn [rev]. rewrite !map_app. cbn [map].
    rewrite demote_promote_close by done.
    autorewrite with ends.
    unfold closing at 1. cbn [snd].
    f_equal. f_equal. f_equal.
    change (backwards z :: map backwards (rev ps'') ++ [backwards h])
      with ((backwards z :: map backwards (rev ps'')) ++ [backwards h]).
    rewrite polygon_snoc. reflexivity.
Qed.

Lemma polygon_reverse_witness :
  SubPath_reverse square
  = Returns tt
      (mkSubPath
         [MoveCommand None (Some (mkPoint 0 0));
          LineCommand (Some (mkPoint 0 0)) (Some (mkPoint 10 10));
          LineCommand (Some (mkPoint 10 10)) (Some (mkPoint 10 0));
          ClosePathCommand (Some (mkPoint 10 0)) (Some (mkPoint 0 0))]).
Proof.
  apply (polygon_reverse None (Some (mkPoint 0 0))
           [(Some (mkPoint 0 0), Some (mkPoint 10 0));
            (Some (mkPoint 10 0), Some (mkPoint 10 10));
            (Some (mkPoint 10 10), Some (mkPoint 0 0))]);
    [discriminate | repeat constructor; by eexists].
Defined.

(** * Colors: properties *)

Lemma hex_digit_units c v : hex_digit c = Some v -> c ∈ hex_units.
Proof.
  intros H. destruct (decide (c ∈ hex_units)) as [| Hn]; [done | exfalso].
  unfold hex_units in Hn. rewrite !not_elem_of_cons in Hn.
  unfold hex_digit in H.
  destruct (N.leb_spec 48 c), (N.leb_spec c 57), (N.leb_spec 97 c),
    (N.leb_spec c 102), (N.leb_spec 65 c), (N.leb_spec c 70);
    simpl in H; try discriminate; lia.
Qed.

Lemma digit_check_all : forallb digit_check hex_units = true.
Proof. vm_compute. reflexivity. Qed.

Lemma hex_digit_facts c v :
  hex_digit c = Some v ->
  is_white_space c = false /\ c <> 35%N
  /\ (parseInt16 [c] * 17)%float = number_of_Z (17 * v)
  /\ forall d w, hex_digit d = Some w ->
       parseInt16 [c; d] = number_of_Z (16 * v + w)
       /\ isNaN (number_of_Z (16 * v + w)) = false.
Proof.
  intros Hc. pose proof (hex_digit_units c v Hc) as Hin.
  pose proof digit_check_all as Hall.
  rewrite forallb_forall in Hall. apply list_elem_of_In in Hin.
  specialize (Hall c Hin). unfold digit_check in Hall. rewrite Hc in Hall.
  cbn [default from_option id] in Hall.
  apply andb_true_iff in Hall as [Hall H4].
  apply andb_true_iff in Hall as [Hall H3].
  apply andb_true_iff in Hall as [H1 H2].
  apply negb_true_iff in H1, H2. apply N.eqb_neq in H2.
  apply Leibniz.eqb_spec in H3.
  repeat split; try done.
  - pose proof (hex_digit_units d w H) as Hd.
    rewrite forallb_forall in H4. apply list_elem_of_In in Hd.
    specialize (H4 d Hd). rewrite H in H4.
    apply andb_true_iff in H4 as [H4 _]. by apply Leibniz.eqb_spec in H4.
  - pose proof (hex_digit_units d w H) as Hd.
    rewrite forallb_forall in H4. apply list_elem_of_In in Hd.
    specialize (H4 d Hd). rewrite H in H4.
    apply andb_true_iff in H4 as [_ H4]. by apply negb_true_iff in H4.
Qed.

(** ** Stripping *)

Lemma skip_white_space_app ws s :
  Forall (fun c => is_white_space c = true) ws ->
  skip_white_space (ws ++ s) = skip_white_space s.
Proof. induction 1 as [| c ws Hc _ IH]; [done |]. simpl. by rewrite Hc. Qed.

Lemma cut_trailing_white_space_app ds ws :
  Forall (fun c => is_white_space c = false) ds ->
  Forall (fun c => is_white_space c = true) ws ->
  cut_trailing_white_space (ds ++ ws) = ds.
Proof.
  intros Hds Hws. induction Hds as [| c ds Hc _ IH].
  - destruct ws as [| w ws]; [done |]. cbn [app cut_trailing_white_space].
    replace (forallb is_white_space (w :: ws)) with true; [done |].
    symmetry. apply forallb_forall. intros c Hin.
    apply list_elem_of_In in Hin.
    by apply (proj1 (Forall_forall _ _) Hws).
  - cbn [app cut_trailing_white_space forallb]. by rewrite Hc, IH.
Qed.

Lemma replace_ends_digits ws1 hash ds ws2 :
  Forall (fun c => is_white_space c = true) ws1 ->
  Forall (fun c => is_white_space c = true) ws2 ->
  hash = [] \/ hash = js "#" ->
  Forall (fun c => is_Some (hex_digit c)) ds ->
  replace_ends (ws1 ++ hash ++ ds ++ ws2) = ds.
Proof.
  intros H1 H2 Hhash Hds. unfold replace_ends.
  rewrite skip_white_space_app by done.
  assert (Hclean : Forall (fun c => is_white_space c = false) ds).
  { eapply Forall_impl; [exact Hds |]. intros c [v Hv].
    by apply hex_digit_facts in Hv as [? _]. }
  destruct Hhash as [-> | ->].
  - rewrite app_nil_l. destruct ds as [| c ds].
    + rewrite app_nil_l.
      replace (skip_white_space ws2) with (@nil code_unit).
      { done. }
      clear -H2. induction H2 as [| w ws Hw _ IH]; [done |].
      simpl. by rewrite Hw.
    + apply Forall_cons in Hclean as [Hc Hclean'].
      apply Forall_cons in Hds as [[v Hv] _].
      apply hex_digit_facts in Hv as (_ & Hne & _).
      cbn [app skip_white_space]. rewrite Hc.
      apply N.eqb_neq in Hne. rewrite Hne.
      apply (cut_trailing_white_space_app (c :: ds)); [| done].
      by apply Forall_cons.
  - change (js "#") with [35%N]. cbn [app skip_white_space].
    change (is_white_space 35%N) with false. cbn iota.
    change (35 =? 35)%N with true. cbn iota.
    by apply cut_trailing_white_space_app.
Qed.

(** ** Reading digits *)

Lemma number_of_Z_255 : number_of_Z 255 = 255%float.
Proof. reflexivity. Qed.

Lemma parse_digits val ds :
  replace_ends val = ds ->
  Forall (fun c => is_Some (hex_digit c)) ds ->
  parseAndroidColor val = RGBA_of_Z <$> digits_color (hex_digits ds).
Proof.
  intros Hval Hds. unfold parseAndroidColor. rewrite Hval. clear Hval val.
  assert (Hone : forall c v, hex_digit c = Some v ->
            (parseInt16 [c] * 17)%float = number_of_Z (17 * v)
            /\ isNaN (number_of_Z (17 * v)) = false).
  { intros c v Hc. pose proof (hex_digit_facts c v Hc) as (_ & _ & H1 & H2).
    split; [done |]. destruct (H2 c v Hc) as [_ Hn].
    by replace (17 * v)%Z with (16 * v + v)%Z by lia. }
  assert (Htwo : forall c d v w, hex_digit c = Some v -> hex_digit d = Some w ->
            parseInt16 [c; d] = number_of_Z (16 * v + w)
            /\ isNaN (number_of_Z (16 * v + w)) = false).
  { intros c d v w Hc Hd.
    pose proof (hex_digit_facts c v Hc) as (_ & _ & _ & H2). by apply H2. }
  destruct ds as [| c1 ds]; [done |].
  apply Forall_cons in Hds as [[v1 Hv1] Hds].
  destruct ds as [| c2 ds]; [cbn [hex_digits]; by rewrite Hv1 |].
  apply Forall_cons in Hds as [[v2 Hv2] Hds].
  destruct ds as [| c3 ds]; [cbn [hex_digits]; by rewrite Hv1, Hv2 |].
  apply Forall_cons in Hds as [[v3 Hv3] Hds].
  destruct ds as [| c4 ds].
  { cbn [hex_digits]. rewrite Hv1, Hv2, Hv3. cbv zeta. cbn [length].
    rewrite bool_decide_eq_true_2 by done.
    unfold substring. cbn [Nat.add Nat.sub take drop].
    destruct (Hone c1 v1 Hv1) as [-> N1], (Hone c2 v2 Hv2) as [-> N2],
      (Hone c3 v3 Hv3) as [-> N3].
    cbn [RGBA.a RGBA.r RGBA.g RGBA.b]. rewrite N1, N2, N3. reflexivity. }
  apply Forall_cons in Hds as [[v4 Hv4] Hds].
  destruct ds as [| c5 ds].
  { cbn [hex_digits]. rewrite Hv1, Hv2, Hv3, Hv4. cbv zeta. cbn [length].
    rewrite bool_decide_eq_false_2 by done.
    rewrite bool_decide_eq_true_2 by done.
    unfold substring. cbn [Nat.add Nat.sub take drop].
    destruct (Hone c1 v1 Hv1) as [-> N1], (Hone c2 v2 Hv2) as [-> N2],
      (Hone c3 v3 Hv3) as [-> N3], (Hone c4 v4 Hv4) as [-> N4].
    cbn [RGBA.a RGBA.r RGBA.g RGBA.b]. rewrite N1, N2, N3, N4.
    reflexivity. }
  apply Forall_cons in Hds as [[v5 Hv5] Hds].
  destruct ds as [| c6 ds];
    [cbn [hex_digits]; by rewrite Hv1, Hv2, Hv3, Hv4, Hv5 |].
  apply Forall_cons in Hds as [[v6 Hv6] Hds].
  destruct ds as [| c7 ds].
  { cbn [hex_digits]. rewrite Hv1, Hv2, Hv3, Hv4, Hv5, Hv6.
    cbv zeta. cbn [length].
    do 2 rewrite bool_decide_eq_false_2 by done.
    rewrite bool_decide_eq_true_2 by done.
    unfold substring. cbn [Nat.add Nat.sub take drop].
    destruct (Htwo c1 c2 v1 v2 Hv1 Hv2) as [-> N1],
      (Htwo c3 c4 v3 v4 Hv3 Hv4) as [-> N2],
      (Htwo c5 c6 v5 v6 Hv5 Hv6) as [-> N3].
    cbn [RGBA.a RGBA.r RGBA.g RGBA.b]. rewrite N1, N2, N3. reflexivity. }
  apply Forall_cons in Hds as [[v7 Hv7] Hds].
  destruct ds as [| c8 ds];
    [cbn [hex_digits]; by rewrite Hv1, Hv2, Hv3, Hv4, Hv5, Hv6, Hv7 |].
  apply Forall_cons in Hds as [[v8 Hv8] Hds].
  destruct ds as [| c9 ds].
  { cbn [hex_digits]. rewrite Hv1, Hv2, Hv3, Hv4, Hv5, Hv6, Hv7, Hv8.
    cbv zeta. cbn [length].
    do 3 rewrite bool_decide_eq_false_2 by done.
    rewrite bool_decide_eq_true_2 by done.
    unfold substring. cbn [Nat.add Nat.sub take drop].
    destruct (Htwo c1 c2 v1 v2 Hv1 Hv2) as [-> N1],
      (Htwo c3 c4 v3 v4 Hv3 Hv4) as [-> N2],
      (Htwo c5 c6 v5 v6 Hv5 Hv6) as [-> N3],
      (Htwo c7 c8 v7 v8 Hv7 Hv8) as [-> N4].
    cbn [RGBA.a RGBA.r RGBA.g RGBA.b]. rewrite N1, N2, N3, N4.
    reflexivity. }
  apply Forall_cons in Hds as [[v9 Hv9] Hds].
  cbn [hex_digits].
  rewrite Hv1, Hv2, Hv3, Hv4, Hv5, Hv6, Hv7, Hv8, Hv9.
  cbv zeta. cbn [length].
  do 4 rewrite bool_decide_eq_false_2 by lia. reflexivity.
Qed.

(** X24.  On a run of hexadecimal digits, with or without a [#] in front
    and with any white space around, [parseAndroidColor] returns the
    color of the digits when there are 3, 4, 6 or 8 of them (alpha first
    when it is given, 255 otherwise, a single digit counting twice), and
    [undefined] for any other number of digits. *)
Theorem parseAndroidColor_digits (ws1 ws2 hash ds : jsstring) :
  Forall (fun c => is_white_space c = true) ws1 ->
  Forall (fun c => is_white_space c = true) ws2 ->
  hash = [] \/ hash = js "#" ->
  Forall (fun c => is_Some (hex_digit c)) ds ->
  parseAndroidColor (ws1 ++ hash ++ ds ++ ws2)
  = RGBA_of_Z <$> digits_color (hex_digits ds).
Proof.
  intros H1 H2 Hhash Hds.
  apply parse_digits; [by apply replace_ends_digits | done].
Qed.

Lemma parseAndroidColor_digits_witness :
  parseAndroidColor (js "  #80FF00c0 ")
  = Some (RGBA.mk 128 255 0 192).
Proof.
  change (js "  #80FF00c0 ")
    with (js "  " ++ js "#" ++ js "80FF00c0" ++ js " ").
  rewrite (parseAndroidColor_digits (js "  ") (js " ") (js "#")
             (js "80FF00c0")).
  - reflexivity.
  - repeat constructor.
  - repeat constructor.
  - by right.
  - repeat constructor; by eexists.
Defined.

(** X25.  The short forms are read as the long ones with every digit
    doubled: [#rgb] as [#rrggbb] and [#argb] as [#aarrggbb]. *)
Theorem parseAndroidColor_shorthand (hash : jsstring)
    (c1 c2 c3 c4 : code_unit) :
  hash = [] \/ hash = js "#" ->
  Forall (fun c => is_Some (hex_digit c)) [c1; c2; c3; c4] ->
  parseAndroidColor (hash ++ [c1; c2; c3])
  = parseAndroidColor (hash ++ [c1; c1; c2; c2; c3; c3])
  /\ parseAndroidColor (hash ++ [c1; c2; c3; c4])
     = parseAndroidColor (hash ++ [c1; c1; c2; c2; c3; c3; c4; c4]).
Proof.
  intros Hhash Hds.
  assert (Hstrip : forall ds, Forall (fun c => is_Some (hex_digit c)) ds ->
            parseAndroidColor (hash ++ ds)
            = RGBA_of_Z <$> digits_color (hex_digits ds)).
  { intros ds Hall. apply parse_digits; [| done].
    pose proof (replace_ends_digits [] hash ds []
                  (Forall_nil_2 _) (Forall_nil_2 _) Hhash Hall) as H.
    by rewrite app_nil_l, app_nil_r in H. }
  pose proof Hds as Hall.
  apply Forall_cons in Hds as [[v1 Hv1] Hds].
  apply Forall_cons in Hds as [[v2 Hv2] Hds].
  apply Forall_cons in Hds as [[v3 Hv3] Hds].
  apply Forall_cons in Hds as [[v4 Hv4] _].
  rewrite !Hstrip by (repeat constructor; eauto).
  cbn [hex_digits]. rewrite Hv1, Hv2, Hv3, Hv4.
  cbn [digits_color fmap option_fmap option_map RGBA_of_Z].
  replace (16 * v1 + v1)%Z with (17 * v1)%Z by lia.
  replace (16 * v2 + v2)%Z with (17 * v2)%Z by lia.
  replace (16 * v3 + v3)%Z with (17 * v3)%Z by lia.
  replace (16 * v4 + v4)%Z with (17 * v4)%Z by lia.
  done.
Qed.

Lemma parseAndroidColor_shorthand_witness :
  parseAndroidColor (js "#fa0") = parseAndroidColor (js "#ffaa00").
Proof.
  refine (proj1 (parseAndroidColor_shorthand (js "#") 102 97 48 48 _ _))%N.
  - by right.
  - repeat constructor; by eexists.
Defined.

(** ** Writing and reading back *)

Lemma byte_check_all : forallb byte_check bytes = true.
Proof. vm_compute. reflexivity. Qed.

Lemma byte_facts n :
  (0 <= n < 256)%Z ->
  (number_of_Z n <? 16)%float = (n <? 16)%Z
  /\ (number_of_Z n =? 255)%float = (n =? 255)%Z
  /\ ((n < 16)%Z -> hex_digit (hex_unit n) = Some n)
  /\ toString16_integer (number_of_Z n) = byte_numeral n.
Proof.
  intros Hn. pose proof byte_check_all as Hall.
  rewrite forallb_forall in Hall.
  assert (Hin : In n bytes).
  { unfold bytes. apply in_map_iff. exists (Z.to_nat n).
    split; [lia |]. apply in_seq. lia. }
  specialize (Hall n Hin). unfold byte_check in Hall.
  apply andb_true_iff in Hall as [Hall H4].
  apply andb_true_iff in Hall as [Hall H3].
  apply andb_true_iff in Hall as [H1 H2].
  apply Bool.eqb_prop in H1, H2. apply bool_decide_eq_true in H4.
  repeat split; try done.
  intros Hlt. apply orb_true_iff in H3 as [H3 | H3]; [lia |].
  by apply bool_decide_eq_true in H3.
Qed.

Lemma two_digits_byte (Number_toString16 : number -> jsstring) n :
  (0 <= n < 256)%Z ->
  Number_toString16 (number_of_Z n) = byte_numeral n ->
  two_digits Number_toString16 (number_of_Z n)
  = [hex_unit (n / 16); hex_unit (n mod 16)].
Proof.
  intros Hn H16. unfold two_digits. rewrite H16.
  destruct (byte_facts n Hn) as (-> & _). unfold byte_numeral.
  destruct (Z.ltb_spec n 16) as [Hlt | Hge]; [| done].
  rewrite Z.div_small, Z.mod_small by lia. reflexivity.
Qed.

Lemma hex_digit_unit d : (0 <= d < 16)%Z -> hex_digit (hex_unit d) = Some d.
Proof. intros Hd. apply byte_facts; lia. Qed.

(** X26.  [parseAndroidColor] reads back what [toAndroidString] writes:
    for a color whose four components are integers from 0 to 255, and a
    [toString(16)] that gives such an integer its digits in lower case
    without a leading zero, the string written (six digits when alpha is
    255, eight otherwise) parses to the same color. *)
Theorem toAndroidString_parseAndroidColor
    (Number_toString16 : number -> jsstring) (a r g b : Z) :
  (forall n, (0 <= n < 256)%Z ->
     Number_toString16 (number_of_Z n) = byte_numeral n) ->
  (0 <= a < 256)%Z -> (0 <= r < 256)%Z -> (0 <= g < 256)%Z ->
  (0 <= b < 256)%Z ->
  parseAndroidColor
    (toAndroidString Number_toString16 (RGBA_of_Z (a, r, g, b)))
  = Some (RGBA_of_Z (a, r, g, b)).
Proof.
  intros H16 Ha Hr Hg Hb.
  assert (Hdig : forall n, (0 <= n < 256)%Z ->
            hex_digit (hex_unit (n / 16)) = Some (n / 16)%Z
            /\ hex_digit (hex_unit (n mod 16)) = Some (n mod 16)%Z
            /\ (16 * (n / 16) + n mod 16 = n)%Z).
  { intros n Hn. split; [| split].
    - apply hex_digit_unit.
      split; [apply Z.div_pos; lia | apply Z.div_lt_upper_bound; lia].
    - apply hex_digit_unit. apply Z.mod_pos_bound. lia.
    - symmetry. apply Z.div_mod. lia. }
  destruct (Hdig a Ha) as (Ha1 & Ha2 & Hae), (Hdig r Hr) as (Hr1 & Hr2 & Hre),
    (Hdig g Hg) as (Hg1 & Hg2 & Hge), (Hdig b Hb) as (Hb1 & Hb2 & Hbe).
  unfold toAndroidString. cbn [RGBA_of_Z RGBA.a RGBA.r RGBA.g RGBA.b].
  rewrite !two_digits_byte by auto.
  destruct (byte_facts a Ha) as (_ & -> & _).
  set (rgb := [hex_unit (r / 16); hex_unit (r mod 16)]
              ++ [hex_unit (g / 16); hex_unit (g mod 16)]
              ++ [hex_unit (b / 16); hex_unit (b mod 16)]).
  assert (Hrgb : Forall (fun c => is_Some (hex_digit c)) rgb)
    by (repeat constructor; eauto).
  destruct (Z.eqb_spec a 255) as [-> | Hne]; cbn [negb].
  - rewrite (parse_digits _ rgb); [| | done].
    + unfold rgb. cbn [app hex_digits].
      rewrite Hr1, Hr2, Hg1, Hg2, Hb1, Hb2.
      cbn [digits_color fmap option_fmap option_map].
      by rewrite Hre, Hge, Hbe.
    + pose proof (replace_ends_digits [] (js "#") rgb []
                    (Forall_nil_2 _) (Forall_nil_2 _)
                    (or_intror eq_refl) Hrgb) as H.
      by rewrite app_nil_l, app_nil_r in H.
  - rewrite (parse_digits _
               ([hex_unit (a / 16); hex_unit (a mod 16)] ++ rgb)).
    + unfold rgb. cbn [app hex_digits].
      rewrite Ha1, Ha2, Hr1, Hr2, Hg1, Hg2, Hb1, Hb2.
      cbn [digits_color fmap option_fmap option_map].
      by rewrite Hae, Hre, Hge, Hbe.
    + rewrite <- app_assoc.
      pose proof (replace_ends_digits [] (js "#")
                    ([hex_unit (a / 16); hex_unit (a mod 16)] ++ rgb) []
                    (Forall_nil_2 _) (Forall_nil_2 _)
                    (or_intror eq_refl)) as H.
      rewrite app_nil_l, app_nil_r in H. apply H.
      repeat constructor; eauto.
    + repeat constructor; eauto.
Qed.

Lemma toAndroidString_parseAndroidColor_witness :
  toAndroidString toString16_integer (RGBA.mk 128 255 10 0)
  = js "#80ff0a00"
  /\ parseAndroidColor
       (toAndroidString toString16_integer (RGBA.mk 128 255 10 0))
     = Some (RGBA.mk 128 255 10 0).
Proof.
  split; [reflexivity |].
  apply (toAndroidString_parseAndroidColor toString16_integer 128 255 10 0);
    try lia.
  intros n Hn. by apply byte_facts.
Defined.

(** ** What is accepted besides digits *)

Lemma hex_digit_range c v :
  hex_digit c = Some v -> c <> 43%N /\ c <> 45%N /\ (0 <= v < 16)%Z.
Proof.
  unfold hex_digit. intros H.
  destruct (N.leb_spec 48 c), (N.leb_spec c 57), (N.leb_spec 97 c),
    (N.leb_spec c 102), (N.leb_spec 65 c), (N.leb_spec c 70);
    simpl in H; try discriminate; injection H as <-; lia.
Qed.

Lemma parseInt16_digit_other h x v :
  hex_digit h = Some v -> hex_digit x = None ->
  (h = 48%N -> x <> 120%N /\ x <> 88%N) ->
  parseInt16 [h; x] = number_of_Z v /\ isNaN (number_of_Z v) = false.
Proof.
  intros Hh Hx H0x.
  destruct (hex_digit_range h v Hh) as (H43 & H45 & Hv).
  destruct (hex_digit_facts h v Hh) as (Hws & _ & _ & _).
  split.
  - unfold parseInt16. cbn [skip_white_space]. rewrite Hws.
    apply N.eqb_neq in H43, H45. rewrite H43, H45. cbn [orb].
    replace ((h =? 48)%N && ((x =? 120)%N || (x =? 88)%N)) with false.
    2: { destruct (N.eqb_spec h 48) as [E | E]; [| done].
         destruct (H0x E) as [E1 E2]. apply N.eqb_neq in E1, E2.
         by rewrite E1, E2. }
    cbn [hex_digits]. rewrite Hh, Hx. cbn [foldl].
    replace (16 * 0 + v)%Z with v by lia.
    destruct (Z.eqb_spec v 0) as [-> | Hne]; reflexivity.
  - assert (H0 : hex_digit 48%N = Some 0%Z) by reflexivity.
    destruct (hex_digit_facts _ _ H0) as (_ & _ & _ & H2).
    destruct (H2 h v Hh) as [_ Hn].
    by replace (16 * 0 + v)%Z with v in Hn by lia.
Qed.

(** X27.  Digits are not checked beyond the first of each pair: a string
    of six code units in which each pair is a hexadecimal digit followed
    by a code unit that is not one (and that does not make the pair [0x]
    or [0X]), the last not being white space, is accepted as the opaque
    color whose components are the three single digits. *)
Theorem parseAndroidColor_lenient (h1 x1 h2 x2 h3 x3 : code_unit)
    (v1 v2 v3 : Z) :
  hex_digit h1 = Some v1 -> hex_digit h2 = Some v2 ->
  hex_digit h3 = Some v3 ->
  hex_digit x1 = None -> hex_digit x2 = None -> hex_digit x3 = None ->
  (h1 = 48%N -> x1 <> 120%N /\ x1 <> 88%N) ->
  (h2 = 48%N -> x2 <> 120%N /\ x2 <> 88%N) ->
  (h3 = 48%N -> x3 <> 120%N /\ x3 <> 88%N) ->
  is_white_space x3 = false ->
  parseAndroidColor [h1; x1; h2; x2; h3; x3]
  = Some (RGBA_of_Z (255, v1, v2, v3)%Z).
Proof.
  intros Hh1 Hh2 Hh3 Hx1 Hx2 Hx3 H1 H2 H3 Hws3.
  destruct (hex_digit_facts h1 v1 Hh1) as (Hw1 & Hn1 & _).
  destruct (hex_digit_facts h2 v2 Hh2) as (Hw2 & _).
  destruct (hex_digit_facts h3 v3 Hh3) as (Hw3 & _).
  apply N.eqb_neq in Hn1.
  assert (Hstrip : replace_ends [h1; x1; h2; x2; h3; x3]
                   = [h1; x1; h2; x2; h3; x3]).
  { unfold replace_ends. cbn [skip_white_space]. rewrite Hw1, Hn1.
    cbn [cut_trailing_white_space forallb].
    rewrite Hw1, Hw2, Hw3, Hws3. cbn [andb].
    by rewrite !andb_false_r. }
  unfold parseAndroidColor. rewrite Hstrip. cbv zeta. cbn [length].
  do 2 rewrite bool_decide_eq_false_2 by done.
  rewrite bool_decide_eq_true_2 by done.
  unfold substring. cbn [Nat.add Nat.sub take drop].
  destruct (parseInt16_digit_other h1 x1 v1 Hh1 Hx1 H1) as [-> N1],
    (parseInt16_digit_other h2 x2 v2 Hh2 Hx2 H2) as [-> N2],
    (parseInt16_digit_other h3 x3 v3 Hh3 Hx3 H3) as [-> N3].
  cbn [RGBA.a RGBA.r RGBA.g RGBA.b]. rewrite N1, N2, N3. reflexivity.
Qed.

Lemma parseAndroidColor_lenient_witness :
  parseAndroidColor (js "fgfgfg") = Some (RGBA.mk 255 15 15 15).
Proof.
  apply (parseAndroidColor_lenient 102 103 102 103 102 103 15 15 15)%N;
    try reflexivity; intros E; discriminate E.
Defined.

(** ** The two other routines *)

(** X28.  What [svgToAndroidColor] builds is an Android color:
    when [tinycolor] gives six hexadecimal digits [rgb] for [toHex()] and
    the same followed by two digits [alpha] for [toHex8()], the result for
    a color other than ['none'] is [#], [alpha], [rgb], and
    [parseAndroidColor] reads it as the color of these eight digits. *)
Theorem svgToAndroidColor_parseAndroidColor
    (tinycolor_toHex8 tinycolor_toHex : jsstring -> jsstring)
    (color rgb alpha : jsstring) :
  color <> js "none" ->
  tinycolor_toHex color = rgb ->
  tinycolor_toHex8 color = rgb ++ alpha ->
  length rgb = 6 -> length alpha = 2 ->
  Forall (fun c => is_Some (hex_digit c)) (rgb ++ alpha) ->
  svgToAndroidColor tinycolor_toHex8 tinycolor_toHex color
  = Some (js "#" ++ alpha ++ rgb)
  /\ parseAndroidColor (js "#" ++ alpha ++ rgb)
     = RGBA_of_Z <$> digits_color (hex_digits (alpha ++ rgb))
  /\ is_Some (parseAndroidColor (js "#" ++ alpha ++ rgb)).
Proof.
  intros Hne Hrgb Hrgba Hl6 Hl2 Hall.
  apply Forall_app in Hall as [Hall6 Hall2].
  assert (Hall : Forall (fun c => is_Some (hex_digit c)) (alpha ++ rgb))
    by (by apply Forall_app).
  assert (Hparse : parseAndroidColor (js "#" ++ alpha ++ rgb)
                   = RGBA_of_Z <$> digits_color (hex_digits (alpha ++ rgb))).
  { apply parse_digits; [| done].
    pose proof (replace_ends_digits [] (js "#") (alpha ++ rgb) []
                  (Forall_nil_2 _) (Forall_nil_2 _)
                  (or_intror eq_refl) Hall) as H.
    by rewrite app_nil_l, app_nil_r in H. }
  split; [| split; [done |]].
  - unfold svgToAndroidColor. rewrite bool_decide_eq_false_2 by done.
    rewrite Hrgb, Hrgba. rewrite drop_app_length'; done.
  - rewrite Hparse.
    destruct alpha as [| a1 [| a2 [| ? ?]]]; try discriminate Hl2.
    destruct rgb as [| r1 [| r2 [| g1 [| g2 [| b1 [| b2 [| ? ?]]]]]]];
      try discriminate Hl6.
    repeat match goal with
           | H : Forall _ (_ :: _) |- _ =>
               apply Forall_cons in H as [[? ?] ?]
           end.
    cbn [app hex_digits].
    repeat match goal with H : hex_digit _ = Some _ |- _ =>
             rewrite H; clear H end.
    by eexists.
Qed.

Lemma svgToAndroidColor_parseAndroidColor_witness :
  svgToAndroidColor (fun _ => js "ff000080") (fun _ => js "ff0000")
    (js "red")
  = Some (js "#80ff0000")
  /\ parseAndroidColor (js "#80ff0000") = Some (RGBA.mk 128 255 0 0).
Proof.
  destruct (svgToAndroidColor_parseAndroidColor
              (fun _ => js "ff000080") (fun _ => js "ff0000")
              (js "red") (js "ff0000") (js "80"))
    as (H1 & H2 & _);
    [discriminate | reflexivity | reflexivity | reflexivity | reflexivity
    | repeat constructor; by eexists |].
  split; [exact H1 | exact H2].
Defined.

(** X29.  [androidToCssColor] throws on a string that
    [parseAndroidColor] rejects: for a string that is not empty, it throws
    exactly when [parseAndroidColor] returns [undefined], which is the
    case whenever the string stripped of its ends has not 3, 4, 6 or 8
    code units. *)
Theorem androidToCssColor_throws
    (Number_toString Number_toFixed2 : number -> jsstring)
    (androidColor : jsstring) (multAlpha : option number) :
  androidColor <> [] ->
  (androidToCssColor Number_toString Number_toFixed2 (Some androidColor)
     multAlpha = TypeError
   <-> parseAndroidColor androidColor = None)
  /\ (length (replace_ends androidColor) ∉ [3; 4; 6; 8] ->
      androidToCssColor Number_toString Number_toFixed2 (Some androidColor)
        multAlpha = TypeError).
Proof.
  intros Hne.
  assert (Hiff : androidToCssColor Number_toString Number_toFixed2
                   (Some androidColor) multAlpha = TypeError
                 <-> parseAndroidColor androidColor = None).
  { unfold androidToCssColor.
    destruct androidColor as [| c s]; [done |].
    destruct (parseAndroidColor (c :: s)); split; done. }
  split; [exact Hiff |].
  intros Hlen. apply Hiff. unfold parseAndroidColor. cbv zeta.
  rewrite !not_elem_of_cons in Hlen. destruct Hlen as (? & ? & ? & ? & _).
  by rewrite !bool_decide_eq_false_2.
Qed.

Lemma androidToCssColor_throws_witness :
  androidToCssColor (fun _ => []) (fun _ => []) (Some (js "#12345")) None
  = TypeError.
Proof.
  refine (proj2 (androidToCssColor_throws (fun _ => []) (fun _ => [])
                   (js "#12345") None _) _).
  - discriminate.
  - apply (bool_decide_unpack _). vm_compute. exact I.
Defined.
